(** * PCP-MAE (models/PCP_MAE.py): masking, grouping, attention blocks,
      point-to-image projection and the orchestrator's shapes.

    Conventions of the embedding.

    - Tensors are nested lists; the batch axis is the outermost list.
    - Coordinates and features are exact numbers.  A finite set of floats
      can be scaled by one power of two to integers, and every quantity the
      properties below depend on (order of distances, quotient indices,
      sums) is invariant or equivariant under that scaling, so point
      coordinates are [Z].  Rounding of float arithmetic is not modelled;
      the one float effect that decides a property, the quotient 0/0 being
      NaN, is modelled explicitly ([fnum]).
    - Python exceptions are the [Err] branch of [result].
    - Library calls whose code is not part of the file (random number
      generation, [np.random.shuffle], [torch.argsort], [misc.fps],
      [knn_point], the [nn] layers) are Section variables, with their
      documented contract as Section hypotheses where a property needs it. *)

From Stdlib Require Import ZArith QArith Qround Lia String.
From stdpp Require Import base tactics option list numbers sorting.

Local Open Scope Z_scope.

(** ** Exceptions and fallible computations *)

Inductive exn : Type :=
  | NotImplementedError
  | AssertionError
  | ValueError
  | RuntimeError
  | IndexError.

Inductive result (A : Type) : Type :=
  | Ok (a : A)
  | Err (e : exn).
Arguments Ok {A} a.
Arguments Err {A} e.

Definition rbind {A B} (m : result A) (k : A -> result B) : result B :=
  match m with
  | Ok a => k a
  | Err e => Err e
  end.

Notation "'do' x <- m ; k" := (rbind m (fun x => k))
  (at level 10, x name, m at level 100, k at level 200).
Notation "'do' ( x , y ) <- m ; k" := (rbind m (fun p => let '(x, y) := p in k))
  (at level 10, x name, y name, m at level 100, k at level 200).

Definition is_Ok {A} (m : result A) : Prop := exists a, m = Ok a.

(** The result with [f] applied to the value, the exception as it is. *)
Definition rmap {A B} (f : A -> B) (m : result A) : result B :=
  match m with
  | Ok a => Ok (f a)
  | Err e => Err e
  end.

(** [res_mapM f l] runs [f] on the elements from left to right and stops at
    the first exception, like a Python [for] loop that appends. *)
Fixpoint res_mapM {A B} (f : A -> result B) (l : list A) : result (list B) :=
  match l with
  | [] => Ok []
  | a :: l' => do b <- f a; do bs <- res_mapM f l'; Ok (b :: bs)
  end.

(** ** PCP_MAE.build_loss_func and PCP_MAE.__init__ *)

Module Loss.

Local Open Scope string_scope.

(** The two set-distance losses of extensions.chamfer_dist. *)
Inductive loss_func : Type :=
  | ChamferDistanceL1
  | ChamferDistanceL2.

(** [build_loss_func(self, loss_type)]: the [if / elif / else raise]. *)
Definition build_loss_func (loss_type : string) : result loss_func :=
  if String.eqb loss_type "cdl1" then Ok ChamferDistanceL1
  else if String.eqb loss_type "cdl2" then Ok ChamferDistanceL2
  else Err NotImplementedError.

Section Init.
(** The attributes [__init__] sets before and after the loss: the two
    halves of the constructor around lines 553-555 are parameters.  They
    do not read [self.loss_func]. *)
Context {Config Pre Post : Type}.
Variable config_loss : Config -> string.
Variable init_before_loss : Config -> result Pre.
Variable init_after_loss : Config -> Pre -> result Post.

Record PCP_MAE_model : Type := {
  pre_attrs : Pre;
  loss : string;
  loss_func_attr : loss_func;
  post_attrs : Post
}.

(** [__init__]: everything up to [self.loss = config.loss], then
    [self.build_loss_func(self.loss)], then the rest. *)
Definition PCP_MAE_init (config : Config) : result PCP_MAE_model :=
  do pre <- init_before_loss config;
  let loss := config_loss config in
  do lf <- build_loss_func loss;
  do post <- init_after_loss config pre;
  Ok {| pre_attrs := pre; loss := loss; loss_func_attr := lf; post_attrs := post |}.
End Init.

End Loss.

(** ** Numbers of Python *)

(** A point of a cloud, or a group center: (x, y, z). *)
Definition point : Type := Z * Z * Z.

Definition px (p : point) : Z := p.1.1.
Definition py (p : point) : Z := p.1.2.
Definition pz (p : point) : Z := p.2.

(** [int(x)] on a number: truncation toward zero. *)
Definition py_int (q : Q) : Z := Z.quot (Qnum q) (Zpos (Qden q)).

(** [round(x)]: to the nearest integer, a tie to the even one. *)
Definition py_round (q : Q) : Z :=
  let f := Qfloor q in
  match Qcompare (q - inject_Z f) (1 # 2) with
  | Lt => f
  | Gt => f + 1
  | Eq => if Z.even f then f else f + 1
  end.

(** [l[:k]] for a Python integer [k]: a negative [k] counts from the end. *)
Definition py_slice_to {A} (k : Z) (l : list A) : list A :=
  if 0 <=? k then take (Z.to_nat k) l
  else take (length l - Z.to_nat (- k)) l.

(** The number of elements of [l[:k]] for a list of [n] elements. *)
Definition slice_len (k : Z) (n : nat) : nat :=
  if 0 <=? k then (Z.to_nat k `min` n)%nat else (n - Z.to_nat (- k))%nat.

(** [l[-k:]] for a Python integer [k >= 0]: the last [k] elements, and the
    whole list for [k = 0] because [-0] is [0]. *)
Definition py_slice_last {A} (k : nat) (l : list A) : list A :=
  match k with
  | O => l
  | _ => drop (length l - k) l
  end.

(** [t.reshape(rows, cols, ...)] of a tensor whose first axis has
    [rows * cols] entries. *)
Fixpoint chunks {A} (rows cols : nat) (l : list A) : list (list A) :=
  match rows with
  | O => []
  | S rows' => take cols l :: chunks rows' cols (drop cols l)
  end.

(** ** MaskTransformer: the two masking policies *)

Module Mask.

(** Squared Euclidean distance.  The source sorts by [torch.norm(.., p=2)],
    the square root of this number; the square root is strictly increasing,
    so both give the same order and the same ties. *)
Definition sqdist (a b : point) : Z :=
  (px a - px b) ^ 2 + (py a - py b) ^ 2 + (pz a - pz b) ^ 2.

(** [np.zeros(n)], [np.ones(n)]: a negative size raises ValueError. *)
Definition np_full (v : Z) (n : Z) : result (list Z) :=
  if n <? 0 then Err ValueError else Ok (replicate (Z.to_nat n) v).

(** [.bool()] / [.to(torch.bool)]: non-zero is true. *)
Definition to_bool (v : Z) : bool := negb (v =? 0).

(** [torch.zeros(center.shape[:2]).bool()] *)
Definition zeros_mask (B G : nat) : list (list bool) :=
  replicate B (to_bool <$> replicate G 0).

(** [mask[idxs] = 1] with a tensor of indices; an index past the end
    raises IndexError. *)
Fixpoint index_put_one (mask : list Z) (idxs : list nat) : result (list Z) :=
  match idxs with
  | [] => Ok mask
  | i :: rest =>
      if decide (i < length mask)%nat
      then index_put_one (<[i := 1]> mask) rest
      else Err IndexError
  end.

(** Number of true entries of a mask row. *)
Definition count_true (row : list bool) : nat :=
  length (filter (fun b => b = true) row).

(** A stable argsort (ties keep index order), by insertion of (key, index)
    pairs: one of the orders [torch.argsort] may return. *)
Fixpoint insert_key (k : Z) (i : nat) (l : list (Z * nat)) : list (Z * nat) :=
  match l with
  | [] => [(k, i)]
  | (k', i') :: l' =>
      if k <=? k' then (k, i) :: (k', i') :: l'
      else (k', i') :: insert_key k i l'
  end.

Definition sort_pairs (l : list (nat * Z)) : list (Z * nat) :=
  foldr (fun ik acc => insert_key ik.2 ik.1 acc) [] l.

Definition stable_argsort (keys : list Z) : list nat :=
  snd <$> sort_pairs (zip (seq 0 (length keys)) keys).

Section Policies.
(** The state of the random generators ([random], [np.random]) is
    threaded through the calls: each call draws fresh randomness. *)
Context {RNG : Type}.
(** [random.randint(a, b)] for [a <= b]. *)
Variable randint : RNG -> Z -> Z -> Z * RNG.
(** [np.random.shuffle(mask)]: the row in a new order. *)
Variable shuffle : RNG -> list Z -> list Z * RNG.
(** [torch.argsort(keys, descending=False)]. *)
Variable argsort : list Z -> list nat.

Variable mask_ratio : Q.

(** The shape [B, G] of [center]. *)
Definition batch_of (center : list (list point)) : nat := length center.
Definition groups_of (center : list (list point)) : nat := length (hd [] center).

(** One iteration of the loop of [_mask_center_block]. *)
Definition block_row (points : list point) (s : RNG) : result (list bool * RNG) :=
  let G := Z.of_nat (length points) in
  do (index, s') <- (if G - 1 <? 0 then Err ValueError
                    else Ok (randint s 0 (G - 1)));
  do anchor <- (if decide (0 <= index)
              then match points !! Z.to_nat index with
                   | Some a => Ok a
                   | None => Err IndexError
                   end
              else Err IndexError);
  let distance_matrix := sqdist anchor <$> points in
  let idx := argsort distance_matrix in
  let ratio := mask_ratio in
  let mask_num := py_int (ratio * inject_Z (Z.of_nat (length idx))) in
  let mask := replicate (length idx) 0 in
  do mask <- index_put_one mask (py_slice_to mask_num idx);
  Ok (to_bool <$> mask, s').

Fixpoint block_loop (center : list (list point)) (s : RNG)
  : result (list (list bool) * RNG) :=
  match center with
  | [] => Ok ([], s)
  | points :: rest =>
      do (row, s1) <- block_row points s;
      do (rows, s2) <- block_loop rest s1;
      Ok (row :: rows, s2)
  end.

(** [_mask_center_block(self, center, noaug)].  [torch.stack] of an empty
    list of rows raises RuntimeError. *)
Definition _mask_center_block (center : list (list point)) (noaug : bool) (s : RNG)
  : result (list (list bool) * RNG) :=
  if noaug || Qeq_bool mask_ratio 0
  then Ok (zeros_mask (batch_of center) (groups_of center), s)
  else
    do (mask_idx, s') <- block_loop center s;
    match mask_idx with
    | [] => Err RuntimeError
    | _ => Ok (mask_idx, s')
    end.

(** The body of the loop of [_mask_center_rand]. *)
Definition rand_row (G num_mask : Z) (s : RNG) : result (list bool * RNG) :=
  do zs <- np_full 0 (G - num_mask);
  do os <- np_full 1 num_mask;
  let '(mask, s') := shuffle s (zs ++ os) in
  Ok (to_bool <$> mask, s').

Fixpoint rand_loop (B : nat) (G num_mask : Z) (s : RNG)
  : result (list (list bool) * RNG) :=
  match B with
  | O => Ok ([], s)
  | S B' =>
      do (row, s1) <- rand_row G num_mask s;
      do (rows, s2) <- rand_loop B' G num_mask s1;
      Ok (row :: rows, s2)
  end.

(** [_mask_center_rand(self, center, noaug)] *)
Definition _mask_center_rand (center : list (list point)) (noaug : bool) (s : RNG)
  : result (list (list bool) * RNG) :=
  let B := batch_of center in
  let G := groups_of center in
  if noaug || Qeq_bool mask_ratio 0
  then Ok (zeros_mask B G, s)
  else
    let num_mask := py_int (mask_ratio * inject_Z (Z.of_nat G)) in
    rand_loop B (Z.of_nat G) num_mask s.

(** The choice of policy at the head of [MaskTransformer.forward]. *)
Definition generate_mask (mask_type : string) (center : list (list point))
    (noaug : bool) (s : RNG) : result (list (list bool) * RNG) :=
  if String.eqb mask_type "rand"
  then _mask_center_rand center noaug s
  else _mask_center_block center noaug s.
End Policies.

(** What the properties below use of the random generators: a drawn
    integer lies in the requested range, a shuffled row is a reordering. *)
Record rng_spec {RNG : Type} (randint : RNG -> Z -> Z -> Z * RNG)
    (shuffle : RNG -> list Z -> list Z * RNG) : Prop := {
  randint_range : forall s a b, a <= b -> a <= (randint s a b).1 <= b;
  shuffle_perm : forall s row, (shuffle s row).1 ≡ₚ row
}.

(** What they use of [torch.argsort]: the result lists every position once
    and the keys read in that order ascend.  The order among equal keys is
    left open, as in torch. *)
Record argsort_spec (argsort : list Z -> list nat) : Prop := {
  argsort_perm : forall keys, argsort keys ≡ₚ seq 0 (length keys);
  argsort_sorted : forall keys, Sorted Z.le ((fun i => nth i keys 0) <$> argsort keys)
}.

(** A generator for examples: the state is a counter, [randint] walks
    through the range, [shuffle] rotates the row by the counter. *)
Definition counter_randint (s : nat) (a b : Z) : Z * nat :=
  (a + Z.of_nat s mod (b - a + 1), S s).
Definition counter_shuffle (s : nat) (row : list Z) : list Z * nat :=
  (rotate s row, S s).

End Mask.

(** ** Group: farthest point sampling and k nearest neighbours *)

Module Grouping.

Definition psub (a b : point) : point := (px a - px b, py a - py b, pz a - pz b).
Definition padd (a b : point) : point := (px a + px b, py a + py b, pz a + pz b).

(** [rows[i]] for an entry [i] of an index tensor: a negative index counts
    from the end, once; anything else past the ends raises IndexError. *)
Definition index_row {A} (rows : list A) (i : Z) : result A :=
  let n := Z.of_nat (length rows) in
  let j := if i <? 0 then i + n else i in
  if (0 <=? j) && (j <? n)
  then match rows !! Z.to_nat j with
       | Some r => Ok r
       | None => Err IndexError
       end
  else Err IndexError.

(** [t.size(1)] and [t.size(2)] of a tensor with a non-empty batch. *)
Definition size1 {A} (t : list (list A)) : nat := length (hd [] t).
Definition size2 {A} (t : list (list (list A))) : nat := length (hd [] (hd [] t)).

(** The shape (B, G, ...) of the first two axes. *)
Definition has_shape2 {A} (B G : nat) (t : list (list A)) : Prop :=
  length t = B /\ Forall (fun r => length r = G) t.

Section Group.
(** [misc.fps(xyz, num_group)] returns the centers, B x G x 3, and
    [knn_point(group_size, xyz, center)] the indices, B x G x M, of points
    of each cloud.  Neither is defined in this file. *)
Variable fps : list (list point) -> nat -> list (list point).
Variable knn_point : nat -> list (list point) -> list (list point) -> list (list (list Z)).
Variables num_group group_size : nat.

(** [idx + idx_base], with [idx_base = arange(0, batch_size).view(-1, 1, 1) * num_points]. *)
Definition shift (num_points b : nat) (i : Z) : Z := i + Z.of_nat b * Z.of_nat num_points.

Definition add_idx_base (num_points : nat) (idx : list (list (list Z)))
  : list (list (list Z)) :=
  imap (fun b (tbl : list (list Z)) =>
          (fun row : list Z => shift num_points b <$> row) <$> tbl)
       idx.

(** [neighborhood - center.unsqueeze(2)] *)
Definition sub_center (neighborhood : list (list (list point))) (center : list (list point))
  : list (list (list point)) :=
  zip_with (fun groups cs =>
              zip_with (fun (grp : list point) c => (fun q => psub q c) <$> grp) groups cs)
           neighborhood center.

(** [Group.forward(xyz)].  The index tensor has one table per cloud and
    the centers one row per cloud and one center per group, as the sum
    with [idx_base], the [view] and the subtraction need; other shapes are
    a RuntimeError here (torch would accept a batch axis of size one, which
    the two helpers never return). *)
Definition Group_forward (xyz : list (list point))
  : result (list (list (list point)) * list (list point)) :=
  let batch_size := length xyz in
  let num_points := size1 xyz in
  let center := fps xyz num_group in
  let idx := knn_point group_size xyz center in
  if negb (size1 idx =? num_group)%nat then Err AssertionError
  else if negb (size2 idx =? group_size)%nat then Err AssertionError
  else if negb (length idx =? batch_size)%nat then Err RuntimeError
  else
    let idx := add_idx_base num_points idx in
    do neighborhood <- res_mapM (res_mapM (res_mapM (index_row (concat xyz)))) idx;
    if decide (has_shape2 batch_size num_group center)
    then Ok (sub_center neighborhood center, center)
    else Err RuntimeError.
End Group.

(** Helpers for examples: the first [n] points as centers, and for each
    center the [k] indices of smallest distance in stable order. *)
Definition first_centers (xyz : list (list point)) (n : nat) : list (list point) :=
  take n <$> xyz.

Definition nearest_indices (k : nat) (xyz center : list (list point)) : list (list (list Z)) :=
  zip_with (fun cloud cs =>
              (fun c => Z.of_nat <$> take k (Mask.stable_argsort (Mask.sqdist c <$> cloud))) <$> cs)
           xyz center.

(** A batch of clouds, or of centers, moved by the vector [t]. *)
Definition translate (t : point) (xyz : list (list point)) : list (list point) :=
  (fun cloud : list point => (fun p => padd p t) <$> cloud) <$> xyz.

End Grouping.

(** ** Encoder: the embedding of a group of points *)

Module PointEncoder.

Section Encoder.
(** Feature scalars with the maximum of the tensor library; a feature
    vector lists the channels of one point. *)
Context {T : Type}.
Variable tmax : T -> T -> T.

Definition feat : Type := list T.

(** The layers of one [nn.Sequential(Conv1d, BatchNorm1d, ReLU, Conv1d)].
    A convolution of kernel size 1 and ReLU act on every point alone.
    BatchNorm1d normalises a point's channels with statistics of the
    channels: in training mode those of the whole batch (all the B*G*n
    columns, first argument), in evaluation mode the stored ones. *)
Record conv_block (A : Type) : Type := {
  conv_a : A -> feat;
  batch_norm : list feat -> feat -> feat;
  relu : feat -> feat;
  conv_b : feat -> feat
}.
Arguments conv_a {A}.
Arguments batch_norm {A}.
Arguments relu {A}.
Arguments conv_b {A}.

Variable first_conv : conv_block point.
Variable second_conv : conv_block feat.

(** [self.first_conv(x)] / [self.second_conv(x)] on BG groups of points. *)
Definition apply_conv {A} (c : conv_block A) (groups : list (list A)) : list (list feat) :=
  let lifted := (fun grp : list A => conv_a c <$> grp) <$> groups in
  let batch := concat lifted in
  (fun grp : list feat => (fun v => conv_b c (relu c (batch_norm c batch v))) <$> grp)
    <$> lifted.

(** Channel-wise maximum of two feature vectors. *)
Definition vmax (a b : feat) : feat := zip_with tmax a b.

(** [torch.max(feature, dim=2)[0]] for one group: the maximum over its
    points, channel by channel; no point at all is an error. *)
Definition max_acc (v : feat) (acc : option feat) : option feat :=
  Some (match acc with Some a => vmax v a | None => v end).

Definition max_pool (grp : list feat) : result feat :=
  match foldr max_acc None grp with
  | Some v => Ok v
  | None => Err RuntimeError
  end.

(** [torch.cat([feature_global.expand(-1, -1, n), feature], dim=1)] *)
Definition cat_global (feature_global : list feat) (feature : list (list feat))
  : list (list feat) :=
  zip_with (fun fg (grp : list feat) => (fun v => fg ++ v) <$> grp) feature_global feature.

(** [Encoder.forward(point_groups)], [point_groups : B G N 3]. *)
Definition Encoder_forward (point_groups : list (list (list point)))
  : result (list (list feat)) :=
  let bs := length point_groups in
  let g := length (hd [] point_groups) in
  let point_groups := concat point_groups in
  let feature := apply_conv first_conv point_groups in
  do feature_global <- res_mapM max_pool feature;
  let feature := cat_global feature_global feature in
  let feature := apply_conv second_conv feature in
  do feature_global <- res_mapM max_pool feature;
  Ok (chunks bs g feature_global).
End Encoder.

Arguments conv_a {T A}.
Arguments batch_norm {T A}.
Arguments relu {T A}.
Arguments conv_b {T A}.

(** What the invariance needs of the layers: the maximum is commutative
    and associative, and the statistics of BatchNorm1d do not depend on the
    order of the columns of the batch. *)
Record encoder_spec {T : Type} (tmax : T -> T -> T)
    (first_conv : conv_block (T := T) point)
    (second_conv : conv_block (T := T) (feat (T := T))) : Prop := {
  tmax_comm : forall a b, tmax a b = tmax b a;
  tmax_assoc : forall a b c, tmax a (tmax b c) = tmax (tmax a b) c;
  first_norm_sym : forall l l' : list feat,
    l ≡ₚ l' -> batch_norm first_conv l = batch_norm first_conv l';
  second_norm_sym : forall l l' : list feat,
    l ≡ₚ l' -> batch_norm second_conv l = batch_norm second_conv l'
}.

(** Layers over the integers for examples: the batch statistic is the
    number of columns of the batch. *)
Definition example_norm (batch : list (list Z)) (v : list Z) : list Z :=
  (fun c => 10 * c - Z.of_nat (length batch)) <$> v.

Definition example_first_conv : conv_block (T := Z) point := {|
  conv_a := fun p => [px p + py p; pz p];
  batch_norm := example_norm;
  relu := fun v => Z.max 0 <$> v;
  conv_b := fun v => (fun c => 2 * c + 1) <$> v
|}.

Definition example_second_conv : conv_block (T := Z) (list Z) := {|
  conv_a := fun v => [foldr Z.add 0 v; hd 0 v];
  batch_norm := example_norm;
  relu := fun v => Z.max 0 <$> v;
  conv_b := fun v => (fun c => c - 3) <$> v
|}.

End PointEncoder.

(** ** Encoder in evaluation mode: one group at a time *)

Module EncoderEval.
Import PointEncoder.

Section Eval.
Context {T : Type}.
Variable tmax : T -> T -> T.
Variable first_conv : conv_block (T := T) point.
Variable second_conv : conv_block (T := T) (feat (T := T)).

(** BatchNorm1d in evaluation mode normalises with the stored statistics,
    whatever the batch holds. *)
Definition eval_mode {A} (c : conv_block (T := T) A) : Prop :=
  forall l l' : list feat, batch_norm c l = batch_norm c l'.

(** [Conv1d, BatchNorm1d, ReLU, Conv1d] on one point, with the statistics
    BatchNorm1d has for no batch at all. *)
Definition pointwise {A} (c : conv_block (T := T) A) (a : A) : feat :=
  conv_b c (relu c (batch_norm c [] (conv_a c a))).

(** The embedding of one group on its own, as the comments of
    [Encoder.forward] describe it: the features of the points, their
    maximum, the maximum in front of every point's features, the second
    stack of layers, the maximum again. *)
Definition Encoder_group (grp : list point) : result feat :=
  let feature := pointwise first_conv <$> grp in
  do feature_global <- max_pool tmax feature;
  let feature := (fun v => pointwise second_conv (feature_global ++ v)) <$> feature in
  max_pool tmax feature.
End Eval.

(** Layers over the integers for examples, with BatchNorm1d in evaluation
    mode: the stored mean is 7. *)
Definition eval_norm (batch : list (list Z)) (v : list Z) : list Z :=
  (fun c => 10 * c - 7) <$> v.

Definition eval_first_conv : conv_block (T := Z) point := {|
  conv_a := fun p => [px p + py p; pz p];
  batch_norm := eval_norm;
  relu := fun v => Z.max 0 <$> v;
  conv_b := fun v => (fun c => 2 * c + 1) <$> v
|}.

Definition eval_second_conv : conv_block (T := Z) (list Z) := {|
  conv_a := fun v => [foldr Z.add 0 v; hd 0 v];
  batch_norm := eval_norm;
  relu := fun v => Z.max 0 <$> v;
  conv_b := fun v => (fun c => c - 3) <$> v
|}.

End EncoderEval.

(** ** Attention and Block: self attention and joint self+cross attention *)

Module Transformer.

Section Layers.
(** Scalars with the arithmetic and the [softmax] of the tensor library.
    A token is its vector of C features, a sequence the list of its
    tokens, a tensor (B, N, C) one sequence per sample. *)
Context {T : Type}.
Variables (tzero : T) (tadd tmul : T -> T -> T).
Variable softmax : list T -> list T.

Definition token : Type := list T.

(** The layers of one Block, as functions of their input with the weights
    fixed.  [nn.Linear] and [nn.LayerNorm] act on the last axis, token by
    token, and so does [Mlp].  Dropout and DropPath are taken in the regime
    where they are functions of their input: rate 0 (the default of every
    Block this file builds, and [nn.Identity] for [drop_path = 0]) or
    evaluation mode. *)
Record block_params : Type := {
  num_heads : nat;
  dim : nat;
  scale : T;
  qkv : token -> token;
  attn_drop : list (list T) -> list (list T);
  proj : token -> token;
  proj_drop : token -> token;
  norm1 : token -> token;
  norm2 : token -> token;
  mlp : token -> token;
  drop_path : list (list token) -> list (list token)
}.

Variable P : block_params.

Definition head_dim : nat := (dim P / num_heads P)%nat.

Definition dot (a b : token) : T := foldr tadd tzero (zip_with tmul a b).

(** [row @ v]: the combination of the value vectors with the weights of
    one attention row. *)
Definition weighted_sum (row : list T) (v : list token) : token :=
  foldr (zip_with tadd) (replicate head_dim tzero)
        (zip_with (fun w vj => tmul w <$> vj) row v).

(** [qkv[which][b, h]] after [reshape(B, N, 3, H, C // H).permute(2, 0, 3, 1, 4)]:
    for every token the slice of its 3C projected features that belongs to
    q, k or v ([which] = 0, 1, 2) and to head [h]. *)
Definition head_slice (which h : nat) (projected : list token) : list token :=
  (fun t => take head_dim (drop (which * dim P + h * head_dim) t)) <$> projected.

(** [softmax((q @ k.transpose(-2, -1)) * scale)], then [attn_drop], then
    [attn @ v], for one head of one sample. *)
Definition attend (q k v : list token) : list token :=
  let attn := (fun qi => softmax ((fun kj => tmul (dot qi kj) (scale P)) <$> k)) <$> q in
  let attn := attn_drop P attn in
  (fun row => weighted_sum row v) <$> attn.

(** [(attn @ v).transpose(1, 2).reshape(B, n, C)]: token by token, the
    outputs of the heads side by side. *)
Definition merge_heads (n : nat) (outs : list (list token)) : list token :=
  (fun i => concat ((fun o : list token => nth i o []) <$> outs)) <$> seq 0 n.

Definition project (s : list token) : list token := proj_drop P <$> (proj P <$> s).

(** [Attention.forward(x)], [y is None]: one sample. *)
Definition attention_self_sample (x : list token) : list token :=
  let N := length x in
  let projected := qkv P <$> x in
  let out := (fun h => attend (head_slice 0 h projected)
                              (head_slice 1 h projected)
                              (head_slice 2 h projected)) <$> seq 0 (num_heads P) in
  project (merge_heads N out).

(** [Attention.forward(x, y)]: one sample; the pair (x, y) returned. *)
Definition attention_joint_sample (x y : list token) : list token * list token :=
  let N := length x in
  let L := length y in
  let x := x ++ y in
  let projected := qkv P <$> x in
  let q h := head_slice 0 h projected in
  let k h := head_slice 1 h projected in
  let v h := head_slice 2 h projected in
  (* Cross attention: y query *)
  let out_y := (fun h => attend (drop N (q h)) (k h) (v h)) <$> seq 0 (num_heads P) in
  let y := project (merge_heads L out_y) in
  (* Self attention *)
  let out_x := (fun h => attend (take N (q h)) (take N (k h)) (take N (v h)))
                 <$> seq 0 (num_heads P) in
  let x := project (merge_heads N out_x) in
  (x, y).

Definition Attention_forward_self (x : list (list token)) : list (list token) :=
  attention_self_sample <$> x.

(** [torch.cat([x, y], dim=1)] needs the same batch size. *)
Definition Attention_forward_joint (x y : list (list token))
  : result (list (list token) * list (list token)) :=
  if decide (length x = length y)
  then let r := zip_with attention_joint_sample x y in Ok (fst <$> r, snd <$> r)
  else Err RuntimeError.

(** [a + b] on tensors of one shape. *)
Definition tensor_add (a b : list (list token)) : list (list token) :=
  zip_with (zip_with (zip_with tadd)) a b.

Definition per_token (f : token -> token) (x : list (list token)) : list (list token) :=
  (fun s : list token => f <$> s) <$> x.

(** [Block.forward(x)], [y is None]. *)
Definition Block_forward_self (x : list (list token)) : list (list token) :=
  let x := tensor_add x (drop_path P (Attention_forward_self (per_token (norm1 P) x))) in
  let x := tensor_add x (drop_path P (per_token (mlp P) (per_token (norm2 P) x))) in
  x.

(** [Block.forward(x, y)] *)
Definition Block_forward_joint (x y : list (list token))
  : result (list (list token) * list (list token)) :=
  let new_x := per_token (norm1 P) x in
  let new_y := per_token (norm1 P) y in
  do (new_x, new_y) <- Attention_forward_joint new_x new_y;
  let new_x := tensor_add x (drop_path P new_x) in
  let new_y := tensor_add y (drop_path P new_y) in
  let new_x := tensor_add new_x (drop_path P (per_token (mlp P) (per_token (norm2 P) new_x))) in
  let new_y := tensor_add new_y (drop_path P (per_token (mlp P) (per_token (norm2 P) new_y))) in
  Ok (new_x, new_y).
End Layers.

(** A block over the integers for examples: one head, three features, the
    projection repeats the token three times, [softmax] is replaced by the
    identity. *)
Definition example_block : block_params (T := Z) := {|
  num_heads := 1; dim := 3; scale := 2;
  qkv := fun t => t ++ ((fun v => v + 1) <$> t) ++ ((fun v => 2 * v) <$> t);
  attn_drop := fun a => a;
  proj := fun t => (fun v => v - 1) <$> t;
  proj_drop := fun t => t;
  norm1 := fun t => (fun v => v - hd 0 t) <$> t;
  norm2 := fun t => (fun v => v + 1) <$> t;
  mlp := fun t => (fun v => 3 * v) <$> t;
  drop_path := fun x => x
|}.

End Transformer.

(** ** TransformerEncoder and TransformerDecoder: stacks of blocks *)

Module TransformerStack.
Import Transformer.

Section Stack.
Context {T : Type}.
Variables (tzero : T) (tadd tmul : T -> T -> T).
Variable softmax : list T -> list T.

(** [TransformerEncoder.forward(x, pos)], [x_mask is None]:
    [for block in self.blocks: x = block(x + pos)]. *)
Fixpoint TransformerEncoder_forward_self (blocks : list (block_params (T := T)))
    (x pos : list (list token)) : list (list token) :=
  match blocks with
  | [] => x
  | P :: rest =>
      TransformerEncoder_forward_self rest
        (Block_forward_self tzero tadd tmul softmax P (tensor_add tadd x pos)) pos
  end.

(** [TransformerEncoder.forward(x, pos, x_mask, pos_mask)]:
    [for block in self.blocks: x, x_mask = block(x + pos, x_mask + pos_mask)]. *)
Fixpoint TransformerEncoder_forward_joint (blocks : list (block_params (T := T)))
    (x pos x_mask pos_mask : list (list token))
  : result (list (list token) * list (list token)) :=
  match blocks with
  | [] => Ok (x, x_mask)
  | P :: rest =>
      do (x', x_mask') <- Block_forward_joint tzero tadd tmul softmax P
                            (tensor_add tadd x pos) (tensor_add tadd x_mask pos_mask);
      TransformerEncoder_forward_joint rest x' pos x_mask' pos_mask
  end.

(** [for block in self.blocks: x = block(x)] of the decoder without
    positions.  [SelfBlock] and [SelfAttention] repeat the code of the
    [y is None] branches of [Block] and [Attention]. *)
Fixpoint decoder_blocks (blocks : list (block_params (T := T))) (x : list (list token))
  : list (list token) :=
  match blocks with
  | [] => x
  | P :: rest => decoder_blocks rest (Block_forward_self tzero tadd tmul softmax P x)
  end.

(** [TransformerDecoder.forward(x, pos, return_token_num)]; [norm] is the
    final LayerNorm, [self.head] is the identity. *)
Definition TransformerDecoder_forward (blocks : list (block_params (T := T)))
    (norm : token -> token) (x : list (list token)) (pos : option (list (list token)))
    (return_token_num : nat) : list (list token) :=
  match pos with
  | None =>
      (* pred pos decoder *)
      per_token norm (decoder_blocks blocks x)
  | Some pos =>
      let x := TransformerEncoder_forward_self blocks x pos in
      (* only return the mask tokens predict pixel *)
      per_token norm ((fun s : list token => py_slice_last return_token_num s) <$> x)
  end.
(** [for block in self.blocks: x, _ = block(x, y)] of the cross decoder:
    the second result of every block is dropped and [y] is passed on
    unchanged. *)
Fixpoint cross_blocks (blocks : list (block_params (T := T))) (x y : list (list token))
  : result (list (list token)) :=
  match blocks with
  | [] => Ok x
  | P :: rest =>
      do (x', y') <- Block_forward_joint tzero tadd tmul softmax P x y;
      cross_blocks rest x' y
  end.

(** [for block in self.blocks: x, _ = block(x + pos, y)] *)
Fixpoint cross_blocks_pos (blocks : list (block_params (T := T)))
    (x pos y : list (list token)) : result (list (list token)) :=
  match blocks with
  | [] => Ok x
  | P :: rest =>
      do (x', y') <- Block_forward_joint tzero tadd tmul softmax P (tensor_add tadd x pos) y;
      cross_blocks_pos rest x' pos y
  end.

(** [TransformerCrossDecoder.forward(x, y, pos, return_token_num)] *)
Definition TransformerCrossDecoder_forward (blocks : list (block_params (T := T)))
    (norm : token -> token) (x y : list (list token)) (pos : option (list (list token)))
    (return_token_num : nat) : result (list (list token)) :=
  match pos with
  | None =>
      do x <- cross_blocks blocks x y;
      Ok (per_token norm x)
  | Some pos =>
      do x <- cross_blocks_pos blocks x pos y;
      Ok (per_token norm ((fun s : list token => py_slice_last return_token_num s) <$> x))
  end.
End Stack.

(** DropPath (and the identity that replaces it at rate 0) returns a
    tensor with the batch size of its input. *)
Definition keeps_batch {T} (P : block_params (T := T)) : Prop :=
  forall t, length (drop_path P t) = length t.

(** The sequence length of every sample of a tensor (B, N, C). *)
Definition seq_lens {A} (x : list (list A)) : list nat := length <$> x.

(** DropPath returns a tensor with the batch size and the sequence lengths
    of its input. *)
Definition keeps_shape {T} (P : block_params (T := T)) : Prop :=
  forall t, seq_lens (drop_path P t) = seq_lens t.

End TransformerStack.

(** ** PCP_MAE.proj2img: the projection of a cloud to a pseudo-image *)

Module Projection.

(** A float that holds an integer, or NaN: the values of the index tensors
    of [proj2img].  NaN arises from the quotient 0 / 0 and then spreads
    through sums, minima and maxima; every comparison with NaN is false. *)
Inductive fnum : Type :=
  | Fin (z : Z)
  | NaN.

Definition fadd (a : fnum) (k : Z) : fnum :=
  match a with Fin z => Fin (z + k) | NaN => NaN end.

Definition fadd2 (a b : fnum) : fnum :=
  match a, b with Fin x, Fin y => Fin (x + y) | _, _ => NaN end.

Definition fmul (a : fnum) (k : Z) : fnum :=
  match a with Fin z => Fin (z * k) | NaN => NaN end.

Definition fmin2 (a b : fnum) : fnum :=
  match a, b with Fin x, Fin y => Fin (Z.min x y) | _, _ => NaN end.

Definition fmax2 (a b : fnum) : fnum :=
  match a, b with Fin x, Fin y => Fin (Z.max x y) | _, _ => NaN end.

(** [a < k], [a > k], [a >= k], [a <= k] *)
Definition flt (a : fnum) (k : Z) : bool :=
  match a with Fin z => z <? k | NaN => false end.
Definition fgt (a : fnum) (k : Z) : bool :=
  match a with Fin z => k <? z | NaN => false end.
Definition fge (a : fnum) (k : Z) : bool :=
  match a with Fin z => k <=? z | NaN => false end.
Definition fle (a : fnum) (k : Z) : bool :=
  match a with Fin z => z <=? k | NaN => false end.

(** [floor(a / 2)] *)
Definition fhalf (a : fnum) : fnum :=
  match a with Fin z => Fin (z / 2) | NaN => NaN end.

(** [t.min()], [t.max()] of a tensor; an empty one raises. *)
Definition fmin_list (l : list fnum) : result fnum :=
  match l with [] => Err RuntimeError | a :: r => Ok (foldl fmin2 a r) end.
Definition fmax_list (l : list fnum) : result fnum :=
  match l with [] => Err RuntimeError | a :: r => Ok (foldl fmax2 a r) end.

(** [t.min(dim=1)[0]], [t.max(dim=1)[0]] of one coordinate of a cloud. *)
Definition zmin_list (l : list Z) : result Z :=
  match l with [] => Err RuntimeError | a :: r => Ok (foldl Z.min a r) end.
Definition zmax_list (l : list Z) : result Z :=
  match l with [] => Err RuntimeError | a :: r => Ok (foldl Z.max a r) end.

Definition b2z (b : bool) : Z := if b then 1 else 0.

Definition img_size : Z := 224.

(** [self.img_offset]: the 25 offsets of the 5 x 5 neighbourhood. *)
Definition img_offset : list (Z * Z) :=
  [(-2, -2); (-2, -1); (-2, 0); (-2, 1); (-2, 2);
   (-1, -2); (-1, -1); (-1, 0); (-1, 1); (-1, 2);
   (0, -2); (0, -1); (0, 0); (0, 1); (0, 2);
   (1, -2); (1, -1); (1, 0); (1, 1); (1, 2);
   (2, -2); (2, -1); (2, 0); (2, 1); (2, 2)].

(** [torch.floor(a / grid_size)] for an integer-valued [a]: NaN for the
    quotient by a zero cell size.  (The numerator is a distance to the
    minimum of the cloud, and the cell size is zero only when the cloud has
    no extent in x and y, so the quotient by zero is 0 / 0.) *)
Definition quantize (grid_size : Q) (a : Z) : fnum :=
  if Qeq_bool grid_size 0 then NaN
  else Fin (Qfloor (inject_Z a / grid_size)%Q).

(** What [proj2img] computes for one cloud of the batch. *)
Record cloud_proj : Type := {
  cp_pc_min : Z * Z;
  cp_grid_size : Q;
  cp_offset : Z * Z;
  cp_index : list (fnum * fnum);
  cp_f_dense : list (list Z)
}.

Section Proj.
(** The integer [.int()] and [.long()] give for NaN: left open. *)
Variable nan_int : Z.

Definition to_int (a : fnum) : Z :=
  match a with Fin z => z | NaN => nan_int end.

(** One step of the clipping: plus one below 0, minus one above 223, both
    tests on the value before the step. *)
Definition clip (v : fnum) : fnum :=
  let idx_zero := flt v 0 in
  let idx_obj := fgt v 223 in
  fadd (fadd v (b2z idx_zero)) (- b2z idx_obj).

(** [(idx_xy.unsqueeze(2) + img_offset).view(B, N * 25, 2) + 1]: every
    index with its 25 neighbours, point after point. *)
Definition densify (idx_xy : list (fnum * fnum)) : list (fnum * fnum) :=
  concat ((fun i : fnum * fnum =>
             (fun o : Z * Z => (fadd (fadd i.1 o.1) 1, fadd (fadd i.2 o.2) 1)) <$> img_offset)
          <$> idx_xy).

(** The body of [proj2img] for one cloud, down to the clipped indices. *)
Definition project_cloud (cloud : list point) : result cloud_proj :=
  (* calculate range *)
  do xmax <- zmax_list (px <$> cloud);
  do ymax <- zmax_list (py <$> cloud);
  do xmin <- zmin_list (px <$> cloud);
  do ymin <- zmin_list (py <$> cloud);
  let grid_size :=
    (inject_Z (Z.max (xmax - xmin) (ymax - ymin)) / inject_Z (img_size - 3))%Q in
  (* Point Index *)
  let idx_xy := (fun p => (quantize grid_size (px p - xmin),
                           quantize grid_size (py p - ymin))) <$> cloud in
  (* Point Densify *)
  let idx_xy_dense := densify idx_xy in
  (* Object to Image Center *)
  do xhi <- fmax_list (fst <$> idx_xy_dense);
  do yhi <- fmax_list (snd <$> idx_xy_dense);
  do xlo <- fmin_list (fst <$> idx_xy_dense);
  do ylo <- fmin_list (snd <$> idx_xy_dense);
  let center_x := to_int (fhalf (fadd2 xhi xlo)) in
  let center_y := to_int (fhalf (fadd2 yhi ylo)) in
  let offset_x := img_size / 2 - center_x - 1 in
  let offset_y := img_size / 2 - center_y - 1 in
  let idx_xy_dense_offset :=
    (fun i : fnum * fnum => (fadd i.1 offset_x, fadd i.2 offset_y)) <$> idx_xy_dense in
  (* Expand Point Features *)
  let f_dense := concat ((fun p => replicate 25 (replicate 3 (pz p))) <$> cloud) in
  let idx_xy_dense_offset :=
    (fun i : fnum * fnum => (clip i.1, clip i.2)) <$> idx_xy_dense_offset in
  Ok {| cp_pc_min := (xmin, ymin); cp_grid_size := grid_size;
        cp_offset := (offset_x, offset_y);
        cp_index := idx_xy_dense_offset; cp_f_dense := f_dense |}.

(** [idx[:, :, 0] * img_size + idx[:, :, 1]], then [.long()]. *)
Definition new_idx (i : fnum * fnum) : Z := to_int (fadd2 (fmul i.1 img_size) i.2).

(** [scatter(src, index, dim=1, reduce='sum')] for one sample, into
    [dim_size] rows of zeros: row [index[k]] receives [src[k]]. *)
Definition scatter_add_row (out : list (list Z)) (k : Z * list Z) : list (list Z) :=
  alter (zip_with Z.add k.2) (Z.to_nat k.1) out.

Definition scatter_sum (dim_size : nat) (src : list (list Z)) (index : list Z)
  : list (list Z) :=
  foldl scatter_add_row (replicate dim_size (replicate 3 0)) (zip index src).

(** The zero padding up to [img_size * img_size] rows and the reshape to
    (img_size, img_size, 3). *)
Definition pad_reshape (out : list (list Z)) : result (list (list (list Z))) :=
  let cells := Z.to_nat (img_size * img_size) in
  let out := if (length out <? cells)%nat
             then out ++ replicate (cells - length out) (replicate 3 0)
             else out in
  if decide (length out = cells)
  then Ok (chunks (Z.to_nat img_size) (Z.to_nat img_size) out)
  else Err RuntimeError.

(** The assertion on the clipped indices of the whole batch. *)
Definition bounds_assertion (projs : list cloud_proj) : result unit :=
  let all := concat ((fun c => concat ((fun i : fnum * fnum => [i.1; i.2]) <$> cp_index c))
                       <$> projs) in
  do lo <- fmin_list all;
  do hi <- fmax_list all;
  if fge lo 0 && fle hi (img_size - 1) then Ok tt else Err AssertionError.

(** [proj2img] down to [res], the raster (B, 224, 224, 3) before the
    sigmoid, with what was computed on the way. *)
Definition proj2img_res (pc : list (list point))
  : result (list (list (list (list Z))) * list cloud_proj) :=
  do projs <- res_mapM project_cloud pc;
  do _ <- bounds_assertion projs;
  (* change idx to 1-dim *)
  let new_idx_xy_dense := (fun c => new_idx <$> cp_index c) <$> projs in
  (* Get Image Features *)
  let dim_size := Z.to_nat (1 + foldr Z.max 0 (concat new_idx_xy_dense)) in
  let out := zip_with (fun c idx => scatter_sum dim_size (cp_f_dense c) idx)
                      projs new_idx_xy_dense in
  (* need to pad *)
  do res <- res_mapM pad_reshape out;
  Ok (res, projs).

Context {V : Type}.
(** [nn.Sigmoid()] on a pixel, and [sub(mean).div(std)] with the mean and
    the standard deviation of channel [c]. *)
Variable sigmoid : Z -> V.
Variable normalize : nat -> V -> V.

(** [res.permute(0, 3, 1, 2)] for one sample: channel first. *)
Definition permute_chw (res : list (list (list Z))) : list (list (list Z)) :=
  (fun c => (fun row : list (list Z) => (fun pixel => nth c pixel 0) <$> row) <$> res)
    <$> seq 0 3.

(** [proj2img(pc)]: [img_norm], [pc_min], [grid_size], [(offset_x, offset_y)]. *)
Definition proj2img (pc : list (list point))
  : result (list (list (list (list V))) * list (Z * Z) * list Q * list (Z * Z)) :=
  do (res, projs) <- proj2img_res pc;
  let img := permute_chw <$> res in
  let img_norm :=
    (fun sample : list (list (list Z)) =>
       imap (fun c (plane : list (list Z)) =>
               (fun row : list Z => (fun v => normalize c (sigmoid v)) <$> row) <$> plane)
            sample) <$> img in
  Ok (img_norm, cp_pc_min <$> projs, cp_grid_size <$> projs, cp_offset <$> projs).
End Proj.

(** The extent of a cloud in x and y, of which the cell size is the 221st
    part. *)
Definition xy_extent (cloud : list point) : result Z :=
  do xmax <- zmax_list (px <$> cloud);
  do ymax <- zmax_list (py <$> cloud);
  do xmin <- zmin_list (px <$> cloud);
  do ymin <- zmin_list (py <$> cloud);
  Ok (Z.max (xmax - xmin) (ymax - ymin)).

(** An index that is a number between two bounds. *)
Definition fin_in (lo hi : Z) (v : fnum) : Prop :=
  exists z, v = Fin z /\ lo <= z <= hi.

(** What [project_cloud] gives on a cloud with extent: every clipped index
    is a pixel position, and every point contributes 25 of them, each with
    the point's z in the three channels. *)
Definition good_proj (nan_int : Z) (cloud : list point) (c : cloud_proj) : Prop :=
  project_cloud nan_int cloud = Ok c /\
  Forall (fun i => fin_in 0 223 i.1 /\ fin_in 0 223 i.2) (cp_index c) /\
  length (cp_index c) = (25 * length cloud)%nat /\
  cp_f_dense c = concat ((fun p => replicate 25 (replicate 3 (pz p))) <$> cloud) /\
  cloud <> [].

Global Instance fnum_eq_dec : EqDecision fnum.
Proof. solve_decision. Defined.

(** The sum of the intensities of the densified points whose clipped index
    is the cell (i, j); 0 when there is none. *)
Definition cell_sum (index : list (fnum * fnum)) (f_dense : list (list Z)) (i j : Z) : Z :=
  foldr (fun (k : (fnum * fnum) * list Z) s =>
           if decide (k.1 = (Fin i, Fin j)) then nth 0 k.2 0 + s else s)
        0 (zip index f_dense).

(** The same sum by the flat row index that [scatter] receives. *)
Definition flat_sum (entries : list (Z * list Z)) (row : Z) : Z :=
  foldr (fun (k : Z * list Z) s => if decide (k.1 = row) then nth 0 k.2 0 + s else s)
        0 entries.

(** A raster of one sample whose cell (i, j) holds [S i j] in each of the
    three channels. *)
Definition sample_ok (S : nat -> nat -> Z) (r : list (list (list Z))) : Prop :=
  length r = 224%nat /\
  forall i j, (i < 224)%nat -> (j < 224)%nat ->
    exists row, r !! i = Some row /\ length row = 224%nat /\
                row !! j = Some (replicate 3 (S i j)).

(** The raster with [S i j] in the three channels of the cell (i, j). *)
Definition raster_of (S : nat -> nat -> Z) : list (list (list Z)) :=
  (fun i => (fun j => replicate 3 (S i j)) <$> seq 0 224) <$> seq 0 224.

(** [t.sum()] of a list of numbers, and the sum of one channel over all
    the cells of a raster (224, 224, 3). *)
Definition zsum (l : list Z) : Z := foldr Z.add 0 l.

Definition raster_total (ch : nat) (r : list (list (list Z))) : Z :=
  zsum ((fun row : list (list Z) => zsum ((fun pixel => nth ch pixel 0) <$> row)) <$> r).

(** A cloud moved by (dx, dy) in the plane of the projection, and a cloud
    with x and y scaled by [k]. *)
Definition translate_xy (dx dy : Z) (cloud : list point) : list point :=
  (fun p => (px p + dx, py p + dy, pz p)) <$> cloud.

Definition scale_xy (k : Z) (cloud : list point) : list point :=
  (fun p => (k * px p, k * py p, pz p)) <$> cloud.

(** The projection of a cloud with its minimum moved by (dx, dy). *)
Definition move_min (dx dy : Z) (c : cloud_proj) : cloud_proj :=
  {| cp_pc_min := ((cp_pc_min c).1 + dx, (cp_pc_min c).2 + dy);
     cp_grid_size := cp_grid_size c;
     cp_offset := cp_offset c;
     cp_index := cp_index c;
     cp_f_dense := cp_f_dense c |}.

(** The projection of a cloud with its minimum and its cell size
    multiplied by [k]. *)
Definition scale_proj (k : Z) (c : cloud_proj) : cloud_proj :=
  {| cp_pc_min := (k * (cp_pc_min c).1, k * (cp_pc_min c).2);
     cp_grid_size := (inject_Z k * cp_grid_size c)%Q;
     cp_offset := cp_offset c;
     cp_index := cp_index c;
     cp_f_dense := cp_f_dense c |}.

(** [t[a, b, c, d]] *)
Definition at4 {A} (t : list (list (list (list A)))) (a b c d : nat) : option A :=
  match t !! a with
  | Some x => match x !! b with
              | Some y => match y !! c with
                          | Some z => z !! d
                          | None => None
                          end
              | None => None
              end
  | None => None
  end.

Definition has_shape4 {A} (a b c d : nat) (t : list (list (list (list A)))) : Prop :=
  length t = a /\
  Forall (fun x => length x = b /\
            Forall (fun y => length y = c /\ Forall (fun z : list A => length z = d) y) x) t.

End Projection.

(** ** Shapes of the tensors along PCP_MAE.forward *)

Module Shapes.

(** A shape is the list of the sizes of the axes.  The functions below give
    the shape each tensor operation of the forward pass returns, or the
    exception it raises on shapes it does not accept.  Failures that depend
    on the values of the tensors (the assertion inside [proj2img]) are
    outside a shape. *)
Definition shape : Type := list nat.

Definition numel (sh : shape) : nat := foldr Nat.mul 1%nat sh.

(** [t.reshape(target)], [None] standing for [-1]: at most one axis is
    inferred, the known axes must multiply to a positive divisor of the
    number of elements (torch refuses to infer an axis next to a zero one). *)
Definition known_size (target : list (option nat)) : nat :=
  foldr (fun d acc => match d with Some v => (v * acc)%nat | None => acc end) 1%nat target.

Definition reshape (sh : shape) (target : list (option nat)) : result shape :=
  let n := numel sh in
  let known := known_size target in
  match length (filter (fun d => d = None) target) with
  | O => if (n =? known)%nat then Ok (default O <$> target) else Err RuntimeError
  | S O =>
      if (0 <? known)%nat && (n mod known =? 0)%nat
      then Ok (default (n / known)%nat <$> target)
      else Err RuntimeError
  | _ => Err RuntimeError
  end.

(** Number of true entries of a whole mask. *)
Definition total_true (mask : list (list bool)) : nat :=
  sum_list (Mask.count_true <$> mask).

(** [~mask] *)
Definition mask_not (mask : list (list bool)) : list (list bool) :=
  (fun row : list bool => negb <$> row) <$> mask.

(** [t[mask]] for a boolean mask over the first two axes of [t]: one row
    per true entry.  The mask must have the shape of those two axes. *)
Definition mask_index (sh : shape) (mask : list (list bool)) : result shape :=
  match sh with
  | b :: g :: rest =>
      if decide (length mask = b /\ Forall (fun row => length row = g) mask)
      then Ok (total_true mask :: rest)
      else Err IndexError
  | _ => Err IndexError
  end.

(** Broadcasting of two shapes, aligned at the last axis. *)
Fixpoint broadcast_rev (a b : shape) : result shape :=
  match a, b with
  | [], _ => Ok b
  | _, [] => Ok a
  | x :: a', y :: b' =>
      do r <- broadcast_rev a' b';
      if decide (x = y) then Ok (x :: r)
      else if decide (x = 1%nat) then Ok (y :: r)
      else if decide (y = 1%nat) then Ok (x :: r)
      else Err RuntimeError
  end.

(** [a + b], [a * b] *)
Definition broadcast (a b : shape) : result shape :=
  do r <- broadcast_rev (reverse a) (reverse b); Ok (reverse r).

(** [torch.cat([a, b], dim=1)] on tensors of three axes. *)
Definition cat1 (a b : shape) : result shape :=
  match a, b with
  | [b1; n1; c1], [b2; n2; c2] =>
      if decide (b1 = b2 /\ c1 = c2) then Ok [b1; (n1 + n2)%nat; c1] else Err RuntimeError
  | _, _ => Err RuntimeError
  end.

(** [p.expand(B, N, C)] of a parameter of shape (1, 1, C). *)
Definition expand_token (B N C : nat) : shape := [B; N; C].

(** [nn.Linear(cin, cout)], [nn.LayerNorm(dim)]: on the last axis. *)
Definition last_axis (cin cout : nat) (sh : shape) : result shape :=
  match reverse sh with
  | c :: r => if decide (c = cin) then Ok (reverse (cout :: r)) else Err RuntimeError
  | [] => Err RuntimeError
  end.

(** [nn.Conv1d(cin, cout, 1)] on (B, cin, L). *)
Definition conv1d (cin cout : nat) (sh : shape) : result shape :=
  match sh with
  | [b; c; l] => if decide (c = cin) then Ok [b; cout; l] else Err RuntimeError
  | _ => Err RuntimeError
  end.

(** [t.transpose(1, 2)] *)
Definition transpose12 (sh : shape) : result shape :=
  match sh with
  | a :: b :: c :: rest => Ok (a :: c :: b :: rest)
  | _ => Err IndexError
  end.

(** [x[:, -k:]] *)
Definition slice_last1 (k : nat) (sh : shape) : result shape :=
  match sh with
  | b :: n :: rest => Ok (b :: length (py_slice_last k (replicate n tt)) :: rest)
  | _ => Err IndexError
  end.

(** [Block.forward] and [SelfBlock.forward] keep the shape of a (B, N, dim)
    sequence: the residual sums add tensors of the shape of [x]. *)
Definition block (dim : nat) (x : shape) : result shape :=
  match x with
  | [b; n; c] => if decide (c = dim) then Ok x else Err RuntimeError
  | _ => Err RuntimeError
  end.

(** [for block in self.blocks: x = block(x + pos)] *)
Fixpoint self_blocks (depth dim : nat) (x pos : shape) : result shape :=
  match depth with
  | O => Ok x
  | S d => do xp <- broadcast x pos; do x' <- block dim xp; self_blocks d dim x' pos
  end.

(** [for block in self.blocks: x, x_mask = block(x + pos, x_mask + pos_mask)] *)
Fixpoint joint_blocks (depth dim : nat) (x pos x_mask pos_mask : shape)
  : result (shape * shape) :=
  match depth with
  | O => Ok (x, x_mask)
  | S d =>
      do xp <- broadcast x pos;
      do yp <- broadcast x_mask pos_mask;
      do x' <- block dim xp;
      do y' <- block dim yp;
      joint_blocks d dim x' pos y' pos_mask
  end.

(** [TransformerDecoder.forward(x, pos, return_token_num)], [pos] given. *)
Definition TransformerDecoder_forward (depth dim : nat) (x pos : shape)
    (return_token_num : nat) : result shape :=
  do x <- self_blocks depth dim x pos;
  do x <- slice_last1 return_token_num x;
  last_axis dim dim x.

(** [Encoder.forward]: (B, G, n, 3) to (B, G, encoder_channel); the max
    over the points of a group needs n > 0. *)
Definition Encoder_forward (encoder_channel : nat) (sh : shape) : result shape :=
  match sh with
  | [bs; g; n; 3%nat] =>
      if decide (n = 0%nat) then Err RuntimeError else Ok [bs; g; encoder_channel]
  | _ => Err RuntimeError
  end.

(** [proj2img]: (B, N, 3) to (B, 3, 224, 224); the max over the points
    needs N > 0. *)
Definition proj2img_shape (pc : shape) : result shape :=
  match pc with
  | [b; n; 3%nat] =>
      if decide (n = 0%nat) then Err RuntimeError else Ok [b; 3%nat; 224%nat; 224%nat]
  | _ => Err RuntimeError
  end.

Record config : Type := {
  group_size : nat;
  num_group : nat;
  trans_dim : nat;
  encoder_dims : nat;
  depth : nat;
  decoder_depth : nat;
  mask_ratio : Q;
  mask_type : string
}.

(** The shapes [PCP_MAE.forward] passes through, as the claims name them. *)
Record forward_shapes : Type := {
  visible_tokens : nat;
  masked_tokens : nat;
  x_rec_shape : shape;
  rebuild_points_shape : shape;
  gt_points_shape : shape
}.

Section Forward.
Context {RNG : Type}.
Variable randint : RNG -> Z -> Z -> Z * RNG.
Variable shuffle : RNG -> list Z -> list Z * RNG.
Variable argsort : list Z -> list nat.
Variable cfg : config.

(** [Group.forward] on (B, N, 3): the two assertions hold by the shape of
    the indices [knn_point] returns, which takes [group_size] of the N
    points. [center] is the tensor [misc.fps] returned. *)
Definition Group_forward_shape (pts : shape) (center : list (list point))
  : result (shape * shape) :=
  match pts with
  | [b; n; 3%nat] =>
      if decide (group_size cfg <= n)%nat
      then
        if decide (length center = b /\ Forall (fun c => length c = num_group cfg) center)
        then Ok ([b; num_group cfg; group_size cfg; 3%nat], [b; num_group cfg; 3%nat])
        else Err RuntimeError
      else Err RuntimeError
  | _ => Err RuntimeError
  end.

(** [MaskTransformer.forward(neighborhood, center)] *)
Definition MaskTransformer_forward (neighborhood center_shape : shape)
    (center : list (list point)) (s : RNG)
  : result (shape * shape * list (list bool) * RNG) :=
  do (bool_masked_pos, s') <-
     Mask.generate_mask randint shuffle argsort (mask_ratio cfg) (mask_type cfg) center false s;
  do group_input_tokens <- Encoder_forward (encoder_dims cfg) neighborhood;
  match group_input_tokens with
  | [batch_size; seq_len; C] =>
      do t <- mask_index group_input_tokens (mask_not bool_masked_pos);
      do x_vis <- reshape t [Some batch_size; None; Some C];
      do t <- mask_index group_input_tokens bool_masked_pos;
      do x_mask <- reshape t [Some batch_size; None; Some C];
      do t <- mask_index center_shape (mask_not bool_masked_pos);
      do vis_center <- reshape t [Some batch_size; None; Some 3%nat];
      (* get_pos_embed(trans_dim, vis_center) is (B, V, trans_dim) *)
      do pos <- last_axis 3 (trans_dim cfg) vis_center;
      do pos <- last_axis (trans_dim cfg) (trans_dim cfg) pos;
      let M := nth 1 x_mask O in
      let mask_pos_token := expand_token batch_size M (trans_dim cfg) in
      do (x_vis, x_mask) <- joint_blocks (depth cfg) (trans_dim cfg) x_vis pos x_mask mask_pos_token;
      do x_vis <- last_axis (trans_dim cfg) (trans_dim cfg) x_vis;
      do x_mask <- last_axis (trans_dim cfg) (trans_dim cfg) x_mask;
      Ok (x_vis, x_mask, bool_masked_pos, s')
  | _ => Err RuntimeError
  end.

(** [PCP_MAE.forward(pts)], up to the two operands of the reconstruction
    loss. *)
Definition PCP_MAE_forward (pts : shape) (center : list (list point)) (s : RNG)
  : result forward_shapes :=
  do (neighborhood, center_shape) <- Group_forward_shape pts center;
  do r <- MaskTransformer_forward neighborhood center_shape center s;
  let '(x_vis, x_mask_without_pos, mask, _) := r in
  match x_vis with
  | [B; V; C] =>
      do t <- mask_index neighborhood mask;
      do mask_pts <- reshape t [Some B; None; Some 3%nat];
      do imgs_mask <- proj2img_shape mask_pts;
      do pot_rec <- last_axis (trans_dim cfg) 512 x_mask_without_pos;
      do t <- mask_index center_shape (mask_not mask);
      do cv <- reshape t [Some B; None; Some 3%nat];
      do pos_emd_vis <- last_axis 3 (trans_dim cfg) cv;
      do pos_emd_vis <- last_axis (trans_dim cfg) (trans_dim cfg) pos_emd_vis;
      do t <- mask_index center_shape mask;
      do cm <- reshape t [Some B; None; Some 3%nat];
      do pos_emd_mask <- last_axis 3 (trans_dim cfg) cm;
      do pos_emd_mask <- last_axis (trans_dim cfg) (trans_dim cfg) pos_emd_mask;
      let N := nth 1 pot_rec O in
      let mask_token := expand_token B N (trans_dim cfg) in
      do x_full <- cat1 x_vis mask_token;
      do pos_full <- cat1 pos_emd_vis pos_emd_mask;
      do x_rec <- TransformerDecoder_forward (decoder_depth cfg) (trans_dim cfg) x_full pos_full N;
      match x_rec with
      | [B; M; C] =>
          do t <- transpose12 x_rec;
          do t <- conv1d (trans_dim cfg) (3 * group_size cfg) t;
          do t <- transpose12 t;
          do rebuild_points <- reshape t [Some (B * M)%nat; None; Some 3%nat];
          do t <- mask_index neighborhood mask;
          do gt_points <- reshape t [Some (B * M)%nat; None; Some 3%nat];
          Ok {| visible_tokens := V; masked_tokens := nth 1 x_mask_without_pos O;
                x_rec_shape := x_rec;
                rebuild_points_shape := rebuild_points;
                gt_points_shape := gt_points |}
      | _ => Err RuntimeError
      end
  | _ => Err RuntimeError
  end.
End Forward.

End Shapes.

(** ** Boolean-mask indexing: the split into visible and masked tokens *)

Module Selection.

(** The entries of one sample at which the mask is true, in their order. *)
Definition select_row {A} (row : list A) (mrow : list bool) : list A :=
  fst <$> filter (fun p : A * bool => p.2 = true) (zip row mrow).

(** [t[mask]] for a boolean mask over the first two axes of [t]: the
    entries at which the mask is true, sample after sample; the mask must
    have the shape of those axes. *)
Definition mask_select {A} (t : list (list A)) (mask : list (list bool))
  : result (list A) :=
  if decide (Forall2 (fun (row : list A) (mrow : list bool) => length row = length mrow) t mask)
  then Ok (concat (zip_with select_row t mask))
  else Err IndexError.

(** [.reshape(B, -1, C)] of a tensor (n, C): the n entries cut into B rows
    of n / B, for [B > 0] that divides n. *)
Definition reshape_rows {A} (B : nat) (l : list A) : result (list (list A)) :=
  if (0 <? B)%nat && (length l mod B =? 0)%nat
  then Ok (chunks B (length l / B) l)
  else Err RuntimeError.

(** [t[~mask].reshape(batch_size, -1, C)] and
    [t[mask].reshape(batch_size, -1, C)], as [MaskTransformer.forward]
    computes [x_vis] and [x_mask] from the tokens, and [PCP_MAE.forward]
    the centers and the points of the visible and the masked groups. *)
Definition split_by_mask {A} (t : list (list A)) (mask : list (list bool))
  : result (list (list A) * list (list A)) :=
  let batch_size := length t in
  do v <- mask_select t (Shapes.mask_not mask);
  do x_vis <- reshape_rows batch_size v;
  do m <- mask_select t mask;
  do x_mask <- reshape_rows batch_size m;
  Ok (x_vis, x_mask).

End Selection.

(** ** MaskTransformer.forward on tensors *)

Module MaskedEncoder.
Import PointEncoder Transformer TransformerStack Selection.

Section Forward.
Context {T RNG : Type}.
Variables (tzero : T) (tadd tmul tmax : T -> T -> T).
Variable softmax : list T -> list T.
Variable randint : RNG -> Z -> Z -> Z * RNG.
Variable shuffle : RNG -> list Z -> list Z * RNG.
Variable argsort : list Z -> list nat.
Variable mask_ratio : Q.
Variable mask_type : string.
(** [self.encoder] and [self.blocks] *)
Variable first_conv : conv_block (T := T) point.
Variable second_conv : conv_block (T := T) (feat (T := T)).
Variable blocks : list (block_params (T := T)).
(** [get_pos_embed(self.trans_dim, centers)] of [models.pos], which is not
    part of this file; [self.pos_embed] and [self.norm], which act on one
    token; the parameter [self.mask_pos_token]. *)
Variable get_pos_embed : list (list point) -> list (list (token (T := T))).
Variable pos_embed : token (T := T) -> token (T := T).
Variable norm : token (T := T) -> token (T := T).
Variable mask_pos_token : token (T := T).

(** [MaskTransformer.forward] from the mask on. *)
Definition MaskTransformer_encode (bool_masked_pos : list (list bool))
    (neighborhood : list (list (list point))) (center : list (list point))
  : result (list (list token) * list (list token)) :=
  do group_input_tokens <- Encoder_forward tmax first_conv second_conv neighborhood;
  let batch_size := length group_input_tokens in
  do (x_vis, x_mask) <- split_by_mask group_input_tokens bool_masked_pos;
  (* add pos embedding *)
  (* mask pos center *)
  do t <- mask_select center (Shapes.mask_not bool_masked_pos);
  do vis_center <- reshape_rows batch_size t;
  let pos := per_token pos_embed (get_pos_embed vis_center) in
  (* transformer *)
  let M := Grouping.size1 x_mask in
  let mask_pos_token := replicate batch_size (replicate M mask_pos_token) in
  do (x_vis, x_mask) <- TransformerEncoder_forward_joint tzero tadd tmul softmax blocks
                          x_vis pos x_mask mask_pos_token;
  Ok (per_token norm x_vis, per_token norm x_mask).

(** [MaskTransformer.forward(neighborhood, center, noaug)] *)
Definition MaskTransformer_forward (neighborhood : list (list (list point)))
    (center : list (list point)) (noaug : bool) (s : RNG)
  : result (list (list token) * list (list token) * list (list bool) * RNG) :=
  (* generate mask *)
  do (bool_masked_pos, s') <-
     Mask.generate_mask randint shuffle argsort mask_ratio mask_type center noaug s;
  do (x_vis, x_mask) <- MaskTransformer_encode bool_masked_pos neighborhood center;
  Ok (x_vis, x_mask, bool_masked_pos, s').
End Forward.

End MaskedEncoder.

(** ** PointTransformer.load_model_from_ckpt: the renaming of the keys *)

Module Checkpoint.
Local Open Scope string_scope.

(** [k.replace("module.", "")]: every occurrence, found from left to
    right, is removed; [skip] counts the characters of an occurrence that
    are still to be dropped. *)
Fixpoint replace_from (skip : nat) (s : string) : string :=
  match s with
  | EmptyString => EmptyString
  | String c s' =>
      match skip with
      | S n => replace_from n s'
      | O =>
          if String.prefix "module." s
          then replace_from (String.length "module." - 1) s'
          else String c (replace_from 0 s')
      end
  end.

Definition replace_module (k : string) : string := replace_from 0 k.

(** [k[n:]] *)
Fixpoint str_drop (n : nat) (s : string) : string :=
  match n, s with
  | O, _ => s
  | S n', String _ s' => str_drop n' s'
  | S _, EmptyString => EmptyString
  end.

Global Instance string_eq_dec : EqDecision string := String.string_dec.

Section Dict.
(** The values of a checkpoint: tensors. *)
Context {V : Type}.

(** A Python dict: the items in insertion order, every key once. *)
Definition dict : Type := list (string * V).

(** [d[k]]; [None] is KeyError. *)
Fixpoint dict_get (k : string) (d : dict) : option V :=
  match d with
  | [] => None
  | (k', v) :: d' => if String.eqb k k' then Some v else dict_get k d'
  end.

(** [d[k] = v]: a key of the dict keeps its place, a new key goes last. *)
Fixpoint dict_set (k : string) (v : V) (d : dict) : dict :=
  match d with
  | [] => [(k, v)]
  | (k', v') :: d' =>
      if String.eqb k k' then (k, v) :: d' else (k', v') :: dict_set k v d'
  end.

(** [del d[k]]; [None] is KeyError. *)
Fixpoint dict_remove (k : string) (d : dict) : dict :=
  match d with
  | [] => []
  | (k', v) :: d' =>
      if String.eqb k k' then dict_remove k d' else (k', v) :: dict_remove k d'
  end.

Definition dict_del (k : string) (d : dict) : option dict :=
  match dict_get k d with
  | Some _ => Some (dict_remove k d)
  | None => None
  end.

(** [{k.replace("module.", ""): v for k, v in ckpt['base_model'].items()}] *)
Definition strip_module (items : list (string * V)) : dict :=
  foldl (fun d kv => dict_set (replace_module kv.1) kv.2 d) [] items.

(** The body of the loop over [list(base_ckpt.keys())]. *)
Definition rename_key (base_ckpt : dict) (k : string) : option dict :=
  if String.prefix "MAE_encoder" k then
    match dict_get k base_ckpt with
    | Some v => dict_del k (dict_set (str_drop (String.length "MAE_encoder.") k) v base_ckpt)
    | None => None
    end
  else if String.prefix "base_model" k then
    match dict_get k base_ckpt with
    | Some v => dict_del k (dict_set (str_drop (String.length "base_model.") k) v base_ckpt)
    | None => None
    end
  else Some base_ckpt.

Fixpoint rename_loop (base_ckpt : dict) (keys : list string) : option dict :=
  match keys with
  | [] => Some base_ckpt
  | k :: rest =>
      match rename_key base_ckpt k with
      | Some d => rename_loop d rest
      | None => None
      end
  end.

(** [load_model_from_ckpt] down to the dict given to [load_state_dict]. *)
Definition load_keys (items : list (string * V)) : option dict :=
  let base_ckpt := strip_module items in
  rename_loop base_ckpt (fst <$> base_ckpt).
End Dict.

(** The key under which the loop leaves the value of the key [k]. *)
Definition final_name (k : string) : string :=
  if String.prefix "MAE_encoder" k then str_drop (String.length "MAE_encoder.") k
  else if String.prefix "base_model" k then str_drop (String.length "base_model.") k
  else k.

(** The dict after the keys [P] of [base] have been visited by the loop
    and before the keys [R] are. *)
Definition visited {V} (base : dict (V := V)) (P R : list string) (d : dict (V := V)) : Prop :=
  (forall k, k ∈ P -> dict_get (final_name k) d = dict_get k base) /\
  (forall k, k ∈ R -> dict_get k d = dict_get k base) /\
  (forall key, is_Some (dict_get key d) -> key ∈ final_name <$> P \/ key ∈ R).

End Checkpoint.

(** ** PCP_MAE.forward with [vis] set: the shapes of the visualisation *)

Module Visualisation.
Import Shapes.

(** [t.unsqueeze(axis)] *)
Definition unsqueeze (axis : nat) (sh : shape) : shape :=
  take axis sh ++ [1%nat] ++ drop axis sh.

(** [torch.cat([a, b], dim=0)] *)
Definition cat0 (a b : shape) : result shape :=
  match a, b with
  | x :: ra, y :: rb => if decide (ra = rb) then Ok ((x + y)%nat :: ra) else Err RuntimeError
  | _, _ => Err RuntimeError
  end.

Section Forward.
Context {RNG : Type}.
Variable randint : RNG -> Z -> Z -> Z * RNG.
Variable shuffle : RNG -> list Z -> list Z * RNG.
Variable argsort : list Z -> list nat.
Variable cfg : config.

(** The branch [if vis:] of [PCP_MAE.forward]: [ret1], [ret2],
    [full_center]. *)
Definition vis_branch (neighborhood center : shape) (mask : list (list bool))
    (rebuild_points : shape) (B M : nat) : result (shape * shape * shape) :=
  do t <- mask_index neighborhood (mask_not mask);
  do vis_points <- reshape t [Some (B * (num_group cfg - M))%nat; None; Some 3%nat];
  do center_vis <- mask_index center (mask_not mask);
  do full_vis <- broadcast vis_points (unsqueeze 1 center_vis);
  do center_mask <- mask_index center mask;
  do full_rebuild <- broadcast rebuild_points (unsqueeze 1 center_mask);
  do full <- cat0 full_vis full_rebuild;
  do full_center <- cat0 center_mask center_vis;
  do t <- reshape full_vis [None; Some 3%nat];
  let ret2 := unsqueeze 0 t in
  do t <- reshape full [None; Some 3%nat];
  let ret1 := unsqueeze 0 t in
  Ok (ret1, ret2, full_center).

(** [PCP_MAE.forward(pts, vis=True)] *)
Definition PCP_MAE_forward_vis (pts : shape) (center : list (list point)) (s : RNG)
  : result (shape * shape * shape) :=
  do (neighborhood, center_shape) <- Group_forward_shape cfg pts center;
  do r <- MaskTransformer_forward randint shuffle argsort cfg neighborhood center_shape center s;
  let '(x_vis, x_mask_without_pos, mask, _) := r in
  match x_vis with
  | [B; V; C] =>
      do t <- mask_index neighborhood mask;
      do mask_pts <- reshape t [Some B; None; Some 3%nat];
      do imgs_mask <- proj2img_shape mask_pts;
      do pot_rec <- last_axis (trans_dim cfg) 512 x_mask_without_pos;
      do t <- mask_index center_shape (mask_not mask);
      do cv <- reshape t [Some B; None; Some 3%nat];
      do pos_emd_vis <- last_axis 3 (trans_dim cfg) cv;
      do pos_emd_vis <- last_axis (trans_dim cfg) (trans_dim cfg) pos_emd_vis;
      do t <- mask_index center_shape mask;
      do cm <- reshape t [Some B; None; Some 3%nat];
      do pos_emd_mask <- last_axis 3 (trans_dim cfg) cm;
      do pos_emd_mask <- last_axis (trans_dim cfg) (trans_dim cfg) pos_emd_mask;
      let N := nth 1 pot_rec O in
      let mask_token := expand_token B N (trans_dim cfg) in
      do x_full <- cat1 x_vis mask_token;
      do pos_full <- cat1 pos_emd_vis pos_emd_mask;
      do x_rec <- TransformerDecoder_forward (decoder_depth cfg) (trans_dim cfg) x_full pos_full N;
      match x_rec with
      | [B; M; C] =>
          do t <- transpose12 x_rec;
          do t <- conv1d (trans_dim cfg) (3 * group_size cfg) t;
          do t <- transpose12 t;
          do rebuild_points <- reshape t [Some (B * M)%nat; None; Some 3%nat];
          do t <- mask_index neighborhood mask;
          do gt_points <- reshape t [Some (B * M)%nat; None; Some 3%nat];
          (* visualization *)
          vis_branch neighborhood center_shape mask rebuild_points B M
      | _ => Err RuntimeError
      end
  | _ => Err RuntimeError
  end.
End Forward.

End Visualisation.

(** ** A block seen from one token *)

Module TokenView.
Import Transformer TransformerStack.

Section View.
Context {T : Type}.
Variables (tzero : T) (tadd tmul : T -> T -> T).
Variable softmax : list T -> list T.

Section OneBlock.
Variable P : block_params (T := T).

(** The part of the projection [qkv] of a token that belongs to q, k or v
    ([which] = 0, 1, 2) and to head [h]. *)
Definition slice (which h : nat) (x : token (T := T)) : token :=
  take (head_dim P) (drop (which * dim P + h * head_dim P) (qkv P x)).

(** What head [h] returns for the token [x] of a sequence [X]: the values
    of the tokens of [X], weighted by the softmax of the scores of [x]
    against them. *)
Definition head_out (h : nat) (x : token (T := T)) (X : list (token (T := T))) : token :=
  weighted_sum tzero tadd tmul P
    (softmax ((fun xj => tmul (dot tzero tadd tmul (slice 0 h x) (slice 1 h xj)) (scale P))
                <$> X))
    (slice 2 h <$> X).

(** What the attention returns for the token [x] of [X]. *)
Definition attention_token (x : token (T := T)) (X : list (token (T := T))) : token :=
  proj_drop P (proj P (concat ((fun h => head_out h x X) <$> seq 0 (num_heads P)))).

(** What the block returns for the token [x] of [X]. *)
Definition block_token (x : token (T := T)) (X : list (token (T := T))) : token :=
  let a := zip_with tadd x (attention_token (norm1 P x) (norm1 P <$> X)) in
  zip_with tadd a (mlp P (norm2 P a)).

(** [Block.forward(x)] on one sample. *)
Definition block_sample (X : list (token (T := T))) : list token :=
  (fun x => block_token x X) <$> X.
End OneBlock.

(** [for block in self.blocks: x = block(x + pos)] on one sample. *)
Fixpoint encoder_sample (blocks : list (block_params (T := T)))
    (X Pos : list (token (T := T))) : list token :=
  match blocks with
  | [] => X
  | P :: rest => encoder_sample rest (block_sample P (zip_with (zip_with tadd) X Pos)) Pos
  end.

(** Dropout on the attention weights and DropPath are inactive: rate 0 or
    evaluation mode. *)
Definition inactive (P : block_params (T := T)) : Prop :=
  (forall a, attn_drop P a = a) /\ (forall t, drop_path P t = t).

(** The softmax divides every entry by a statistic of all the entries,
    which does not depend on their order. *)
Definition softmax_symmetric (stat : list T -> T -> T) : Prop :=
  (forall l, softmax l = stat l <$> l) /\
  (forall l l', l ≡ₚ l' -> stat l = stat l').
End View.

End TokenView.

(** ** PointTransformer.forward: the classifier *)

Module Classifier.
Import PointEncoder Transformer TransformerStack.

Section Forward.
Context {T : Type}.
Variables (tzero : T) (tadd tmul tmax : T -> T -> T).
Variable softmax : list T -> list T.
Variable fps : list (list point) -> nat -> list (list point).
Variable knn_point : nat -> list (list point) -> list (list point) -> list (list (list Z)).
Variables num_group group_size : nat.
(** [self.encoder] and [self.blocks] *)
Variable first_conv : conv_block (T := T) point.
Variable second_conv : conv_block (T := T) (feat (T := T)).
Variable blocks : list (block_params (T := T)).
(** [get_pos_embed(self.trans_dim, center)] of [models.pos], which is not
    part of this file; [self.pos_embed] and [self.norm], which act on one
    token; the parameters [self.cls_token] and [self.cls_pos]; and
    [self.cls_head_finetune], on the features of the whole batch. *)
Variable get_pos_embed : list (list point) -> list (list (token (T := T))).
Variable pos_embed : token (T := T) -> token (T := T).
Variable norm : token (T := T) -> token (T := T).
Variables cls_token cls_pos : token (T := T).
Variable cls_head_finetune : list (list T) -> list (list T).

(** [torch.cat((a, b), dim=1)]: the batch sizes and the widths of the
    tokens have to agree. *)
Definition cat_tokens (a b : list (list (token (T := T)))) : result (list (list token)) :=
  let tokens := concat (a ++ b) in
  if decide (length a = length b /\
             Forall (fun t : token => length t = length (hd [] tokens)) tokens)
  then Ok (zip_with app a b)
  else Err RuntimeError.

(** [torch.cat([x[:, 0], x[:, 1:].max(1)[0]], dim=-1)] for one sample:
    the first token, and the maximum over the others. *)
Definition cls_and_max (s : list (token (T := T))) : result (list T) :=
  match s with
  | [] => Err IndexError
  | c :: rest => do m <- max_pool tmax rest; Ok (c ++ m)
  end.

(** [PointTransformer.forward] from the groups on. *)
Definition PointTransformer_classify (neighborhood : list (list (list point)))
    (center : list (list point)) : result (list (list T)) :=
  do group_input_tokens <- Encoder_forward tmax first_conv second_conv neighborhood;
  let cls_tokens := replicate (length group_input_tokens) [cls_token] in
  let cls_pos := replicate (length group_input_tokens) [cls_pos] in
  let pos := per_token pos_embed (get_pos_embed center) in
  do x <- cat_tokens cls_tokens group_input_tokens;
  do pos <- cat_tokens cls_pos pos;
  (* transformer *)
  let x := TransformerEncoder_forward_self tzero tadd tmul softmax blocks x pos in
  let x := per_token norm x in
  do concat_f <- res_mapM cls_and_max x;
  let ret := cls_head_finetune concat_f in
  Ok ret.

(** [PointTransformer.forward(pts)] *)
Definition PointTransformer_forward (pts : list (list point)) : result (list (list T)) :=
  do (neighborhood, center) <- Grouping.Group_forward fps knn_point num_group group_size pts;
  PointTransformer_classify neighborhood center.
End Forward.

End Classifier.

(** ** Theorems *)

(** *** Loops that stop at the first exception *)

Module ResultFacts.

Lemma res_mapM_Forall2 {A B} (f : A -> result B) (l : list A) (l' : list B) :
  res_mapM f l = Ok l' <-> Forall2 (fun a b => f a = Ok b) l l'.
Proof.
  revert l'. induction l as [|a l IH]; intros l'; simpl.
  - split; [intros [= <-]; constructor|intros H; by inversion H].
  - split.
    + intros H. destruct (f a) as [b|] eqn:Hb; simpl in H; [|discriminate].
      destruct (res_mapM f l) as [bs|] eqn:Hbs; simpl in H; [|discriminate].
      injection H as <-. constructor; [done|]. by apply IH.
    + intros H. inversion H as [|? b ? bs Hb Hbs]; subst.
      apply IH in Hbs. by rewrite Hb, Hbs.
Qed.

Lemma res_mapM_ok {A B} (f : A -> result B) (l : list A) :
  Forall (fun a => is_Ok (f a)) l -> is_Ok (res_mapM f l).
Proof.
  induction 1 as [|a l [b Hb] _ [bs Hbs]]; [by exists []|].
  exists (b :: bs). simpl. by rewrite Hb, Hbs.
Qed.

End ResultFacts.

Module LossFacts.
Import Loss.
Local Open Scope string_scope.

Lemma build_loss_func_cases (s : string) :
  (s = "cdl1" /\ build_loss_func s = Ok ChamferDistanceL1) \/
  (s = "cdl2" /\ build_loss_func s = Ok ChamferDistanceL2) \/
  (s <> "cdl1" /\ s <> "cdl2" /\ build_loss_func s = Err NotImplementedError).
Proof.
  unfold build_loss_func.
  destruct (String.eqb_spec s "cdl1") as [->|H1]; [left; done|].
  destruct (String.eqb_spec s "cdl2") as [->|H2]; [right; left; done|].
  right; right; done.
Qed.



End LossFacts.

(** *** Masking policies *)

Module MaskFacts.
Import Mask.

Lemma py_int_ratio_bounds (r : Q) (G : nat) :
  (0 < r)%Q -> (r < 1)%Q ->
  0 <= py_int (r * inject_Z (Z.of_nat G)) <= Z.of_nat G.
Proof.
  destruct r as [n d]. unfold Qlt, py_int. simpl. intros Hn Hd.
  rewrite Z.mul_1_r in Hn. rewrite Z.mul_1_r in Hd.
  rewrite Pos.mul_1_r.
  assert (0 <= n * Z.of_nat G) by nia.
  rewrite Z.quot_div_nonneg by lia.
  split.
  - apply Z.div_pos; lia.
  - apply Z.div_le_upper_bound; nia.
Qed.

Lemma count_true_app (l1 l2 : list bool) :
  count_true (l1 ++ l2) = (count_true l1 + count_true l2)%nat.
Proof. unfold count_true. by rewrite list.filter_app, length_app. Qed.

Lemma count_true_perm (l1 l2 : list bool) :
  l1 ≡ₚ l2 -> count_true l1 = count_true l2.
Proof. intros H. unfold count_true. by rewrite H. Qed.

Lemma count_true_cons (b : bool) (l : list bool) :
  count_true (b :: l) = ((if b then 1 else 0) + count_true l)%nat.
Proof.
  unfold count_true. rewrite filter_cons. destruct b; case_decide; done.
Qed.

Lemma count_true_replicate_0 (n : nat) : count_true (to_bool <$> replicate n 0) = 0%nat.
Proof.
  induction n; [done|].
  change (count_true (to_bool 0 :: (to_bool <$> replicate n 0)) = 0%nat).
  by rewrite count_true_cons, IHn.
Qed.

Lemma count_true_replicate_1 (n : nat) : count_true (to_bool <$> replicate n 1) = n.
Proof.
  induction n; [done|].
  change (count_true (to_bool 1 :: (to_bool <$> replicate n 1)) = S n).
  by rewrite count_true_cons, IHn.
Qed.

Lemma count_true_insert (mask : list Z) : forall i : nat,
  mask !! i = Some 0 ->
  count_true (to_bool <$> <[i := 1]> mask) = S (count_true (to_bool <$> mask)).
Proof.
  induction mask as [|v mask IH]; intros [|i] Hi; simplify_eq/=.
  - by rewrite !count_true_cons.
  - rewrite !count_true_cons. fold (fmap (M := list) to_bool). rewrite IH by done. lia.
Qed.

Lemma index_put_one_spec (idxs : list nat) : forall mask : list Z,
  NoDup idxs ->
  (forall i, i ∈ idxs -> mask !! i = Some 0) ->
  exists mask',
    index_put_one mask idxs = Ok mask' /\
    length mask' = length mask /\
    count_true (to_bool <$> mask') = (count_true (to_bool <$> mask) + length idxs)%nat /\
    (forall i, mask !! i = Some 1 -> mask' !! i = Some 1) /\
    (forall i, i ∈ idxs -> mask' !! i = Some 1).
Proof.
  induction idxs as [|i rest IH]; intros mask Hnd Hz.
  - exists mask. simpl. repeat split; auto with lia. intros i Hi. by apply elem_of_nil in Hi.
  - apply list.NoDup_cons in Hnd as [Hni Hnd].
    assert (mask !! i = Some 0) as Hi by (apply Hz; left).
    assert (i < length mask)%nat as Hlt by (eapply lookup_lt_Some; eauto).
    simpl. rewrite decide_True by done.
    destruct (IH (<[i := 1]> mask) Hnd) as (mask' & He & Hl & Hc & Hk & Hs).
    { intros j Hj. rewrite list_lookup_insert_ne; [apply Hz; by right|].
      intros ->. done. }
    exists mask'. rewrite He. split; [done|]. split; [by rewrite Hl, length_insert|].
    split; [rewrite Hc, count_true_insert by done; simpl; lia|]. split.
    + intros j Hj. apply Hk. destruct (decide (i = j)) as [->|Hne]; [congruence|].
      by rewrite list_lookup_insert_ne.
    + intros j Hj. apply elem_of_cons in Hj as [->|Hj]; [|by apply Hs].
      apply Hk. by rewrite list_lookup_insert_eq.
Qed.

Lemma np_full_ok (v n : Z) : 0 <= n -> np_full v n = Ok (replicate (Z.to_nat n) v).
Proof. intros H. unfold np_full. destruct (Z.ltb_spec n 0); [lia|done]. Qed.

Lemma sqdist_zero (a p : point) : sqdist a p = 0 <-> p = a.
Proof.
  destruct a as [[ax ay] az], p as [[bx by'] bz]. unfold sqdist, px, py, pz. simpl.
  rewrite !Z.pow_2_r. split.
  - intros H.
    pose proof (Z.square_nonneg (ax - bx)). pose proof (Z.square_nonneg (ay - by')).
    pose proof (Z.square_nonneg (az - bz)).
    assert ((ax - bx) * (ax - bx) = 0) as Hx by lia.
    assert ((ay - by') * (ay - by') = 0) as Hy by lia.
    assert ((az - bz) * (az - bz) = 0) as Hz by lia.
    apply Z.mul_eq_0 in Hx, Hy, Hz. repeat f_equal; lia.
  - intros [= -> -> ->]. lia.
Qed.

Lemma sqdist_nonneg (a p : point) : 0 <= sqdist a p.
Proof.
  unfold sqdist. rewrite !Z.pow_2_r.
  pose proof (Z.square_nonneg (px a - px p)). pose proof (Z.square_nonneg (py a - py p)).
  pose proof (Z.square_nonneg (pz a - pz p)). lia.
Qed.

Lemma filter_zero_keys (a : point) (points : list point) :
  length (filter (fun k => k = 0) (sqdist a <$> points)) =
  length (filter (fun p => p = a) points).
Proof.
  induction points as [|p points IH]; [done|].
  rewrite fmap_cons, !filter_cons.
  destruct (decide (sqdist a p = 0)) as [H|H], (decide (p = a)) as [H'|H']; simpl;
    try (by rewrite IH).
  - by apply sqdist_zero in H.
  - by apply sqdist_zero in H'.
Qed.

Lemma nth_seq_id (keys : list Z) :
  (fun i => nth i keys 0) <$> seq 0 (length keys) = keys.
Proof.
  induction keys as [|k keys IH]; [done|].
  simpl. f_equal. rewrite <- seq_shift, <- list_fmap_compose. exact IH.
Qed.

Lemma StronglySorted_lookup_lt {A} (R : relation A) (l : list A) :
  StronglySorted R l ->
  forall i j x y, (i < j)%nat -> l !! i = Some x -> l !! j = Some y -> R x y.
Proof.
  induction 1 as [|a l Hs IH Ha]; intros i j x y Hij Hi Hj; [done|].
  destruct j as [|j]; [lia|]. destruct i as [|i]; simplify_eq/=.
  - eapply (proj1 (Forall_lookup _ _) Ha); eauto.
  - eapply (IH i j); eauto with lia.
Qed.

Section Policies.
Context {RNG : Type}.
Variable randint : RNG -> Z -> Z -> Z * RNG.
Variable shuffle : RNG -> list Z -> list Z * RNG.
Variable argsort : list Z -> list nat.
Variable mask_ratio : Q.
Hypothesis Hrng : rng_spec randint shuffle.
Hypothesis Hsort : argsort_spec argsort.

Lemma argsort_length keys : length (argsort keys) = length keys.
Proof. rewrite (argsort_perm _ Hsort keys). apply length_seq. Qed.

Lemma argsort_NoDup keys : NoDup (argsort keys).
Proof. rewrite (argsort_perm _ Hsort keys). apply NoDup_seq. Qed.

Lemma argsort_range keys i : i ∈ argsort keys <-> (i < length keys)%nat.
Proof. rewrite (argsort_perm _ Hsort keys), elem_of_seq. lia. Qed.

Lemma argsort_keys_perm keys : (fun i => nth i keys 0) <$> argsort keys ≡ₚ keys.
Proof. rewrite (argsort_perm _ Hsort keys). by rewrite nth_seq_id. Qed.

(** The position of an index with key 0 among non-negative keys is below
    the number of zero keys. *)
Lemma zero_key_position keys index :
  Forall (fun k => 0 <= k) keys ->
  keys !! index = Some 0 ->
  exists p, argsort keys !! p = Some index /\
            (p < length (filter (fun k : Z => k = 0%Z) keys))%nat.
Proof.
  intros Hnn Hk.
  assert (index ∈ argsort keys) as Hin
    by (apply argsort_range; eapply lookup_lt_Some; eauto).
  apply list_elem_of_lookup in Hin as [p Hp]. exists p. split; [done|].
  set (sk := (fun i => nth i keys 0) <$> argsort keys).
  assert (sk ≡ₚ keys) as Hperm by apply argsort_keys_perm.
  rewrite <- Hperm.
  assert (StronglySorted Z.le sk) as Hss.
  { apply Sorted_StronglySorted; [intros x y z; lia|]. apply (argsort_sorted _ Hsort). }
  assert (sk !! p = Some 0) as Hskp.
  { unfold sk. rewrite list_lookup_fmap, Hp. simpl. f_equal.
    by apply nth_lookup_Some with (d := 0) in Hk. }
  assert (Forall (fun k => 0 <= k) sk) as Hnn' by (by rewrite Hperm).
  assert (p < length sk)%nat as Hlt by (eapply lookup_lt_Some; eauto).
  assert (Forall (fun k => k = 0) (take (S p) sk)) as Hz.
  { apply Forall_lookup. intros q k Hq.
    apply lookup_take_Some in Hq as [Hq Hqp].
    assert (0 <= k) by (eapply (proj1 (Forall_lookup _ _) Hnn'); eauto).
    destruct (decide (q = p)) as [->|Hne]; [congruence|].
    assert (k <= 0); [|lia].
    eapply (StronglySorted_lookup_lt _ sk Hss q p); eauto with lia. }
  rewrite <- (take_drop (S p) sk), list.filter_app, length_app.
  assert (filter (fun k => k = 0) (take (S p) sk) = take (S p) sk) as ->.
  { clear -Hz. induction Hz; [done|]. rewrite filter_cons_True by done. by f_equal. }
  rewrite length_take. lia.
Qed.
Lemma rand_row_spec (G : nat) (k : Z) (s : RNG) :
  0 <= k <= Z.of_nat G ->
  exists row s',
    rand_row shuffle (Z.of_nat G) k s = Ok (row, s') /\
    length row = G /\ count_true row = Z.to_nat k.
Proof.
  intros Hk. unfold rand_row.
  rewrite !np_full_ok by lia. simpl.
  pose proof (shuffle_perm _ _ Hrng s
    (replicate (Z.to_nat (Z.of_nat G - k)) 0 ++ replicate (Z.to_nat k) 1)) as Hp.
  destruct (shuffle s _) as [mask s']. simpl in Hp.
  exists (to_bool <$> mask), s'. split; [done|]. split.
  - rewrite length_fmap, Hp, length_app, !length_replicate. lia.
  - rewrite (count_true_perm _ _ (fmap_Permutation to_bool _ _ Hp)).
    rewrite fmap_app, count_true_app, count_true_replicate_0, count_true_replicate_1.
    done.
Qed.

Lemma rand_loop_spec (B G : nat) (k : Z) : forall s : RNG,
  0 <= k <= Z.of_nat G ->
  exists m s',
    rand_loop shuffle B (Z.of_nat G) k s = Ok (m, s') /\
    length m = B /\
    Forall (fun row => length row = G /\ count_true row = Z.to_nat k) m.
Proof.
  induction B as [|B IH]; intros s Hk.
  - exists [], s. simpl. by repeat split.
  - destruct (rand_row_spec G k s Hk) as (row & s1 & Hr & Hl & Hc).
    destruct (IH s1 Hk) as (m & s2 & Hm & Hlm & Hall).
    exists (row :: m), s2. simpl. rewrite Hr. simpl. rewrite Hm. simpl.
    split; [done|]. split; [by rewrite Hlm|]. by constructor.
Qed.

Lemma block_row_spec (points : list point) (s : RNG) :
  points <> [] -> (0 < mask_ratio)%Q -> (mask_ratio < 1)%Q ->
  let G := length points in
  let index := Z.to_nat (randint s 0 (Z.of_nat G - 1)).1 in
  let k := Z.to_nat (py_int (mask_ratio * inject_Z (Z.of_nat G))) in
  exists anchor row,
    points !! index = Some anchor /\
    block_row randint argsort mask_ratio points s
      = Ok (row, (randint s 0 (Z.of_nat G - 1)).2) /\
    length row = G /\ count_true row = k /\
    forall i, i ∈ take k (argsort (sqdist anchor <$> points)) -> row !! i = Some true.
Proof.
  intros Hne H0 H1 G index k.
  assert (0 < G)%nat as HG by (subst G; destruct points; [done|simpl; lia]).
  pose proof (randint_range _ _ Hrng s 0 (Z.of_nat G - 1) ltac:(lia)) as Hr.
  unfold block_row. fold G.
  destruct (Z.ltb_spec (Z.of_nat G - 1) 0); [lia|].
  subst index. destruct (randint s 0 (Z.of_nat G - 1)) as [index s'].
  simpl in *. rewrite decide_True by lia.
  destruct (lookup_lt_is_Some_2 points (Z.to_nat index) ltac:(lia)) as [anchor Ha].
  exists anchor. rewrite Ha. simpl.
  set (idx := argsort (sqdist anchor <$> points)).
  assert (length idx = G) as Hli by (unfold idx; by rewrite argsort_length, length_fmap).
  rewrite Hli.
  pose proof (py_int_ratio_bounds mask_ratio G H0 H1) as Hk. fold k.
  unfold py_slice_to. destruct (Z.leb_spec 0 (py_int (mask_ratio * inject_Z (Z.of_nat G)))); [|lia].
  fold k.
  destruct (index_put_one_spec (take k idx) (replicate G 0))
    as (mask' & He & Hl & Hc & _ & Hs).
  { eapply sublist_NoDup; [apply argsort_NoDup|apply sublist_take]. }
  { intros i Hi. apply lookup_replicate_2.
    apply (subseteq_take k idx) in Hi. apply argsort_range in Hi.
    by rewrite length_fmap in Hi. }
  rewrite He. simpl. exists (to_bool <$> mask'). split; [done|]. split; [done|].
  split; [by rewrite length_fmap, Hl, length_replicate|]. split.
  - rewrite Hc, count_true_replicate_0, length_take. lia.
  - intros i Hi. rewrite list_lookup_fmap, (Hs i Hi). done.
Qed.
Lemma block_loop_spec (G : nat) (center : list (list point)) : forall s : RNG,
  G <> 0%nat -> (0 < mask_ratio)%Q -> (mask_ratio < 1)%Q ->
  Forall (fun points => length points = G) center ->
  exists m s',
    block_loop randint argsort mask_ratio center s = Ok (m, s') /\
    length m = length center /\
    Forall (fun row => length row = G /\
              count_true row = Z.to_nat (py_int (mask_ratio * inject_Z (Z.of_nat G)))) m.
Proof.
  intros s HG H0 H1 Hrect. revert s.
  induction Hrect as [|points center Hp Hrect IH]; intros s.
  - exists [], s. by repeat split.
  - assert (points <> []) as Hne by (intros ->; simpl in Hp; lia).
    destruct (block_row_spec points s Hne H0 H1) as (anchor & row & _ & Hr & Hl & Hc & _).
    destruct (IH (randint s 0 (Z.of_nat (length points) - 1)).2) as (m & s2 & Hm & Hlm & Hall).
    exists (row :: m), s2. simpl. rewrite Hr. simpl. rewrite Hm. simpl.
    split; [done|]. split; [by rewrite Hlm|]. constructor; [|done].
    rewrite Hp in Hl, Hc. done.
Qed.

(** Every row of a mask the block policy returns was produced by one run
    of the loop body, at the generator state reached by then. *)
Lemma block_loop_rows (center : list (list point)) : forall (s : RNG) m s',
  block_loop randint argsort mask_ratio center s = Ok (m, s') ->
  Forall2 (fun points row => exists s_b s_b',
             block_row randint argsort mask_ratio points s_b = Ok (row, s_b')) center m.
Proof.
  induction center as [|points center IH]; intros s m s' H; simpl in H.
  - injection H as <- <-. constructor.
  - destruct (block_row randint argsort mask_ratio points s) as [[row s1]|] eqn:Hr;
      simpl in H; [|discriminate].
    destruct (block_loop randint argsort mask_ratio center s1) as [[rows s2]|] eqn:Hl;
      simpl in H; [|discriminate].
    injection H as <- <-. constructor; [by exists s, s1|by eapply IH].
Qed.

Lemma zeros_mask_spec (B G : nat) :
  length (zeros_mask B G) = B /\
  Forall (fun row => length row = G /\ count_true row = 0%nat /\
                     Forall (fun b => b = false) row) (zeros_mask B G).
Proof.
  unfold zeros_mask. split; [by rewrite length_replicate|].
  apply Forall_replicate. split; [by rewrite length_fmap, length_replicate|].
  split; [apply count_true_replicate_0|].
  apply Forall_fmap, Forall_replicate. done.
Qed.

Lemma ratio_nonzero : (0 < mask_ratio)%Q -> Qeq_bool mask_ratio 0 = false.
Proof.
  intros H0. apply not_true_is_false. intros He. apply Qeq_bool_eq in He.
  rewrite He in H0. by apply Qlt_irrefl in H0.
Qed.

Lemma rand_policy_ok (center : list (list point)) (G : nat) (s : RNG) :
  Forall (fun points => length points = G) center ->
  (0 < mask_ratio)%Q -> (mask_ratio < 1)%Q ->
  exists m s',
    _mask_center_rand shuffle mask_ratio center false s = Ok (m, s') /\
    length m = length center /\
    Forall (fun row => length row = G /\
              count_true row = Z.to_nat (py_int (mask_ratio * inject_Z (Z.of_nat G)))) m.
Proof.
  intros Hrect H0 H1. unfold _mask_center_rand. simpl. rewrite (ratio_nonzero H0).
  destruct (decide (center = [])) as [->|Hne].
  { exists [], s. simpl. by repeat split. }
  assert (groups_of center = G) as ->.
  { destruct center as [|points center']; [done|]. unfold groups_of. simpl.
    by apply Forall_cons in Hrect as [? _]. }
  destruct (rand_loop_spec (batch_of center) G
              (py_int (mask_ratio * inject_Z (Z.of_nat G))) s) as (m & s' & Hm & Hl & Hall).
  { by apply py_int_ratio_bounds. }
  exists m, s'. split; [exact Hm|]. split; [exact Hl|exact Hall].
Qed.

Lemma block_policy_ok (center : list (list point)) (G : nat) (s : RNG) :
  Forall (fun points => length points = G) center ->
  (0 < mask_ratio)%Q -> (mask_ratio < 1)%Q -> center <> [] -> G <> 0%nat ->
  exists m s',
    _mask_center_block randint argsort mask_ratio center false s = Ok (m, s') /\
    length m = length center /\
    Forall (fun row => length row = G /\
              count_true row = Z.to_nat (py_int (mask_ratio * inject_Z (Z.of_nat G)))) m.
Proof.
  intros Hrect H0 H1 Hne HG. unfold _mask_center_block. simpl. rewrite (ratio_nonzero H0).
  destruct (block_loop_spec G center s HG H0 H1 Hrect) as (m & s' & Hm & Hl & Hall).
  exists m, s'. rewrite Hm. simpl.
  destruct m as [|row m]; [destruct center; [done|simpl in Hl; lia]|].
  split; [done|]. split; [exact Hl|exact Hall].
Qed.


End Policies.

(** *** The example generator and the stable argsort meet the contracts *)

Lemma counter_rng_spec : rng_spec counter_randint counter_shuffle.
Proof.
  split.
  - intros s a b Hab. unfold counter_randint. simpl.
    pose proof (Z.mod_pos_bound (Z.of_nat s) (b - a + 1) ltac:(lia)). lia.
  - intros s row. unfold counter_shuffle, rotate. simpl.
    rewrite Permutation_app_comm. by rewrite take_drop.
Qed.

Lemma insert_key_perm (k : Z) (i : nat) (l : list (Z * nat)) :
  insert_key k i l ≡ₚ (k, i) :: l.
Proof.
  induction l as [|[k' i'] l IH]; [done|]. simpl.
  destruct (k <=? k'); [done|]. rewrite IH. apply Permutation_swap.
Qed.

Lemma insert_key_sorted (k : Z) (i : nat) (l : list (Z * nat)) :
  Sorted Z.le (fst <$> l) -> Sorted Z.le (fst <$> insert_key k i l).
Proof.
  induction l as [|[k' i'] l IH]; intros Hs.
  - simpl. repeat constructor.
  - simpl. destruct (Z.leb_spec k k') as [Hle|Hlt].
    + rewrite fmap_cons. constructor; [done|]. rewrite fmap_cons. by constructor.
    + rewrite fmap_cons in *. apply Sorted_inv in Hs as [Hs Hhd]. constructor; [by apply IH|].
      destruct l as [|[k'' i''] l]; simpl.
      * constructor. simpl. lia.
      * destruct (k <=? k''); constructor; simpl; [lia|].
        apply HdRel_inv in Hhd. done.
Qed.

Lemma sort_pairs_perm (l : list (nat * Z)) :
  sort_pairs l ≡ₚ (fun ik => (ik.2, ik.1)) <$> l.
Proof.
  induction l as [|ik l IH]; [done|]. simpl. by rewrite insert_key_perm, IH.
Qed.

Lemma sort_pairs_sorted (l : list (nat * Z)) : Sorted Z.le (fst <$> sort_pairs l).
Proof.
  induction l as [|ik l IH]; [constructor|]. simpl. by apply insert_key_sorted.
Qed.

Lemma stable_argsort_spec : argsort_spec stable_argsort.
Proof.
  split; intros keys; unfold stable_argsort.
  - rewrite sort_pairs_perm, <- list_fmap_compose.
    change (snd ∘ _) with (@fst nat Z).
    rewrite fst_zip; [done|by rewrite length_seq].
  - rewrite <- list_fmap_compose.
    assert (Forall (fun ki : Z * nat => nth ki.2 keys 0 = ki.1)
              (sort_pairs (zip (seq 0 (length keys)) keys))) as Hinv.
    { rewrite sort_pairs_perm. apply Forall_fmap, Forall_forall.
      intros [i k] Hik. simpl.
      apply list_elem_of_lookup in Hik as [j Hj].
      apply lookup_zip_with_Some in Hj as (i' & k' & [= <- <-] & Hi & Hk).
      apply lookup_seq in Hi as [-> _]. simpl.
      by apply nth_lookup_Some with (d := 0) in Hk. }
    erewrite (Forall_fmap_ext_1 _ fst); [apply sort_pairs_sorted|exact Hinv].
Qed.





End MaskFacts.

(** *** The block policy: the shape of the mask, invalid ratios, failures *)

Module MaskPolicyFacts.
Import Mask.

(** What [mask[idxs] = 1] leaves behind: ones at the indices, the old
    entries elsewhere. *)
Lemma index_put_one_lookup (idxs : list nat) : forall mask mask' : list Z,
  index_put_one mask idxs = Ok mask' ->
  length mask' = length mask /\
  forall i, (i < length mask)%nat ->
    mask' !! i = if decide (i ∈ idxs) then Some 1 else mask !! i.
Proof.
  induction idxs as [|i0 rest IH]; intros mask mask' H; simpl in H.
  - injection H as <-. split; [done|]. intros i _.
    rewrite decide_False; [done|]. apply not_elem_of_nil.
  - destruct (decide (i0 < length mask)%nat) as [Hlt|]; [|done].
    destruct (IH _ _ H) as [Hl Hlook]. rewrite length_insert in Hl, Hlook.
    split; [done|]. intros i Hi. rewrite (Hlook i Hi).
    destruct (decide (i ∈ rest)) as [Hin|Hin].
    + rewrite decide_True; [done|]. by right.
    + destruct (decide (i = i0)) as [->|Hne].
      * rewrite decide_True by left. by rewrite list_lookup_insert_eq.
      * rewrite decide_False.
        -- by rewrite list_lookup_insert_ne.
        -- intros [?|?]%elem_of_cons; done.
Qed.

Lemma index_put_one_ok (idxs : list nat) : forall mask : list Z,
  Forall (fun i => (i < length mask)%nat) idxs -> is_Ok (index_put_one mask idxs).
Proof.
  induction idxs as [|i0 rest IH]; intros mask H; simpl.
  - by eexists.
  - apply Forall_cons in H as [H0 H]. rewrite decide_True by done.
    apply IH. by rewrite length_insert.
Qed.

(** [l[:k]] is a prefix of [l], also for a negative [k]. *)
Lemma py_slice_to_take {A} (k : Z) (l : list A) :
  py_slice_to k l = take (slice_len k (length l)) l /\ (slice_len k (length l) <= length l)%nat.
Proof.
  unfold py_slice_to, slice_len. destruct (0 <=? k).
  - split; [|lia]. destruct (decide (Z.to_nat k <= length l)%nat).
    + by rewrite Nat.min_l.
    + rewrite Nat.min_r by lia. by rewrite !take_ge by lia.
  - split; [done|lia].
Qed.

Section Policies.
Context {RNG : Type}.
Variable randint : RNG -> Z -> Z -> Z * RNG.
Variable shuffle : RNG -> list Z -> list Z * RNG.
Variable argsort : list Z -> list nat.
Variable mask_ratio : Q.
Hypothesis Hrng : rng_spec randint shuffle.
Hypothesis Hsort : argsort_spec argsort.

(** A row the loop of the block policy returned: some center of the
    sample is the anchor, and the masked groups are a prefix of the groups
    in the order of their distance to it. *)
Lemma block_row_inv (points : list point) (s s' : RNG) (row : list bool) :
  block_row randint argsort mask_ratio points s = Ok (row, s') ->
  exists anchor n,
    anchor ∈ points /\ length row = length points /\ (n <= length points)%nat /\
    n = slice_len (py_int (mask_ratio * inject_Z (Z.of_nat (length points)))) (length points) /\
    forall i, (i < length points)%nat ->
      row !! i = Some (bool_decide (i ∈ take n (argsort (sqdist anchor <$> points)))).
Proof.
  unfold block_row. intros H.
  destruct (Z.of_nat (length points) - 1 <? 0); [done|]. cbn [rbind] in H.
  destruct (randint s 0 (Z.of_nat (length points) - 1)) as [index s1].
  destruct (decide (0 <= index)); [|done].
  destruct (points !! Z.to_nat index) as [anchor|] eqn:Ha; [|done]. cbn [rbind] in H.
  set (idx := argsort (sqdist anchor <$> points)) in *.
  assert (length idx = length points) as Hli
    by (unfold idx; by rewrite (MaskFacts.argsort_length _ Hsort), length_fmap).
  rewrite Hli in H.
  destruct (py_slice_to_take (py_int (mask_ratio * inject_Z (Z.of_nat (length points)))) idx)
    as [Hsl Hn].
  rewrite Hli in Hsl, Hn. rewrite Hsl in H.
  set (n := slice_len _ _) in *.
  destruct (index_put_one (replicate (length points) 0) (take n idx)) as [mask'|] eqn:Hput;
    [|done].
  cbn [rbind] in H. injection H as <- <-.
  destruct (index_put_one_lookup _ _ _ Hput) as [Hl Hlook].
  rewrite length_replicate in Hl, Hlook.
  exists anchor, n. split; [by eapply list_elem_of_lookup_2|].
  split; [by rewrite length_fmap|]. split; [done|]. split; [done|].
  intros i Hi. rewrite list_lookup_fmap, (Hlook i Hi).
  destruct (decide (i ∈ take n idx)) as [Hin|Hin].
  - by rewrite bool_decide_eq_true_2.
  - rewrite bool_decide_eq_false_2 by done. by rewrite lookup_replicate_2.
Qed.

Lemma block_mask_order (anchor : point) (points : list point) (n i j : nat) (p_i p_j : point) :
  points !! i = Some p_i -> points !! j = Some p_j ->
  i ∈ take n (argsort (sqdist anchor <$> points)) ->
  j ∉ take n (argsort (sqdist anchor <$> points)) ->
  sqdist anchor p_i <= sqdist anchor p_j.
Proof.
  intros Hi Hj Hin Hout.
  set (keys := sqdist anchor <$> points) in *.
  set (idx := argsort keys) in *.
  assert (StronglySorted Z.le ((fun i => nth i keys 0) <$> idx)) as Hss.
  { apply Sorted_StronglySorted; [intros x y z; lia|]. apply (argsort_sorted _ Hsort). }
  apply elem_of_take in Hin as (p & Hp & Hpn).
  assert (j ∈ idx) as Hjin.
  { apply (MaskFacts.argsort_range _ Hsort). unfold keys. rewrite length_fmap.
    eapply lookup_lt_Some; eauto. }
  apply list_elem_of_lookup in Hjin as [q Hq].
  assert (n <= q)%nat as Hnq.
  { destruct (decide (n <= q)%nat); [done|]. exfalso. apply Hout.
    apply elem_of_take. exists q. split; [done|lia]. }
  assert (nth i keys 0 = sqdist anchor p_i) as Hki
    by (apply nth_lookup_Some; unfold keys; by rewrite list_lookup_fmap, Hi).
  assert (nth j keys 0 = sqdist anchor p_j) as Hkj
    by (apply nth_lookup_Some; unfold keys; by rewrite list_lookup_fmap, Hj).
  rewrite <- Hki, <- Hkj.
  apply (MaskFacts.StronglySorted_lookup_lt Z.le _ Hss p q); [lia| |];
    by rewrite list_lookup_fmap, ?Hp, ?Hq.
Qed.

(** X5. The block policy masks a ball around an anchor: in every sample
    there is a center, the anchor, such that no visible group is strictly
    nearer to it than a masked group. *)
Theorem block_mask_nearest (center : list (list point)) (s s' : RNG)
    (m : list (list bool)) :
  ~ (mask_ratio == 0)%Q ->
  _mask_center_block randint argsort mask_ratio center false s = Ok (m, s') ->
  Forall2 (fun points row =>
             length row = length points /\
             exists anchor, anchor ∈ points /\
               forall i j p_i p_j,
                 points !! i = Some p_i -> points !! j = Some p_j ->
                 row !! i = Some true -> row !! j = Some false ->
                 sqdist anchor p_i <= sqdist anchor p_j)
          center m.
Proof.
  intros Hr Hm. unfold _mask_center_block in Hm.
  destruct (Qeq_bool mask_ratio 0) eqn:Hq; [by apply Qeq_bool_iff in Hq|].
  cbn [orb] in Hm.
  destruct (block_loop randint argsort mask_ratio center s) as [[rows s2]|] eqn:Hl;
    cbn [rbind] in Hm; [|done].
  assert (rows = m) as -> by (destruct rows; [done|by injection Hm]).
  apply MaskFacts.block_loop_rows in Hl.
  eapply Forall2_impl; [exact Hl|]. intros points row (s_b & s_b' & Hrow).
  destruct (block_row_inv points s_b s_b' row Hrow) as (anchor & n & Ha & Hlr & _ & _ & Hlook).
  split; [done|]. exists anchor. split; [done|].
  intros i j p_i p_j Hi Hj Hti Hfj.
  rewrite (Hlook i) in Hti by (eapply lookup_lt_Some; eauto).
  rewrite (Hlook j) in Hfj by (eapply lookup_lt_Some; eauto).
  injection Hti as Hti. injection Hfj as Hfj.
  apply bool_decide_eq_true_1 in Hti. apply bool_decide_eq_false_1 in Hfj.
  by eapply block_mask_order.
Qed.


(** The loop body of the block policy returns on every sample that has a
    group, whatever the ratio. *)
Lemma block_row_count (points : list point) (s : RNG) :
  points <> [] ->
  exists row s',
    block_row randint argsort mask_ratio points s = Ok (row, s') /\
    length row = length points /\
    count_true row
    = slice_len (py_int (mask_ratio * inject_Z (Z.of_nat (length points)))) (length points).
Proof.
  intros Hne. set (G := length points).
  assert (0 < G)%nat as HG by (subst G; destruct points; [done|simpl; lia]).
  pose proof (randint_range _ _ Hrng s 0 (Z.of_nat G - 1) ltac:(lia)) as Hr.
  unfold block_row. fold G.
  destruct (Z.ltb_spec (Z.of_nat G - 1) 0); [lia|]. cbn [rbind].
  destruct (randint s 0 (Z.of_nat G - 1)) as [index s1]. simpl in Hr.
  rewrite decide_True by lia.
  destruct (lookup_lt_is_Some_2 points (Z.to_nat index) ltac:(lia)) as [anchor Ha].
  rewrite Ha. cbn [rbind].
  set (idx := argsort (sqdist anchor <$> points)).
  assert (length idx = G) as Hli
    by (unfold idx; by rewrite (MaskFacts.argsort_length _ Hsort), length_fmap).
  rewrite Hli.
  destruct (py_slice_to_take (py_int (mask_ratio * inject_Z (Z.of_nat G))) idx) as [Hsl Hn].
  rewrite Hli in Hsl, Hn. rewrite Hsl.
  set (n := slice_len _ _) in *.
  destruct (MaskFacts.index_put_one_spec (take n idx) (replicate G 0))
    as (mask' & He & Hl & Hc & _ & _).
  { eapply sublist_NoDup; [apply (MaskFacts.argsort_NoDup _ Hsort)|apply sublist_take]. }
  { intros i Hi. apply lookup_replicate_2.
    apply (subseteq_take n idx) in Hi. apply (MaskFacts.argsort_range _ Hsort) in Hi.
    by rewrite length_fmap in Hi. }
  rewrite He. cbn [rbind]. exists (to_bool <$> mask'), s1. split; [done|].
  split; [by rewrite length_fmap, Hl, length_replicate|].
  rewrite Hc, MaskFacts.count_true_replicate_0, length_take. lia.
Qed.

Lemma block_loop_count (G : nat) (center : list (list point)) : forall s : RNG,
  G <> 0%nat -> Forall (fun points => length points = G) center ->
  exists m s',
    block_loop randint argsort mask_ratio center s = Ok (m, s') /\
    length m = length center /\
    Forall (fun row => length row = G /\
              count_true row
              = slice_len (py_int (mask_ratio * inject_Z (Z.of_nat G))) G) m.
Proof.
  intros s HG Hrect. revert s.
  induction Hrect as [|points center Hp Hrect IH]; intros s.
  - exists [], s. by repeat split.
  - assert (points <> []) as Hne by (intros ->; simpl in Hp; lia).
    destruct (block_row_count points s Hne) as (row & s1 & Hr & Hl & Hc).
    destruct (IH s1) as (m & s2 & Hm & Hlm & Hall).
    exists (row :: m), s2. simpl. rewrite Hr. cbn [rbind]. rewrite Hm. cbn [rbind].
    split; [done|]. split; [by rewrite Hlm|]. constructor; [|done].
    rewrite Hp in Hl, Hc. done.
Qed.

Lemma py_int_zero_ratio (n : Z) : (mask_ratio == 0)%Q -> py_int (mask_ratio * inject_Z n) = 0.
Proof.
  intros H. unfold py_int. unfold Qeq in H. simpl in *.
  assert (Qnum mask_ratio = 0) as -> by lia. done.
Qed.

Lemma rand_loop_invalid (B G : nat) (k : Z) (s : RNG) :
  B <> 0%nat -> k < 0 \/ Z.of_nat G < k ->
  rand_loop shuffle B (Z.of_nat G) k s = Err ValueError.
Proof.
  intros HB Hk. destruct B as [|B]; [done|].
  cbn [rand_loop]. unfold rand_row, np_full.
  destruct (Z.ltb_spec (Z.of_nat G - k) 0); [done|].
  destruct (Z.ltb_spec k 0); [done|lia].
Qed.


(** X7. With a mask ratio other than 0 the block policy returns exactly
    on a non-empty batch in which every sample has at least one group. *)
Theorem block_policy_returns_iff (center : list (list point)) (s : RNG) :
  ~ (mask_ratio == 0)%Q ->
  is_Ok (_mask_center_block randint argsort mask_ratio center false s)
  <-> center <> [] /\ Forall (fun points => points <> []) center.
Proof.
  intros Hr.
  assert (Qeq_bool mask_ratio 0 = false) as Hq.
  { destruct (Qeq_bool mask_ratio 0) eqn:Hq; [by apply Qeq_bool_iff in Hq|done]. }
  unfold _mask_center_block. rewrite Hq. cbn [orb]. split.
  - intros [[m s'] H].
    destruct (block_loop randint argsort mask_ratio center s) as [[rows s2]|] eqn:Hl;
      cbn [rbind] in H; [|done].
    apply MaskFacts.block_loop_rows in Hl. split.
    + intros ->. apply Forall2_nil_inv_l in Hl as ->. done.
    + apply Forall_forall. intros points Hp.
      apply list_elem_of_lookup in Hp as [b Hb].
      destruct (Forall2_lookup_l _ _ _ _ _ Hl Hb) as (row & _ & s_b & s_b' & Hrow).
      intros ->. unfold block_row in Hrow. simpl in Hrow. done.
  - intros [Hne Hall].
    assert (exists m s', block_loop randint argsort mask_ratio center s = Ok (m, s') /\
                         length m = length center) as (m & s' & Hm & Hlm).
    { clear Hne. revert s. induction Hall as [|points center Hp _ IH]; intros s.
      - by exists [], s.
      - destruct (block_row_count points s Hp) as (row & s1 & Hrow & _).
        destruct (IH s1) as (m & s2 & Hm & Hlm).
        exists (row :: m), s2. simpl. rewrite Hrow. cbn [rbind]. rewrite Hm. cbn [rbind].
        by rewrite Hlm. }
    rewrite Hm. cbn [rbind]. destruct m; [by destruct center|]. by eexists.
Qed.

End Policies.

Lemma block_mask_nearest_witness :
  let center := [[(0, 0, 0); (1, 0, 0); (5, 0, 0); (6, 0, 0)]; [(3, 3, 3); (0, 0, 0); (2, 2, 2)]] in
  Forall2 (fun points row =>
             length row = length points /\
             exists anchor, anchor ∈ points /\
               forall i j p_i p_j,
                 points !! i = Some p_i -> points !! j = Some p_j ->
                 row !! i = Some true -> row !! j = Some false ->
                 sqdist anchor p_i <= sqdist anchor p_j)
          center [[true; true; false; false]; [false; true; false]].
Proof.
  intros center.
  apply (block_mask_nearest counter_randint stable_argsort (1 # 2)
           MaskFacts.stable_argsort_spec center 0%nat 2%nat).
  - intros H. discriminate H.
  - reflexivity.
Defined.


Lemma block_policy_returns_iff_witness :
  is_Ok (_mask_center_block counter_randint stable_argsort (1 # 2)
           [[(0, 0, 0); (1, 0, 0)]; [(2, 2, 2)]] false 0%nat)
  <-> [[(0, 0, 0); (1, 0, 0)]; [(2, 2, 2)]] <> [] /\
      Forall (fun points : list point => points <> []) [[(0, 0, 0); (1, 0, 0)]; [(2, 2, 2)]].
Proof.
  apply (block_policy_returns_iff counter_randint counter_shuffle stable_argsort (1 # 2)
           MaskFacts.counter_rng_spec MaskFacts.stable_argsort_spec).
  intros H. discriminate H.
Defined.

End MaskPolicyFacts.

(** *** Shapes along the forward pass *)

Module ShapeFacts.
Import Shapes.

Lemma reshape_infer (a n c : nat) (sh : shape) :
  numel sh = (a * n * c)%nat -> (0 < a)%nat -> (0 < c)%nat ->
  reshape sh [Some a; None; Some c] = Ok [a; n; c].
Proof.
  intros Hn Ha Hc. unfold reshape. rewrite Hn.
  assert (known_size [Some a; None; Some c] = (a * c)%nat) as -> by (simpl; lia).
  assert (length (filter (fun d : option nat => d = None) [Some a; None; Some c]) = 1%nat)
    as -> by done.
  assert (0 < a * c)%nat as Hac by nia.
  replace (a * n * c)%nat with (n * (a * c))%nat by lia.
  rewrite Nat.Div0.mod_mul, Nat.div_mul by lia.
  destruct (Nat.ltb_spec 0 (a * c)); [|lia]. done.
Qed.

Lemma broadcast_rev_same (a : shape) : broadcast_rev a a = Ok a.
Proof.
  induction a as [|x a IH]; [done|]. simpl. rewrite IH. simpl.
  by rewrite decide_True.
Qed.

Lemma broadcast_same (a : shape) : broadcast a a = Ok a.
Proof. unfold broadcast. rewrite broadcast_rev_same. simpl. by rewrite reverse_involutive. Qed.

Lemma last_axis_3 (b n c c' : nat) : last_axis c c' [b; n; c] = Ok [b; n; c'].
Proof. unfold last_axis. simpl. by rewrite decide_True. Qed.

Lemma block_3 (b n c : nat) : block c [b; n; c] = Ok [b; n; c].
Proof. unfold block. by rewrite decide_True. Qed.

Lemma self_blocks_same (depth b n c : nat) :
  self_blocks depth c [b; n; c] [b; n; c] = Ok [b; n; c].
Proof.
  induction depth as [|d IH]; [done|].
  cbn [self_blocks]. rewrite broadcast_same. cbn [rbind]. rewrite block_3. exact IH.
Qed.

Lemma joint_blocks_same (depth b n m c : nat) :
  joint_blocks depth c [b; n; c] [b; n; c] [b; m; c] [b; m; c]
  = Ok ([b; n; c], [b; m; c]).
Proof.
  induction depth as [|d IH]; [done|].
  cbn [joint_blocks]. rewrite !broadcast_same. cbn [rbind]. rewrite !block_3. exact IH.
Qed.

Lemma slice_last1_3 (k b n c : nat) :
  (0 < k <= n)%nat -> slice_last1 k [b; n; c] = Ok [b; k; c].
Proof.
  intros Hk. unfold slice_last1, py_slice_last. destruct k as [|k]; [lia|].
  rewrite length_drop, length_replicate. do 3 f_equal. lia.
Qed.

Lemma total_true_rows (k : nat) (mask : list (list bool)) :
  Forall (fun row => Mask.count_true row = k) mask ->
  total_true mask = (length mask * k)%nat.
Proof.
  induction 1 as [|row mask Hr _ IH]; [done|].
  unfold total_true in *. rewrite fmap_cons. simpl. rewrite IH, Hr. lia.
Qed.

Lemma count_true_negb (row : list bool) :
  Mask.count_true (negb <$> row) = (length row - Mask.count_true row)%nat.
Proof.
  induction row as [|b row IH]; [done|].
  rewrite fmap_cons, !MaskFacts.count_true_cons, IH. simpl.
  pose proof (length_filter (fun b => b = true) row) as Hle. unfold Mask.count_true in *.
  destruct b; simpl; lia.
Qed.

Lemma mask_not_rows (G k : nat) (mask : list (list bool)) :
  Forall (fun row => length row = G /\ Mask.count_true row = k) mask ->
  length (mask_not mask) = length mask /\
  Forall (fun row => length row = G /\ Mask.count_true row = (G - k)%nat) (mask_not mask).
Proof.
  intros H. unfold mask_not. split; [by rewrite length_fmap|].
  apply Forall_fmap. eapply Forall_impl; [exact H|]. intros row [Hl Hc]. simpl.
  by rewrite length_fmap, count_true_negb, Hl, Hc.
Qed.

Lemma mask_index_ok (b g : nat) (rest : shape) (k : nat) (mask : list (list bool)) :
  length mask = b ->
  Forall (fun row => length row = g /\ Mask.count_true row = k) mask ->
  mask_index (b :: g :: rest) mask = Ok ((b * k)%nat :: rest).
Proof.
  intros Hl Hall. unfold mask_index.
  rewrite decide_True.
  - rewrite (total_true_rows k), Hl; [done|].
    eapply Forall_impl; [exact Hall|]. by intros ? [].
  - split; [done|]. eapply Forall_impl; [exact Hall|]. by intros ? [].
Qed.

Section Forward.
Context {RNG : Type}.
Variable randint : RNG -> Z -> Z -> Z * RNG.
Variable shuffle : RNG -> list Z -> list Z * RNG.
Variable argsort : list Z -> list nat.
Hypothesis Hrng : Mask.rng_spec randint shuffle.
Hypothesis Hsort : Mask.argsort_spec argsort.

Lemma generate_mask_ok (ratio : Q) (mask_type : string) (center : list (list point))
    (G : nat) (s : RNG) :
  (0 < ratio)%Q -> (ratio < 1)%Q -> center <> [] -> G <> 0%nat ->
  Forall (fun points => length points = G) center ->
  exists m s',
    Mask.generate_mask randint shuffle argsort ratio mask_type center false s = Ok (m, s') /\
    length m = length center /\
    Forall (fun row => length row = G /\
              Mask.count_true row = Z.to_nat (py_int (ratio * inject_Z (Z.of_nat G)))) m.
Proof.
  intros H0 H1 Hne HG Hrect. unfold Mask.generate_mask.
  destruct (String.eqb mask_type "rand").
  - eapply MaskFacts.rand_policy_ok; eauto.
  - eapply MaskFacts.block_policy_ok; eauto.
Qed.

Lemma PCP_MAE_forward_general (cfg : config) (B N : nat) (center : list (list point))
    (s : RNG) :
  let k := Z.to_nat (py_int (mask_ratio cfg * inject_Z (Z.of_nat (num_group cfg)))) in
  (0 < mask_ratio cfg)%Q -> (mask_ratio cfg < 1)%Q ->
  (0 < B)%nat -> (0 < group_size cfg <= N)%nat -> (0 < k)%nat ->
  (0 < trans_dim cfg)%nat -> encoder_dims cfg = trans_dim cfg ->
  length center = B -> Forall (fun c => length c = num_group cfg) center ->
  PCP_MAE_forward randint shuffle argsort cfg [B; N; 3%nat] center s
  = Ok {| visible_tokens := num_group cfg - k;
          masked_tokens := k;
          x_rec_shape := [B; k; trans_dim cfg];
          rebuild_points_shape := [(B * k)%nat; group_size cfg; 3%nat];
          gt_points_shape := [(B * k)%nat; group_size cfg; 3%nat] |}.
Proof.
  intros k H0 H1 HB Hgs Hk HC Henc Hlen Hrect.
  set (G := num_group cfg) in *. set (C := trans_dim cfg) in *.
  set (gs := group_size cfg) in *.
  assert (k <= G)%nat as HkG.
  { pose proof (MaskFacts.py_int_ratio_bounds (mask_ratio cfg) G H0 H1). subst k. lia. }
  assert (center <> []) as Hne by (intros ->; simpl in Hlen; lia).
  destruct (generate_mask_ok (mask_ratio cfg) (mask_type cfg) center G s H0 H1 Hne
              ltac:(lia) Hrect) as (m & s' & Hgen & Hlm & Hall).
  fold k in Hall. rewrite Hlen in Hlm.
  destruct (mask_not_rows G k m Hall) as [Hln Halln]. rewrite Hlm in Hln.
  unfold PCP_MAE_forward, Group_forward_shape. fold gs G C.
  rewrite decide_True by lia. rewrite decide_True by done. cbn [rbind].
  unfold MaskTransformer_forward. fold gs G C. rewrite Hgen. cbn [rbind].
  unfold Encoder_forward. rewrite decide_False by lia. cbn [rbind]. rewrite Henc.
  repeat first
    [ progress cbn [rbind nth cat1 transpose12 conv1d expand_token]
    | rewrite (mask_index_ok B G _ _ _ Hln Halln)
    | rewrite (mask_index_ok B G _ _ _ Hlm Hall)
    | rewrite (reshape_infer B (G - k) C) by (simpl; lia || nia)
    | rewrite (reshape_infer B k C) by (simpl; lia || nia)
    | rewrite (reshape_infer B (G - k) 3) by (simpl; lia || nia)
    | rewrite (reshape_infer B k 3) by (simpl; lia || nia)
    | rewrite (reshape_infer B (k * gs) 3) by (simpl; lia || nia)
    | rewrite (reshape_infer (B * k) gs 3) by (simpl; lia || nia)
    | rewrite last_axis_3
    | rewrite joint_blocks_same
    | rewrite decide_True by done
    | unfold proj2img_shape; rewrite decide_False by nia
    | unfold TransformerDecoder_forward;
      replace (G - k + k)%nat with G by lia; rewrite self_blocks_same
    | rewrite slice_last1_3 by lia ].
  reflexivity.
Qed.

End Forward.

End ShapeFacts.

(** *** The forward pass without a masked group *)

Module ShapeEdgeFacts.
Import Shapes.

Section Forward.
Context {RNG : Type}.
Variable randint : RNG -> Z -> Z -> Z * RNG.
Variable shuffle : RNG -> list Z -> list Z * RNG.
Variable argsort : list Z -> list nat.
Hypothesis Hrng : Mask.rng_spec randint shuffle.
Hypothesis Hsort : Mask.argsort_spec argsort.

(** Both policies on a ratio at least 0 and below 1. *)
Lemma generate_mask_count (ratio : Q) (mask_type : string) (center : list (list point))
    (G : nat) (s : RNG) :
  (0 <= ratio)%Q -> (ratio < 1)%Q -> center <> [] -> G <> 0%nat ->
  Forall (fun points => length points = G) center ->
  exists m s',
    Mask.generate_mask randint shuffle argsort ratio mask_type center false s = Ok (m, s') /\
    length m = length center /\
    Forall (fun row => length row = G /\
              Mask.count_true row = Z.to_nat (py_int (ratio * inject_Z (Z.of_nat G)))) m.
Proof.
  intros H0 H1 Hne HG Hrect.
  destruct (Qlt_le_dec 0 ratio) as [Hpos|Hle].
  { by apply ShapeFacts.generate_mask_ok. }
  assert (ratio == 0)%Q as Hz by (by apply Qle_antisym).
  assert (Mask.groups_of center = G) as HGc.
  { unfold Mask.groups_of. destruct center as [|points center]; [done|].
    by apply Forall_cons in Hrect as [? _]. }
  exists (Mask.zeros_mask (length center) G), s.
  rewrite (MaskPolicyFacts.py_int_zero_ratio ratio (Z.of_nat G) Hz).
  destruct (MaskFacts.zeros_mask_spec (length center) G) as [Hl Hall].
  split; [|split; [done|]].
  - unfold Mask.generate_mask, Mask._mask_center_rand, Mask._mask_center_block.
    rewrite (Qeq_eq_bool _ _ Hz), HGc. cbn [orb]. unfold Mask.batch_of.
    by destruct (String.eqb mask_type "rand").
  - eapply Forall_impl; [exact Hall|]. intros row (? & ? & _). done.
Qed.

End Forward.


End ShapeEdgeFacts.

(** *** The split of the tokens by the mask *)

Module SelectionFacts.
Import Selection.

Lemma chunks_concat {A} (k : nat) (ls : list (list A)) :
  Forall (fun r => length r = k) ls -> chunks (length ls) k (concat ls) = ls.
Proof.
  induction 1 as [|r ls Hr _ IH]; [done|].
  simpl. rewrite take_app_length', drop_app_length' by done. by rewrite IH.
Qed.

Lemma length_concat_rows {A} (k : nat) (ls : list (list A)) :
  Forall (fun r => length r = k) ls -> length (concat ls) = (length ls * k)%nat.
Proof. induction 1 as [|r ls Hr _ IH]; [done|]. simpl. rewrite length_app, IH, Hr. lia. Qed.

Lemma reshape_rows_concat {A} (k : nat) (ls : list (list A)) :
  ls <> [] -> Forall (fun r => length r = k) ls ->
  reshape_rows (length ls) (concat ls) = Ok ls.
Proof.
  intros Hne Hall. unfold reshape_rows.
  assert (0 < length ls)%nat as HB by (destruct ls; [done|simpl; lia]).
  rewrite (length_concat_rows k ls Hall).
  replace (length ls * k)%nat with (k * length ls)%nat by lia.
  rewrite Nat.Div0.mod_mul, Nat.div_mul by lia.
  destruct (Nat.ltb_spec 0 (length ls)); [|lia]. cbn [andb Nat.eqb].
  by rewrite chunks_concat.
Qed.

Lemma select_row_length {A} (row : list A) : forall mrow : list bool,
  length row = length mrow -> length (select_row row mrow) = Mask.count_true mrow.
Proof.
  unfold select_row, Mask.count_true.
  induction row as [|a row IH]; intros [|b mrow] Hl; try done.
  injection Hl as Hl. specialize (IH mrow Hl). rewrite length_fmap in IH.
  rewrite length_fmap. cbn [zip zip_with]. rewrite !filter_cons. cbn [snd].
  destruct b.
  - rewrite !decide_True by done. simpl. by rewrite IH.
  - rewrite !decide_False by done. exact IH.
Qed.

(** A token is visible or masked, never both and never neither. *)
Lemma select_row_partition {A} (row : list A) : forall mrow : list bool,
  length row = length mrow ->
  select_row row (negb <$> mrow) ++ select_row row mrow ≡ₚ row.
Proof.
  unfold select_row.
  induction row as [|a row IH]; intros [|b mrow] Hl; try done.
  injection Hl as Hl. specialize (IH mrow Hl).
  rewrite fmap_cons. cbn [zip zip_with]. rewrite !filter_cons. cbn [snd].
  destruct b; cbn [negb].
  - rewrite decide_False by done. rewrite decide_True by done.
    rewrite fmap_cons. cbn [fst].
    rewrite <- Permutation_middle. by constructor.
  - rewrite decide_True by done. rewrite decide_False by done.
    rewrite fmap_cons. cbn [fst]. simpl. by constructor.
Qed.

Lemma mask_select_rows {A} (t : list (list A)) (mask : list (list bool)) :
  Forall2 (fun (row : list A) (mrow : list bool) => length row = length mrow) t mask ->
  mask_select t mask = Ok (concat (zip_with select_row t mask)).
Proof. intros H. unfold mask_select. by rewrite decide_True. Qed.

Lemma select_rows_facts {A} (t : list (list A)) (mask : list (list bool)) (G k : nat) :
  Forall2 (fun (row : list A) (mrow : list bool) =>
             length row = G /\ length mrow = G /\ Mask.count_true mrow = k) t mask ->
  Forall2 (fun (row : list A) (mrow : list bool) =>
             length (select_row row mrow) = k /\
             length (select_row row (negb <$> mrow)) = (G - k)%nat /\
             select_row row (negb <$> mrow) ++ select_row row mrow ≡ₚ row) t mask.
Proof.
  intros Hall. eapply Forall2_impl; [exact Hall|]. intros row mrow (Hr & Hm & Hc).
  split; [|split].
  - rewrite select_row_length by congruence. done.
  - rewrite select_row_length by (rewrite length_fmap; congruence).
    rewrite ShapeFacts.count_true_negb. congruence.
  - apply select_row_partition. congruence.
Qed.

(** [t[mask].reshape(B, -1, C)] when every row of the mask has k true
    entries. *)
Lemma select_reshape {A} (t : list (list A)) (mask : list (list bool)) (k : nat) :
  t <> [] ->
  Forall2 (fun (row : list A) (mrow : list bool) =>
             length row = length mrow /\ Mask.count_true mrow = k) t mask ->
  (do m <- mask_select t mask; reshape_rows (length t) m) = Ok (zip_with select_row t mask).
Proof.
  intros Hne Hall.
  rewrite mask_select_rows
    by (eapply Forall2_impl; [exact Hall|]; by intros row mrow [? _]).
  cbn [rbind].
  set (msk := zip_with select_row t mask).
  assert (length mask = length t) as Hlm by (symmetry; eapply Forall2_length; eauto).
  assert (length msk = length t) as Hlk by (unfold msk; rewrite length_zip_with; lia).
  assert (Forall (fun r => length r = k) msk) as Hk.
  { unfold msk. apply Forall_lookup. intros b r Hb.
    apply lookup_zip_with_Some in Hb as (row & mrow & -> & Hrow & Hmrow).
    destruct (Forall2_lookup_lr _ _ _ _ _ _ Hall Hrow Hmrow) as [Hl Hc].
    by rewrite select_row_length. }
  rewrite <- Hlk. apply (reshape_rows_concat k). { by destruct msk, t. } done.
Qed.

Lemma select_not_reshape {A} (t : list (list A)) (mask : list (list bool)) (G k : nat) :
  t <> [] ->
  Forall2 (fun (row : list A) (mrow : list bool) =>
             length row = G /\ length mrow = G /\ Mask.count_true mrow = k) t mask ->
  (do v <- mask_select t (Shapes.mask_not mask); reshape_rows (length t) v)
  = Ok (zip_with (fun row mrow => select_row row (negb <$> mrow)) t mask).
Proof.
  intros Hne Hall.
  rewrite (select_reshape t (Shapes.mask_not mask) (G - k) Hne).
  - unfold Shapes.mask_not. by rewrite zip_with_fmap_r.
  - unfold Shapes.mask_not. apply Forall2_fmap_r.
    eapply Forall2_impl; [exact Hall|]. intros row mrow (Hr & Hm & Hc). simpl.
    rewrite length_fmap, ShapeFacts.count_true_negb. split; congruence.
Qed.

Lemma split_by_mask_rows {A} (t : list (list A)) (mask : list (list bool)) (G k : nat) :
  t <> [] ->
  Forall2 (fun (row : list A) (mrow : list bool) =>
             length row = G /\ length mrow = G /\ Mask.count_true mrow = k) t mask ->
  split_by_mask t mask
  = Ok (zip_with (fun row mrow => select_row row (negb <$> mrow)) t mask,
        zip_with select_row t mask).
Proof.
  intros Hne Hall. unfold split_by_mask.
  pose proof (select_not_reshape t mask G k Hne Hall) as Hv.
  destruct (mask_select t (Shapes.mask_not mask)) as [v|]; cbn [rbind] in Hv |- *; [|done].
  rewrite Hv. cbn [rbind].
  assert (Forall2 (fun (row : list A) (mrow : list bool) =>
             length row = length mrow /\ Mask.count_true mrow = k) t mask) as Hall'.
  { eapply Forall2_impl; [exact Hall|]. intros row mrow (Hr & Hm & Hc). split; congruence. }
  pose proof (select_reshape t mask k Hne Hall') as Hm.
  destruct (mask_select t mask) as [m|]; cbn [rbind] in Hm |- *; [|done].
  by rewrite Hm.
Qed.

(** X9. When every sample has the same number k of masked groups, the
    split of a (B, G, ...) tensor by the mask is a split sample by sample:
    row b of the masked part holds the k entries of sample b at the masked
    groups, row b of the visible part its G - k other entries, both in
    group order, and the two rows together hold every entry of sample b
    once. *)
Theorem split_by_mask_per_sample {A} (t : list (list A)) (mask : list (list bool))
    (G k : nat) :
  t <> [] ->
  Forall2 (fun (row : list A) (mrow : list bool) =>
             length row = G /\ length mrow = G /\ Mask.count_true mrow = k) t mask ->
  split_by_mask t mask
  = Ok (zip_with (fun row mrow => select_row row (negb <$> mrow)) t mask,
        zip_with select_row t mask) /\
  Forall2 (fun (row : list A) (mrow : list bool) =>
             length (select_row row mrow) = k /\
             length (select_row row (negb <$> mrow)) = (G - k)%nat /\
             select_row row (negb <$> mrow) ++ select_row row mrow ≡ₚ row) t mask.
Proof.
  intros Hne Hall. split.
  - by apply (split_by_mask_rows t mask G k).
  - by apply select_rows_facts.
Qed.

Lemma split_by_mask_per_sample_witness :
  let t := [[10; 11; 12; 13]; [20; 21; 22; 23]] in
  let mask := [[true; false; false; true]; [false; true; true; false]] in
  split_by_mask t mask = Ok ([[11; 12]; [20; 23]], [[10; 13]; [21; 22]]) /\
  Forall2 (fun (row : list Z) (mrow : list bool) =>
             length (select_row row mrow) = 2%nat /\
             length (select_row row (negb <$> mrow)) = (4 - 2)%nat /\
             select_row row (negb <$> mrow) ++ select_row row mrow ≡ₚ row) t mask.
Proof.
  intros t mask.
  apply (split_by_mask_per_sample t mask 4 2).
  - discriminate.
  - repeat constructor.
Defined.

End SelectionFacts.

(** *** Grouping *)

Module GroupingFacts.
Import Grouping.

Lemma lookup_concat_rect {A} (N : nat) (xyz : list (list A)) :
  Forall (fun c => length c = N) xyz ->
  forall b cloud i, xyz !! b = Some cloud -> (i < N)%nat ->
    concat xyz !! (b * N + i)%nat = cloud !! i.
Proof.
  induction 1 as [|c xyz Hc _ IH]; intros b cloud i Hb Hi; [done|].
  destruct b as [|b]; simplify_eq/=.
  - rewrite lookup_app_l by lia. done.
  - rewrite lookup_app_r by lia.
    replace (length c + b * length c + i - length c)%nat with (b * length c + i)%nat by lia.
    by apply IH.
Qed.

Lemma length_concat_rect {A} (N : nat) (xyz : list (list A)) :
  Forall (fun c => length c = N) xyz -> length (concat xyz) = (length xyz * N)%nat.
Proof. induction 1 as [|c xyz Hc _ IH]; [done|]. simpl. rewrite length_app, IH, Hc. lia. Qed.

Lemma padd_psub (q c : point) : padd (psub q c) c = q.
Proof.
  destruct q as [[qx qy] qz], c as [[cx cy] cz]. unfold padd, psub, px, py, pz. simpl.
  repeat f_equal; lia.
Qed.

(** Reading the flat cloud at a shifted index gives the point of cloud [b]. *)
Lemma index_row_shifted (N : nat) (xyz : list (list point)) (b : nat) (cloud : list point)
    (i : Z) :
  Forall (fun c => length c = N) xyz -> xyz !! b = Some cloud -> 0 <= i < Z.of_nat N ->
  exists p, index_row (concat xyz) (i + Z.of_nat b * Z.of_nat N) = Ok p /\
            cloud !! Z.to_nat i = Some p.
Proof.
  intros Hrect Hb Hi.
  assert (b < length xyz)%nat as Hlt by (eapply lookup_lt_Some; eauto).
  assert (length cloud = N) as Hlc by (eapply (proj1 (Forall_lookup _ _) Hrect); eauto).
  destruct (lookup_lt_is_Some_2 cloud (Z.to_nat i) ltac:(lia)) as [p Hp].
  exists p. split; [|done]. unfold index_row.
  rewrite (length_concat_rect N) by done.
  destruct (Z.ltb_spec (i + Z.of_nat b * Z.of_nat N) 0); [nia|].
  destruct (Z.leb_spec 0 (i + Z.of_nat b * Z.of_nat N)); [|lia].
  destruct (Z.ltb_spec (i + Z.of_nat b * Z.of_nat N) (Z.of_nat (length xyz * N))); [|nia].
  simpl.
  replace (Z.to_nat (i + Z.of_nat b * Z.of_nat N)) with (b * N + Z.to_nat i)%nat by nia.
  rewrite (lookup_concat_rect N xyz Hrect b cloud) by (done || lia).
  by rewrite Hp.
Qed.

Section Gather.
Variable N : nat.
Variable xyz : list (list point).
Hypothesis Hrect : Forall (fun c => length c = N) xyz.

Lemma gather_row (b : nat) (cloud : list point) (row : list Z) :
  xyz !! b = Some cloud -> Forall (fun i => 0 <= i < Z.of_nat N) row ->
  exists ps,
    res_mapM (index_row (concat xyz)) (shift N b <$> row) = Ok ps /\
    length ps = length row /\
    forall m q, ps !! m = Some q ->
      exists i, row !! m = Some i /\ cloud !! Z.to_nat i = Some q.
Proof.
  intros Hb. induction 1 as [|i row Hi _ (ps & He & Hl & Hp)].
  - exists []. by repeat split.
  - destruct (index_row_shifted N xyz b cloud i Hrect Hb Hi) as (p & Hr & Hc).
    exists (p :: ps). rewrite fmap_cons. cbn [res_mapM]. unfold shift at 1.
    rewrite Hr, He. split; [done|]. split; [simpl; by rewrite Hl|].
    intros [|m] q Hq; simplify_eq/=; [by exists i|by apply Hp].
Qed.

Lemma gather_table (M b : nat) (cloud : list point) (tbl : list (list Z)) :
  xyz !! b = Some cloud ->
  Forall (fun row => length row = M /\ Forall (fun i => 0 <= i < Z.of_nat N) row) tbl ->
  exists gs,
    res_mapM (res_mapM (index_row (concat xyz)))
      ((fun row : list Z => shift N b <$> row) <$> tbl) = Ok gs /\
    length gs = length tbl /\
    forall g grp, gs !! g = Some grp ->
      length grp = M /\
      forall m q, grp !! m = Some q ->
        exists row i, tbl !! g = Some row /\ row !! m = Some i /\
                      cloud !! Z.to_nat i = Some q.
Proof.
  intros Hb. induction 1 as [|row tbl [Hlr Hr] _ (gs & He & Hl & Hp)].
  - exists []. by repeat split.
  - destruct (gather_row b cloud row Hb Hr) as (ps & Hps & Hlps & Hq).
    exists (ps :: gs). rewrite fmap_cons. cbn [res_mapM]. rewrite Hps, He.
    split; [done|]. split; [simpl; by rewrite Hl|].
    intros [|g] grp Hg; simplify_eq/=.
    + split; [congruence|]. intros m q Hm. destruct (Hq m q Hm) as (i & ? & ?).
      by exists row, i.
    + by apply Hp.
Qed.

Lemma gather_batch (M G : nat) (idx : list (list (list Z))) : forall k : nat,
  (k + length idx <= length xyz)%nat ->
  Forall (fun tbl => length tbl = G /\
            Forall (fun row => length row = M /\
                      Forall (fun i => 0 <= i < Z.of_nat N) row) tbl) idx ->
  exists nb,
    res_mapM (res_mapM (res_mapM (index_row (concat xyz))))
      (imap (fun b (tbl : list (list Z)) =>
               (fun row : list Z => shift N (k + b) <$> row) <$> tbl) idx) = Ok nb /\
    length nb = length idx /\
    forall b groups cloud, nb !! b = Some groups -> xyz !! (k + b)%nat = Some cloud ->
      length groups = G /\
      forall g grp, groups !! g = Some grp ->
        length grp = M /\
        forall m q, grp !! m = Some q ->
          exists tbl row i, idx !! b = Some tbl /\ tbl !! g = Some row /\
                            row !! m = Some i /\ cloud !! Z.to_nat i = Some q.
Proof.
  induction idx as [|tbl idx IH]; intros k Hk Hall.
  - exists []. by repeat split.
  - apply Forall_cons in Hall as [[Hlt Ht] Hall]. simpl in Hk.
    destruct (lookup_lt_is_Some_2 xyz k ltac:(lia)) as [cloud Hc].
    destruct (gather_table M k cloud tbl Hc Ht) as (gs & Hgs & Hlgs & Hq).
    destruct (IH (S k) ltac:(lia) Hall) as (nb & Hnb & Hlnb & Hp).
    exists (gs :: nb). cbn [imap res_mapM]. rewrite Nat.add_0_r, Hgs.
    assert (imap ((fun b (tbl0 : list (list Z)) =>
                     (fun row : list Z => shift N (k + b) <$> row) <$> tbl0) ∘ S) idx
            = imap (fun b (tbl0 : list (list Z)) =>
                     (fun row : list Z => shift N (S k + b) <$> row) <$> tbl0) idx) as ->.
    { apply imap_ext. intros b t _. simpl. by replace (k + S b)%nat with (S (k + b)) by lia. }
    rewrite Hnb. split; [done|]. split; [simpl; by rewrite Hlnb|].
    intros [|b] groups cloud' Hg Hx; simplify_eq/=.
    + rewrite Nat.add_0_r in Hx. simplify_eq. split; [congruence|].
      intros g grp Hgrp. destruct (Hq g grp Hgrp) as [? Hm]. split; [done|].
      intros m q Hmq. destruct (Hm m q Hmq) as (row & i & ? & ? & ?). by exists tbl, row, i.
    + replace (k + S b)%nat with (S (k + b)) in Hx by lia. by apply (Hp b groups cloud').
Qed.
End Gather.

Section Group.
Variable fps : list (list point) -> nat -> list (list point).
Variable knn_point : nat -> list (list point) -> list (list point) -> list (list (list Z)).
Variables num_group group_size : nat.

End Group.

End GroupingFacts.

(** *** Grouping of a moved cloud *)

Module GroupingMoreFacts.
Import Grouping.

Lemma res_mapM_rmap {A B C} (f : B -> C) (g : A -> result B) (l : list A) :
  res_mapM (fun a => rmap f (g a)) l = rmap (fmap f) (res_mapM g l).
Proof.
  induction l as [|a l IH]; [done|]. cbn [res_mapM]. rewrite IH.
  destruct (g a) as [b|]; [|done]. cbn [rmap rbind].
  by destruct (res_mapM g l).
Qed.

Lemma res_mapM_ext {A B} (f g : A -> result B) (l : list A) :
  (forall a, f a = g a) -> res_mapM f l = res_mapM g l.
Proof. intros H. induction l as [|a l IH]; [done|]. cbn [res_mapM]. by rewrite H, IH. Qed.

Lemma index_row_fmap {A B} (f : A -> B) (rows : list A) (i : Z) :
  index_row (f <$> rows) i = rmap f (index_row rows i).
Proof.
  unfold index_row. rewrite length_fmap.
  destruct (_ && _); [|done].
  rewrite list_lookup_fmap. by destruct (rows !! _).
Qed.

Lemma psub_padd (q c t : point) : psub (padd q t) (padd c t) = psub q c.
Proof.
  destruct q as [[qx qy] qz], c as [[cx cy] cz], t as [[tx ty] tz].
  unfold psub, padd, px, py, pz. cbn [fst snd]. f_equal; [f_equal|]; lia.
Qed.

Lemma sub_center_translate (t : point) (neighborhood : list (list (list point)))
    (center : list (list point)) :
  sub_center
    ((fmap (M := list) (fmap (M := list) (fmap (M := list) (fun p => padd p t)))) neighborhood)
    (translate t center)
  = sub_center neighborhood center.
Proof.
  unfold sub_center, translate.
  rewrite zip_with_fmap_l, zip_with_fmap_r.
  apply zip_with_ext; [|done..]. intros groups cs.
  rewrite zip_with_fmap_l, zip_with_fmap_r.
  apply zip_with_ext; [|done..]. intros grp c.
  rewrite <- list_fmap_compose. apply list_fmap_ext. intros _ q _.
  unfold compose. apply psub_padd.
Qed.

Lemma has_shape2_translate (B G : nat) (t : point) (center : list (list point)) :
  has_shape2 B G (translate t center) <-> has_shape2 B G center.
Proof.
  unfold has_shape2, translate. rewrite length_fmap, Forall_fmap.
  split; intros [? H]; (split; [done|]); eapply Forall_impl; try exact H;
    intros r; unfold compose; by rewrite length_fmap.
Qed.

Lemma concat_translate (t : point) (xyz : list (list point)) :
  concat (translate t xyz) = (fun p => padd p t) <$> concat xyz.
Proof.
  unfold translate. induction xyz as [|cloud xyz IH]; [done|].
  rewrite fmap_cons. cbn [concat]. by rewrite fmap_app, IH.
Qed.

Section Group.
Variable fps : list (list point) -> nat -> list (list point).
Variable knn_point : nat -> list (list point) -> list (list point) -> list (list (list Z)).
Variables num_group group_size : nat.

End Group.


End GroupingMoreFacts.

(** *** Attention blocks *)

Module TransformerFacts.
Import Transformer.

Section Layers.
Context {T : Type}.
Variables (tzero : T) (tadd tmul : T -> T -> T).
Variable softmax : list T -> list T.
Variable P : block_params (T := T).

Local Abbreviation attention_self_sample := (attention_self_sample tzero tadd tmul softmax P).
Local Abbreviation attention_joint_sample := (attention_joint_sample tzero tadd tmul softmax P).
Local Abbreviation Attention_forward_self := (Attention_forward_self tzero tadd tmul softmax P).
Local Abbreviation Attention_forward_joint := (Attention_forward_joint tzero tadd tmul softmax P).
Local Abbreviation Block_forward_self := (Block_forward_self tzero tadd tmul softmax P).
Local Abbreviation Block_forward_joint := (Block_forward_joint tzero tadd tmul softmax P).

Lemma head_slice_length (which h : nat) (projected : list token) :
  length (head_slice P which h projected) = length projected.
Proof. unfold head_slice. by rewrite length_fmap. Qed.

(** With no token in [y] the concatenation is [x], the slices [:N] are
    whole, and the self-attention pass of the joint branch is the pass of
    the plain branch. *)
Lemma attention_joint_sample_nil (x : list token) :
  fst (attention_joint_sample x []) = attention_self_sample x.
Proof.
  unfold Transformer.attention_joint_sample, Transformer.attention_self_sample.
  cbn [fst]. rewrite app_nil_r. do 2 f_equal.
  apply list_fmap_ext. intros _ h _.
  rewrite !take_ge; [done|..]; rewrite head_slice_length, length_fmap; lia.
Qed.

Lemma zip_with_replicate_r {A B C} (f : A -> B -> C) (b : B) (l : list A) :
  zip_with f l (replicate (length l) b) = (fun a => f a b) <$> l.
Proof. induction l as [|a l IH]; [done|]. simpl. by rewrite IH. Qed.

Lemma Attention_joint_empty_y (x : list (list token)) :
  exists y',
    Attention_forward_joint x (replicate (length x) []) = Ok (Attention_forward_self x, y').
Proof.
  unfold Transformer.Attention_forward_joint.
  rewrite decide_True by (by rewrite length_replicate).
  eexists. f_equal. f_equal.
  rewrite zip_with_replicate_r, <- list_fmap_compose.
  apply list_fmap_ext. intros _ s _. exact (attention_joint_sample_nil s).
Qed.

Lemma per_token_replicate_nil (f : token -> token) (n : nat) :
  per_token f (replicate n ([] : list (token (T := T)))) = replicate n [].
Proof. unfold per_token. by rewrite fmap_replicate. Qed.

Lemma per_token_length (f : token -> token) (x : list (list (token (T := T)))) :
  length (per_token f x) = length x.
Proof. unfold per_token. by rewrite length_fmap. Qed.

(** C3. For every input X of B sequences, the joint self+cross Block
    called with a Y of B sequences of length 0 returns for X exactly what
    the plain self-attention path of the same block returns on X. *)
Theorem Block_joint_empty_y (x : list (list token)) :
  exists y',
    Block_forward_joint x (replicate (length x) []) = Ok (Block_forward_self x, y').
Proof.
  unfold Transformer.Block_forward_joint, Transformer.Block_forward_self.
  rewrite per_token_replicate_nil.
  destruct (Attention_joint_empty_y (per_token (norm1 P) x)) as [y' Hy].
  rewrite per_token_length in Hy. rewrite Hy. cbn [rbind]. eexists. reflexivity.
Qed.
End Layers.

(** The two paths on a batch of two sequences of two tokens, with the
    example block. *)
Example Block_joint_empty_y_example :
  let x := [[[1; 2; 3]; [4; 5; 6]]; [[0; 1; 0]; [2; 2; 2]]] in
  Block_forward_self 0 Z.add Z.mul (fun l => l) example_block x
    = [[[3; 263; 523]; [15; 275; 535]]; [[-1; 35; -1]; [7; 7; 7]]] /\
  Block_forward_joint 0 Z.add Z.mul (fun l => l) example_block x [[]; []]
    = Ok ([[[3; 263; 523]; [15; 275; 535]]; [[-1; 35; -1]; [7; 7; 7]]], [[]; []]) /\
  Block_forward_joint 0 Z.add Z.mul (fun l => l) example_block x [[[1; 1; 1]]; [[2; 0; 2]]]
    = Ok ([[[3; 263; 523]; [15; 275; 535]]; [[-1; 35; -1]; [7; 7; 7]]],
          [[[3; 3; 3]]; [[7; -129; 7]]]).
Proof. vm_compute. repeat split. Qed.

End TransformerFacts.

(** *** Stacks of blocks: encoder, decoder, cross decoder *)

Module TransformerStackFacts.
Import Transformer TransformerStack.

Section Stack.
Context {T : Type}.
Variables (tzero : T) (tadd tmul : T -> T -> T).
Variable softmax : list T -> list T.

Local Abbreviation attention_self_sample := (attention_self_sample tzero tadd tmul softmax).
Local Abbreviation attention_joint_sample := (attention_joint_sample tzero tadd tmul softmax).
Local Abbreviation Attention_forward_self := (Attention_forward_self tzero tadd tmul softmax).
Local Abbreviation Attention_forward_joint := (Attention_forward_joint tzero tadd tmul softmax).
Local Abbreviation Block_forward_self := (Block_forward_self tzero tadd tmul softmax).
Local Abbreviation Block_forward_joint := (Block_forward_joint tzero tadd tmul softmax).
Local Abbreviation tensor_add := (tensor_add tadd).
Local Abbreviation TransformerEncoder_forward_self :=
  (TransformerEncoder_forward_self tzero tadd tmul softmax).
Local Abbreviation TransformerEncoder_forward_joint :=
  (TransformerEncoder_forward_joint tzero tadd tmul softmax).
Local Abbreviation decoder_blocks := (decoder_blocks tzero tadd tmul softmax).
Local Abbreviation cross_blocks := (cross_blocks tzero tadd tmul softmax).
Local Abbreviation cross_blocks_pos := (cross_blocks_pos tzero tadd tmul softmax).
Local Abbreviation TransformerDecoder_forward :=
  (TransformerDecoder_forward tzero tadd tmul softmax).
Local Abbreviation TransformerCrossDecoder_forward :=
  (TransformerCrossDecoder_forward tzero tadd tmul softmax).

Lemma head_slice_app (P : block_params (T := T)) (which h : nat) (a b : list token) :
  head_slice P which h (a ++ b) = head_slice P which h a ++ head_slice P which h b.
Proof. unfold head_slice. by rewrite fmap_app. Qed.

Lemma head_slice_take (P : block_params (T := T)) (which h : nat) (x y : list token) :
  take (length x) (head_slice P which h (qkv P <$> (x ++ y)))
    = head_slice P which h (qkv P <$> x).
Proof.
  rewrite fmap_app, head_slice_app. apply take_app_length'.
  unfold head_slice. by rewrite !length_fmap.
Qed.

(** The self-attention pass of the joint branch reads the first N tokens
    of q, k and v only, and these are the projections of [x]. *)
Lemma attention_joint_sample_fst (P : block_params (T := T)) (x y : list token) :
  fst (attention_joint_sample P x y) = attention_self_sample P x.
Proof.
  unfold Transformer.attention_joint_sample, Transformer.attention_self_sample.
  cbn [fst]. do 2 f_equal.
  apply list_fmap_ext. intros _ h _.
  by rewrite !head_slice_take.
Qed.

Lemma zip_with_fst_joint (P : block_params (T := T)) (x y : list (list token)) :
  length x = length y ->
  fst <$> zip_with (attention_joint_sample P) x y = Attention_forward_self P x.
Proof.
  revert y. induction x as [|s x IH]; intros [|r y] Hl; try done.
  simpl in Hl. cbn [zip_with fmap list_fmap].
  unfold Transformer.Attention_forward_self. cbn [fmap list_fmap]. f_equal.
  - exact (attention_joint_sample_fst P s r).
  - apply IH. lia.
Qed.

Lemma Attention_forward_joint_fst (P : block_params (T := T)) (x y : list (list token)) :
  length x = length y ->
  Attention_forward_joint P x y
    = Ok (Attention_forward_self P x, snd <$> zip_with (attention_joint_sample P) x y).
Proof.
  intros Hl. unfold Transformer.Attention_forward_joint.
  rewrite decide_True by done. cbn zeta. by rewrite zip_with_fst_joint.
Qed.

Lemma Attention_forward_joint_Ok (P : block_params (T := T)) (x y x' y' : list (list token)) :
  Attention_forward_joint P x y = Ok (x', y') -> length x = length y.
Proof.
  unfold Transformer.Attention_forward_joint. by destruct (decide (length x = length y)).
Qed.

Lemma per_token_batch_length (f : token -> token) (x : list (list (token (T := T)))) :
  length (per_token f x) = length x.
Proof. unfold per_token. by rewrite length_fmap. Qed.

Lemma Block_joint_fst (P : block_params (T := T)) (x y : list (list token)) :
  length x = length y ->
  exists y', Block_forward_joint P x y = Ok (Block_forward_self P x, y').
Proof.
  intros Hl.
  unfold Transformer.Block_forward_joint, Transformer.Block_forward_self.
  rewrite Attention_forward_joint_fst by (by rewrite !per_token_batch_length).
  cbn [rbind]. eexists. reflexivity.
Qed.


Lemma tensor_add_length (a b : list (list (token (T := T)))) :
  length (tensor_add a b) = (length a `min` length b)%nat.
Proof. unfold Transformer.tensor_add. by rewrite length_zip_with. Qed.

Lemma Block_self_length (P : block_params (T := T)) (x : list (list token)) :
  keeps_batch P -> length (Block_forward_self P x) = length x.
Proof.
  intros HP. unfold Transformer.Block_forward_self.
  rewrite !tensor_add_length, !HP, !per_token_batch_length, !tensor_add_length, HP.
  unfold Transformer.Attention_forward_self. rewrite length_fmap, per_token_batch_length. lia.
Qed.

Lemma Block_joint_snd_length (P : block_params (T := T)) (x y x' y' : list (list token)) :
  keeps_batch P -> Block_forward_joint P x y = Ok (x', y') -> length y' = length y.
Proof.
  intros HP. unfold Transformer.Block_forward_joint.
  destruct (Attention_forward_joint P _ _) as [[ax ay]|e] eqn:E; [|done].
  cbn [rbind]. intros [= _ <-].
  pose proof (Attention_forward_joint_Ok _ _ _ _ _ E) as Hl.
  rewrite !per_token_batch_length in Hl.
  unfold Transformer.Attention_forward_joint in E.
  rewrite decide_True in E by (by rewrite !per_token_batch_length).
  injection E as _ <-.
  rewrite !tensor_add_length, !HP, !per_token_batch_length, !tensor_add_length, HP.
  rewrite length_fmap, length_zip_with, !per_token_batch_length. lia.
Qed.

(** X1. A block called with tokens [y] of the same batch size returns for
    [x] what it returns when called on [x] alone, whatever [y] holds: the
    tokens of [y] query [x], and [x] never reads [y]. *)
Theorem Block_joint_x_ignores_y (P : block_params (T := T)) (x y : list (list token)) :
  length x = length y ->
  exists y', Block_forward_joint P x y = Ok (Block_forward_self P x, y').
Proof.
  intros Hl.
  unfold Transformer.Block_forward_joint, Transformer.Block_forward_self.
  assert (length (per_token (norm1 P) x) = length (per_token (norm1 P) y)) as Hn
    by (by rewrite !per_token_batch_length).
  rewrite (Attention_forward_joint_fst P _ _ Hn).
  cbn [rbind]. eexists. reflexivity.
Qed.

(** The joint pass through a stack of blocks returns, and what it returns
    for [x] is the plain pass. *)
Lemma encoder_joint_returns (blocks : list (block_params (T := T)))
    (x pos x_mask pos_mask : list (list token)) :
  Forall keeps_batch blocks ->
  length x = length pos -> length x_mask = length x -> length pos_mask = length x ->
  exists x_mask',
    TransformerEncoder_forward_joint blocks x pos x_mask pos_mask
      = Ok (TransformerEncoder_forward_self blocks x pos, x_mask') /\
    length x_mask' = length x_mask.
Proof.
  intros Hb. revert x x_mask.
  induction Hb as [|P blocks HP Hb IH]; intros x x_mask Hp Hm Hpm.
  - eexists. split; reflexivity.
  - cbn [TransformerStack.TransformerEncoder_forward_joint
         TransformerStack.TransformerEncoder_forward_self].
    assert (length (tensor_add x pos) = length (tensor_add x_mask pos_mask)) as Hl
      by (rewrite !tensor_add_length; lia).
    destruct (Block_joint_fst P _ _ Hl) as [y' Hy]. rewrite Hy. cbn [rbind].
    pose proof (Block_joint_snd_length _ _ _ _ _ HP Hy) as Hly.
    rewrite tensor_add_length in Hly.
    destruct (IH (Block_forward_self P (tensor_add x pos)) y') as (x_mask' & He & Hl').
    + rewrite Block_self_length, tensor_add_length by done. lia.
    + rewrite Hly, Block_self_length, !tensor_add_length by done. lia.
    + rewrite Block_self_length, tensor_add_length by done. lia.
    + exists x_mask'. split; [done|]. lia.
Qed.

(** X2. The encoder called with the masked tokens returns, for the
    visible tokens, exactly what it returns when called on the visible
    tokens alone: through the whole stack of blocks no feature of a
    masked token reaches a visible token. *)
Theorem TransformerEncoder_visible_ignores_masked (blocks : list (block_params (T := T)))
    (x pos x_mask pos_mask : list (list token)) :
  Forall keeps_batch blocks ->
  length x = length pos -> length x_mask = length x -> length pos_mask = length x ->
  exists x_mask',
    TransformerEncoder_forward_joint blocks x pos x_mask pos_mask
      = Ok (TransformerEncoder_forward_self blocks x pos, x_mask').
Proof.
  intros Hb. revert x x_mask.
  induction Hb as [|P blocks HP Hb IH]; intros x x_mask Hp Hm Hpm.
  - eexists. reflexivity.
  - cbn [TransformerStack.TransformerEncoder_forward_joint
         TransformerStack.TransformerEncoder_forward_self].
    assert (length (tensor_add x pos) = length (tensor_add x_mask pos_mask)) as Hl
      by (rewrite !tensor_add_length; lia).
    destruct (Block_joint_fst P _ _ Hl) as [y' Hy]. rewrite Hy. cbn [rbind].
    apply IH.
    + rewrite Block_self_length, tensor_add_length by done. lia.
    + rewrite (Block_joint_snd_length _ _ _ _ _ HP Hy).
      rewrite Block_self_length, !tensor_add_length by done. lia.
    + rewrite Block_self_length, tensor_add_length by done. lia.
Qed.

Lemma cross_blocks_self (blocks : list (block_params (T := T))) (x y : list (list token)) :
  Forall keeps_batch blocks -> length x = length y ->
  cross_blocks blocks x y = Ok (decoder_blocks blocks x).
Proof.
  intros Hb. revert x. induction Hb as [|P blocks HP Hb IH]; intros x Hl; [done|].
  cbn [TransformerStack.cross_blocks TransformerStack.decoder_blocks].
  destruct (Block_joint_fst P _ _ Hl) as [y' Hy]. rewrite Hy. cbn [rbind].
  apply IH. by rewrite Block_self_length.
Qed.

Lemma cross_blocks_pos_self (blocks : list (block_params (T := T)))
    (x pos y : list (list token)) :
  Forall keeps_batch blocks -> length x = length y -> length pos = length y ->
  cross_blocks_pos blocks x pos y = Ok (TransformerEncoder_forward_self blocks x pos).
Proof.
  intros Hb. revert x. induction Hb as [|P blocks HP Hb IH]; intros x Hl Hp; [done|].
  cbn [TransformerStack.cross_blocks_pos TransformerStack.TransformerEncoder_forward_self].
  assert (length (tensor_add x pos) = length y) as Hl'
    by (rewrite tensor_add_length; lia).
  destruct (Block_joint_fst P _ _ Hl') as [y' Hy]. rewrite Hy. cbn [rbind].
  apply IH; [|done]. by rewrite Block_self_length.
Qed.

(** X3. The cross decoder returns what the plain decoder with the same
    blocks returns on [x]: the tokens [y] it is given have no effect on
    its result. *)
Theorem TransformerCrossDecoder_ignores_y (blocks : list (block_params (T := T)))
    (norm : token -> token) (x y : list (list token)) (pos : option (list (list token)))
    (return_token_num : nat) :
  Forall keeps_batch blocks -> length x = length y ->
  (forall p, pos = Some p -> length p = length y) ->
  TransformerCrossDecoder_forward blocks norm x y pos return_token_num
    = Ok (TransformerDecoder_forward blocks norm x pos return_token_num).
Proof.
  intros Hb Hl Hp.
  unfold TransformerStack.TransformerCrossDecoder_forward,
    TransformerStack.TransformerDecoder_forward.
  destruct pos as [p|].
  - by rewrite cross_blocks_pos_self by auto.
  - by rewrite cross_blocks_self.
Qed.


Lemma seq_lens_per_token (f : token -> token) (x : list (list (token (T := T)))) :
  seq_lens (per_token f x) = seq_lens x.
Proof.
  unfold seq_lens, per_token. rewrite <- list_fmap_compose.
  apply list_fmap_ext. intros _ s _. simpl. by rewrite length_fmap.
Qed.

Lemma attention_self_sample_length (P : block_params (T := T)) (s : list token) :
  length (attention_self_sample P s) = length s.
Proof.
  unfold Transformer.attention_self_sample, project, merge_heads.
  by rewrite !length_fmap, length_seq.
Qed.

Lemma seq_lens_attention (P : block_params (T := T)) (x : list (list token)) :
  seq_lens (Attention_forward_self P x) = seq_lens x.
Proof.
  unfold seq_lens, Transformer.Attention_forward_self. rewrite <- list_fmap_compose.
  apply list_fmap_ext. intros _ s _. exact (attention_self_sample_length P s).
Qed.

Lemma seq_lens_tensor_add (a b : list (list (token (T := T)))) :
  seq_lens b = seq_lens a -> seq_lens (tensor_add a b) = seq_lens a.
Proof.
  unfold seq_lens, Transformer.tensor_add. revert b.
  induction a as [|s a IH]; intros [|r b] H; try done.
  cbn [fmap list_fmap] in H. injection H as Hl H. cbn [zip_with fmap list_fmap]. f_equal.
  - rewrite length_zip_with. unfold token in *. lia.
  - by apply IH.
Qed.

Lemma seq_lens_Block_self (P : block_params (T := T)) (x : list (list token)) :
  keeps_shape P -> seq_lens (Block_forward_self P x) = seq_lens x.
Proof.
  intros HP. unfold Transformer.Block_forward_self.
  assert (seq_lens (tensor_add x (drop_path P (Attention_forward_self P (per_token (norm1 P) x))))
          = seq_lens x) as H1.
  { apply seq_lens_tensor_add. by rewrite HP, seq_lens_attention, seq_lens_per_token. }
  rewrite seq_lens_tensor_add; [done|].
  by rewrite HP, !seq_lens_per_token.
Qed.

Lemma seq_lens_decoder_blocks (blocks : list (block_params (T := T))) (x : list (list token)) :
  Forall keeps_shape blocks -> seq_lens (decoder_blocks blocks x) = seq_lens x.
Proof.
  intros Hb. revert x. induction Hb as [|P blocks HP _ IH]; intros x; [done|].
  cbn [TransformerStack.decoder_blocks]. by rewrite IH, seq_lens_Block_self.
Qed.

Lemma seq_lens_encoder_self (blocks : list (block_params (T := T)))
    (x pos : list (list token)) :
  Forall keeps_shape blocks -> seq_lens pos = seq_lens x ->
  seq_lens (TransformerEncoder_forward_self blocks x pos) = seq_lens x.
Proof.
  intros Hb. revert x. induction Hb as [|P blocks HP _ IH]; intros x Hp; [done|].
  cbn [TransformerStack.TransformerEncoder_forward_self].
  assert (seq_lens (Block_forward_self P (tensor_add x pos)) = seq_lens x) as H1
    by (by rewrite seq_lens_Block_self, seq_lens_tensor_add).
  rewrite IH; [done|]. by rewrite H1.
Qed.

(** X4. The decoder keeps the batch; with positions it returns for every
    sample the last [return_token_num] of its N tokens (all N when N is
    smaller), and all N tokens for [return_token_num = 0], since the slice
    [-0:] is the whole sequence; without positions it returns N tokens. *)
Theorem TransformerDecoder_token_count (blocks : list (block_params (T := T)))
    (norm : token -> token) (x : list (list token)) (pos : option (list (list token)))
    (return_token_num : nat) :
  Forall keeps_shape blocks ->
  (forall p, pos = Some p -> seq_lens p = seq_lens x) ->
  seq_lens (TransformerDecoder_forward blocks norm x pos return_token_num)
  = match pos, return_token_num with
    | Some _, S _ => (fun N => return_token_num `min` N)%nat <$> seq_lens x
    | _, _ => seq_lens x
    end.
Proof.
  intros Hb Hp. unfold TransformerStack.TransformerDecoder_forward.
  destruct pos as [p|].
  - rewrite seq_lens_per_token.
    rewrite <- (seq_lens_encoder_self blocks x p Hb (Hp p eq_refl)).
    unfold seq_lens. rewrite <- list_fmap_compose.
    destruct return_token_num as [|k]; [done|].
    rewrite <- list_fmap_compose. apply list_fmap_ext. intros _ s _.
    unfold compose, py_slice_last. rewrite length_drop. unfold token in *. lia.
  - by rewrite seq_lens_per_token, seq_lens_decoder_blocks.
Qed.

End Stack.

(** The stacks on the example block. *)
Lemma example_block_keeps_batch : keeps_batch example_block.
Proof. intros t. reflexivity. Qed.

Lemma example_block_keeps_shape : keeps_shape example_block.
Proof. intros t. reflexivity. Qed.

Lemma Block_joint_x_ignores_y_witness :
  let x := [[[1; 2; 3]; [4; 5; 6]]; [[0; 1; 0]; [2; 2; 2]]] in
  let y := [[[1; 1; 1]]; [[2; 0; 2]; [5; 5; 1]]] in
  exists y',
    Block_forward_joint 0 Z.add Z.mul (fun l => l) example_block x y
    = Ok (Block_forward_self 0 Z.add Z.mul (fun l => l) example_block x, y').
Proof.
  intros x y.
  apply (Block_joint_x_ignores_y 0 Z.add Z.mul (fun l => l) example_block x y).
  reflexivity.
Defined.

Lemma TransformerEncoder_visible_ignores_masked_witness :
  let x := [[[1; 2; 3]; [4; 5; 6]]; [[0; 1; 0]; [2; 2; 2]]] in
  let pos := [[[1; 0; 0]; [0; 1; 0]]; [[0; 0; 1]; [1; 1; 0]]] in
  let x_mask := [[[7; 8; 9]]; [[1; 0; 1]]] in
  let pos_mask := [[[1; 1; 1]]; [[1; 1; 1]]] in
  exists x_mask',
    TransformerEncoder_forward_joint 0 Z.add Z.mul (fun l => l)
      [example_block; example_block] x pos x_mask pos_mask
    = Ok (TransformerEncoder_forward_self 0 Z.add Z.mul (fun l => l)
            [example_block; example_block] x pos, x_mask').
Proof.
  intros x pos x_mask pos_mask.
  apply (TransformerEncoder_visible_ignores_masked 0 Z.add Z.mul (fun l => l)
           [example_block; example_block] x pos x_mask pos_mask).
  - repeat constructor; exact example_block_keeps_batch.
  - reflexivity.
  - reflexivity.
  - reflexivity.
Defined.

Lemma TransformerCrossDecoder_ignores_y_witness :
  let x := [[[1; 2; 3]; [4; 5; 6]]; [[0; 1; 0]; [2; 2; 2]]] in
  let y := [[[7; 8; 9]]; [[1; 0; 1]]] in
  let pos := [[[1; 0; 0]; [0; 1; 0]]; [[0; 0; 1]; [1; 1; 0]]] in
  let norm := fun t : list Z => (fun v => v - hd 0 t) <$> t in
  TransformerCrossDecoder_forward 0 Z.add Z.mul (fun l => l)
    [example_block; example_block] norm x y (Some pos) 1
  = Ok (TransformerDecoder_forward 0 Z.add Z.mul (fun l => l)
          [example_block; example_block] norm x (Some pos) 1).
Proof.
  intros x y pos norm.
  apply (TransformerCrossDecoder_ignores_y 0 Z.add Z.mul (fun l => l)
           [example_block; example_block] norm x y (Some pos) 1).
  - repeat constructor; exact example_block_keeps_batch.
  - reflexivity.
  - intros p [= <-]. reflexivity.
Defined.

Lemma TransformerDecoder_token_count_witness :
  let x := [[[1; 2; 3]; [4; 5; 6]; [7; 8; 9]]; [[0; 1; 0]; [2; 2; 2]; [1; 0; 1]]] in
  let pos := [[[1; 0; 0]; [0; 1; 0]; [0; 0; 1]]; [[0; 0; 1]; [1; 1; 0]; [1; 1; 1]]] in
  let norm := fun t : list Z => (fun v => v - hd 0 t) <$> t in
  seq_lens (TransformerDecoder_forward 0 Z.add Z.mul (fun l => l)
              [example_block; example_block] norm x (Some pos) 2) = [2; 2]%nat /\
  seq_lens (TransformerDecoder_forward 0 Z.add Z.mul (fun l => l)
              [example_block; example_block] norm x (Some pos) 0) = [3; 3]%nat.
Proof.
  intros x pos norm. split.
  - apply (TransformerDecoder_token_count 0 Z.add Z.mul (fun l => l)
             [example_block; example_block] norm x (Some pos) 2).
    + repeat constructor; exact example_block_keeps_shape.
    + intros p [= <-]. reflexivity.
  - apply (TransformerDecoder_token_count 0 Z.add Z.mul (fun l => l)
             [example_block; example_block] norm x (Some pos) 0).
    + repeat constructor; exact example_block_keeps_shape.
    + intros p [= <-]. reflexivity.
Defined.

End TransformerStackFacts.

(** *** The point encoder *)

Module PointEncoderFacts.
Import PointEncoder.

Lemma Forall2_perm_concat {A} (l l' : list (list A)) :
  Forall2 (≡ₚ) l l' -> concat l ≡ₚ concat l'.
Proof. induction 1 as [|x y l l' Hxy _ IH]; [done|]. simpl. by rewrite Hxy, IH. Qed.

Lemma Forall2_perm_fmap {A B} (f : A -> B) (l l' : list (list A)) :
  Forall2 (≡ₚ) l l' ->
  Forall2 (≡ₚ) ((fun grp : list A => f <$> grp) <$> l) ((fun grp : list A => f <$> grp) <$> l').
Proof.
  intros H. apply Forall2_fmap. eapply Forall2_impl; [exact H|].
  intros x y Hxy. simpl. by rewrite Hxy.
Qed.

Section Encoder.
Context {T : Type}.
Variable tmax : T -> T -> T.
Variable first_conv : conv_block (T := T) point.
Variable second_conv : conv_block (T := T) (feat (T := T)).
Hypothesis Hspec : encoder_spec tmax first_conv second_conv.

Lemma vmax_comm (a b : feat) : vmax tmax a b = vmax tmax b a.
Proof.
  unfold vmax. revert b. induction a as [|x a IH]; intros [|y b]; simpl; [done..|].
  by rewrite (tmax_comm _ _ _ Hspec x y), IH.
Qed.

Lemma vmax_assoc (a b c : feat) :
  vmax tmax a (vmax tmax b c) = vmax tmax (vmax tmax a b) c.
Proof.
  unfold vmax. revert b c. induction a as [|x a IH]; intros [|y b] [|z c]; simpl; [done..|].
  by rewrite (tmax_assoc _ _ _ Hspec x y z), IH.
Qed.

Lemma max_pool_perm (l l' : list (feat (T := T))) :
  l ≡ₚ l' -> max_pool tmax l = max_pool tmax l'.
Proof.
  intros H. unfold max_pool.
  assert (foldr (max_acc tmax) None l = foldr (max_acc tmax) None l') as ->; [|done].
  induction H as [|x l l' _ IH|x y l|l l' l'' _ IH1 _ IH2]; simpl.
  - done.
  - by rewrite IH.
  - destruct (foldr (max_acc tmax) None l) as [a|]; unfold max_acc; f_equal.
    + by rewrite !vmax_assoc, (vmax_comm y x).
    + apply vmax_comm.
  - congruence.
Qed.

Lemma res_mapM_max_pool_perm (f f' : list (list (feat (T := T)))) :
  Forall2 (≡ₚ) f f' -> res_mapM (max_pool tmax) f = res_mapM (max_pool tmax) f'.
Proof.
  induction 1 as [|x y l l' Hxy _ IH]; [done|]. simpl.
  by rewrite (max_pool_perm x y Hxy), IH.
Qed.

Lemma apply_conv_perm {A} (c : conv_block (T := T) A) (groups groups' : list (list A)) :
  (forall l l' : list feat, l ≡ₚ l' -> batch_norm c l = batch_norm c l') ->
  Forall2 (≡ₚ) groups groups' ->
  Forall2 (≡ₚ) (apply_conv c groups) (apply_conv c groups').
Proof.
  intros Hsym H. unfold apply_conv.
  rewrite (Hsym _ (concat ((fun grp : list A => conv_a c <$> grp) <$> groups'))).
  - by do 2 apply Forall2_perm_fmap.
  - by apply Forall2_perm_concat, Forall2_perm_fmap.
Qed.

Lemma cat_global_perm (fg : list feat) (f f' : list (list (feat (T := T)))) :
  Forall2 (≡ₚ) f f' -> Forall2 (≡ₚ) (cat_global fg f) (cat_global fg f').
Proof.
  intros H. revert fg. induction H as [|x y l l' Hxy _ IH]; intros [|v fg]; simpl;
    try constructor; [by rewrite Hxy|apply IH].
Qed.

(** Reordering the points inside any of the groups leaves the embedding
    unchanged. *)
Lemma Encoder_forward_perm (pg pg' : list (list (list point))) :
  Forall2 (Forall2 (≡ₚ)) pg pg' ->
  Encoder_forward tmax first_conv second_conv pg'
  = Encoder_forward tmax first_conv second_conv pg.
Proof.
  intros H. unfold Encoder_forward.
  assert (length pg' = length pg) as -> by (symmetry; eapply Forall2_length; eauto).
  assert (length (hd [] pg') = length (hd [] pg)) as ->.
  { destruct H as [|x y ? ? Hxy _]; [done|]. simpl. symmetry. eapply Forall2_length; eauto. }
  assert (Forall2 (≡ₚ) (concat pg) (concat pg')) as Hc.
  { clear -H. induction H as [|x y l l' Hxy _ IH]; [constructor|].
    simpl. by apply Forall2_app. }
  pose proof (apply_conv_perm first_conv _ _ (first_norm_sym _ _ _ Hspec) Hc) as H1.
  rewrite <- (res_mapM_max_pool_perm _ _ H1).
  destruct (res_mapM (max_pool tmax) (apply_conv first_conv (concat pg))) as [fg|];
    [|done]. cbn [rbind].
  pose proof (apply_conv_perm second_conv _ _ (second_norm_sym _ _ _ Hspec)
                (cat_global_perm fg _ _ H1)) as H2.
  by rewrite <- (res_mapM_max_pool_perm _ _ H2).
Qed.

(** C4. For every B x G x M x 3 input and every reordering of the points
    of one group, the features the Encoder returns are the same. *)
Theorem Encoder_forward_permutation_invariant (point_groups : list (list (list point)))
    (b g : nat) (groups : list (list point)) (grp grp' : list point) :
  point_groups !! b = Some groups -> groups !! g = Some grp -> grp ≡ₚ grp' ->
  Encoder_forward tmax first_conv second_conv (<[b := <[g := grp']> groups]> point_groups)
  = Encoder_forward tmax first_conv second_conv point_groups.
Proof.
  intros Hb Hg Hp. apply Encoder_forward_perm.
  apply Forall2_same_length_lookup. split; [by rewrite length_insert|].
  intros i x y Hx Hy.
  destruct (decide (i = b)) as [->|Hne].
  - rewrite list_lookup_insert_eq in Hy by (eapply lookup_lt_Some; eauto).
    simplify_eq.
    apply Forall2_same_length_lookup. split; [by rewrite length_insert|].
    intros j u v Hu Hv.
    destruct (decide (j = g)) as [->|Hne].
    + rewrite list_lookup_insert_eq in Hv by (eapply lookup_lt_Some; eauto).
      by simplify_eq.
    + rewrite list_lookup_insert_ne in Hv by done. by simplify_eq.
  - rewrite list_lookup_insert_ne in Hy by done. simplify_eq.
    apply Forall2_same_length_lookup. split; [done|]. intros; by simplify_eq.
Qed.
End Encoder.

Lemma example_encoder_spec : encoder_spec Z.max example_first_conv example_second_conv.
Proof.
  split.
  - intros a b. apply Z.max_comm.
  - intros a b c. apply Z.max_assoc.
  - intros l l' H. change (example_norm l = example_norm l'). unfold example_norm, feat in *.
    by rewrite (Permutation_length H).
  - intros l l' H. change (example_norm l = example_norm l'). unfold example_norm, feat in *.
    by rewrite (Permutation_length H).
Qed.

Lemma Encoder_forward_permutation_invariant_witness :
  let pg := [[[(1, 2, 3); (4, 0, 1); (0, 0, 7)]; [(1, 1, 1); (2, 2, 2); (5, 0, 0)]]] in
  Encoder_forward Z.max example_first_conv example_second_conv
    [[[(0, 0, 7); (1, 2, 3); (4, 0, 1)]; [(1, 1, 1); (2, 2, 2); (5, 0, 0)]]]
  = Encoder_forward Z.max example_first_conv example_second_conv pg.
Proof.
  intros pg.
  apply (Encoder_forward_permutation_invariant Z.max example_first_conv example_second_conv
           example_encoder_spec pg 0 0
           [[(1, 2, 3); (4, 0, 1); (0, 0, 7)]; [(1, 1, 1); (2, 2, 2); (5, 0, 0)]]
           [(1, 2, 3); (4, 0, 1); (0, 0, 7)] [(0, 0, 7); (1, 2, 3); (4, 0, 1)]).
  - reflexivity.
  - reflexivity.
  - change [(0, 0, 7); (1, 2, 3); (4, 0, 1)] with ([(0, 0, 7)] ++ [(1, 2, 3); (4, 0, 1)]).
    change [(1, 2, 3); (4, 0, 1); (0, 0, 7)] with ([(1, 2, 3); (4, 0, 1)] ++ [(0, 0, 7)]).
    apply Permutation_app_comm.
Defined.

End PointEncoderFacts.

(** *** The Encoder in evaluation mode *)

Module EncoderEvalFacts.
Import PointEncoder EncoderEval.

(** The rows of a rectangular tensor and the rows cut from its
    flattening. *)
Lemma Forall2_chunks {A B} (R : A -> B -> Prop) (G : nat) (pg : list (list A)) :
  forall fs : list B,
  Forall (fun row => length row = G) pg ->
  Forall2 R (concat pg) fs ->
  Forall2 (Forall2 R) pg (chunks (length pg) G fs).
Proof.
  induction pg as [|row pg IH]; intros fs Hrect H; [constructor|].
  apply Forall_cons in Hrect as [Hrow Hrect]. cbn [concat] in H.
  apply Forall2_app_inv_l in H as (fs1 & fs2 & H1 & H2 & ->).
  assert (length fs1 = G) as Hl by (rewrite <- (Forall2_length _ _ _ H1); done).
  cbn [length chunks]. rewrite take_app_length', drop_app_length' by done.
  constructor; [done|]. by apply IH.
Qed.

Section Eval.
Context {T : Type}.
Variable tmax : T -> T -> T.
Variable first_conv : conv_block (T := T) point.
Variable second_conv : conv_block (T := T) (feat (T := T)).
Hypothesis Hfirst : eval_mode first_conv.
Hypothesis Hsecond : eval_mode second_conv.

Lemma apply_conv_eval {A} (c : conv_block (T := T) A) (groups : list (list A)) :
  eval_mode c ->
  apply_conv c groups = (fun grp : list A => pointwise c <$> grp) <$> groups.
Proof.
  intros Hc. unfold apply_conv. rewrite <- list_fmap_compose.
  apply list_fmap_ext. intros _ grp _. unfold compose.
  rewrite <- list_fmap_compose. apply list_fmap_ext. intros _ a _.
  unfold compose, pointwise. by rewrite (Hc _ []).
Qed.

Lemma max_pool_cons (v : feat (T := T)) (l : list (feat (T := T))) :
  exists m, max_pool tmax (v :: l) = Ok m.
Proof. unfold max_pool. cbn [foldr]. unfold max_acc at 1. by eexists. Qed.

(** The two stages of the Encoder on all the groups, and the embedding
    group by group. *)
Lemma stages_by_group (groups : list (list point)) :
  (do fg <- res_mapM (max_pool tmax)
              ((fun grp : list point => pointwise first_conv <$> grp) <$> groups);
   res_mapM (max_pool tmax)
     ((fun grp : list feat => pointwise second_conv <$> grp)
        <$> cat_global fg ((fun grp : list point => pointwise first_conv <$> grp) <$> groups)))
  = res_mapM (Encoder_group tmax first_conv second_conv) groups.
Proof.
  induction groups as [|grp groups IH]; [done|].
  rewrite fmap_cons. cbn [res_mapM]. rewrite <- IH. clear IH.
  unfold Encoder_group at 1.
  destruct grp as [|p grp].
  { done. }
  set (f1 := pointwise first_conv <$> p :: grp).
  destruct (max_pool_cons (pointwise first_conv p) (pointwise first_conv <$> grp)) as [m Hm].
  change (max_pool tmax f1 = Ok m) in Hm. rewrite Hm. cbn [rbind].
  destruct (max_pool_cons (pointwise second_conv (m ++ pointwise first_conv p))
              ((fun v => pointwise second_conv (m ++ v)) <$> (pointwise first_conv <$> grp)))
    as [m2 Hm2].
  assert (max_pool tmax ((fun v => pointwise second_conv (m ++ v)) <$> f1) = Ok m2) as Hm2'
    by exact Hm2.
  rewrite Hm2'. cbn [rbind].
  destruct (res_mapM (max_pool tmax)
              ((fun grp0 : list point => pointwise first_conv <$> grp0) <$> groups))
    as [fg|e]; [|done].
  cbn [rbind]. unfold cat_global. cbn [zip_with]. rewrite fmap_cons. cbn [res_mapM].
  assert (pointwise second_conv <$> ((fun v : list T => m ++ v) <$> f1)
          = (fun v => pointwise second_conv (m ++ v)) <$> f1) as ->
    by (by rewrite <- list_fmap_compose).
  rewrite Hm2'. cbn [rbind]. done.
Qed.

Lemma Encoder_group_ok (grp : list point) :
  is_Ok (Encoder_group tmax first_conv second_conv grp) <-> grp <> [].
Proof.
  unfold Encoder_group. destruct grp as [|p grp].
  - split; [intros [f H]; done|done].
  - split; [done|intros _].
    destruct (max_pool_cons (pointwise first_conv p) (pointwise first_conv <$> grp)) as [m Hm].
    rewrite fmap_cons, Hm. cbn [rbind]. rewrite fmap_cons.
    destruct (max_pool_cons (pointwise second_conv (m ++ pointwise first_conv p))
                ((fun v => pointwise second_conv (m ++ v)) <$> (pointwise first_conv <$> grp)))
      as [m2 Hm2].
    by exists m2.
Qed.

Lemma res_mapM_is_Ok {A B} (f : A -> result B) (l : list A) :
  is_Ok (res_mapM f l) <-> Forall (fun a => is_Ok (f a)) l.
Proof.
  split; [|apply ResultFacts.res_mapM_ok].
  intros [l' H]. apply ResultFacts.res_mapM_Forall2 in H.
  induction H as [|a b l l' Hab _ IH]; constructor; [by exists b|done].
Qed.

Lemma Encoder_forward_groups (point_groups : list (list (list point))) :
  Encoder_forward tmax first_conv second_conv point_groups
  = (do fs <- res_mapM (Encoder_group tmax first_conv second_conv) (concat point_groups);
     Ok (chunks (length point_groups) (length (hd [] point_groups)) fs)).
Proof.
  unfold Encoder_forward.
  rewrite (apply_conv_eval first_conv _ Hfirst).
  rewrite <- stages_by_group.
  destruct (res_mapM (max_pool tmax) _) as [fg|e]; [|done]. cbn [rbind].
  by rewrite (apply_conv_eval second_conv _ Hsecond).
Qed.

(** The tokens of a batch of non-empty groups. *)
Lemma Encoder_forward_tokens (point_groups : list (list (list point))) (G : nat) :
  point_groups <> [] ->
  Forall (fun groups => length groups = G /\ Forall (fun grp => grp <> []) groups)
         point_groups ->
  exists tokens,
    Encoder_forward tmax first_conv second_conv point_groups = Ok tokens /\
    Forall2 (Forall2 (fun grp f => Encoder_group tmax first_conv second_conv grp = Ok f))
            point_groups tokens.
Proof.
  intros Hne Hall. rewrite Encoder_forward_groups.
  destruct (proj2 (res_mapM_is_Ok (Encoder_group tmax first_conv second_conv)
                     (concat point_groups))) as [fs Hfs].
  { apply Forall_concat. eapply Forall_impl; [exact Hall|]. intros groups [_ Hg].
    eapply Forall_impl; [exact Hg|]. intros grp Hgrp. by apply Encoder_group_ok. }
  rewrite Hfs. cbn [rbind]. eexists. split; [reflexivity|].
  assert (length (hd [] point_groups) = G) as ->.
  { destruct point_groups as [|groups pg]; [done|].
    by apply Forall_cons in Hall as [[? _] _]. }
  apply Forall2_chunks.
  - eapply Forall_impl; [exact Hall|]. by intros groups [? _].
  - by apply ResultFacts.res_mapM_Forall2.
Qed.

(** X15. In evaluation mode the Encoder embeds every group on its own:
    what [Encoder.forward] returns is, group by group, the embedding of
    that group alone, reshaped to (B, G, C); and with at least one group
    it returns exactly when no group is without points. *)
Theorem Encoder_forward_by_group (point_groups : list (list (list point))) :
  Encoder_forward tmax first_conv second_conv point_groups
  = (do fs <- res_mapM (Encoder_group tmax first_conv second_conv) (concat point_groups);
     Ok (chunks (length point_groups) (length (hd [] point_groups)) fs)) /\
  (concat point_groups <> [] ->
   is_Ok (Encoder_forward tmax first_conv second_conv point_groups)
   <-> Forall (fun grp => grp <> []) (concat point_groups)).
Proof.
  pose proof (Encoder_forward_groups point_groups) as Heq.
  split; [exact Heq|]. intros _. rewrite Heq.
  rewrite <- (Forall_iff _ _ _ Encoder_group_ok), <- res_mapM_is_Ok.
  destruct (res_mapM (Encoder_group tmax first_conv second_conv) (concat point_groups))
    as [fs|e]; cbn [rbind].
  - split; intros _; by eexists.
  - split; intros [? ?]; done.
Qed.

End Eval.

Lemma eval_first_conv_eval_mode : eval_mode eval_first_conv.
Proof. intros l l'. reflexivity. Qed.

Lemma eval_second_conv_eval_mode : eval_mode eval_second_conv.
Proof. intros l l'. reflexivity. Qed.

Lemma Encoder_forward_by_group_witness :
  let pg := [[[(1, 2, 3); (4, 0, 1)]; [(1, 1, 1); (2, 2, 2)]]] in
  Encoder_forward Z.max eval_first_conv eval_second_conv pg
  = (do fs <- res_mapM (Encoder_group Z.max eval_first_conv eval_second_conv) (concat pg);
     Ok (chunks (length pg) (length (hd [] pg)) fs)) /\
  (is_Ok (Encoder_forward Z.max eval_first_conv eval_second_conv pg)
   <-> Forall (fun grp => grp <> []) (concat pg)).
Proof.
  intros pg.
  destruct (Encoder_forward_by_group Z.max eval_first_conv eval_second_conv
              eval_first_conv_eval_mode eval_second_conv_eval_mode pg) as [H1 H2].
  split; [exact H1|]. apply H2. discriminate.
Defined.

End EncoderEvalFacts.

(** *** The projection to a pseudo-image *)

Module ProjectionFacts.
Import Projection.

(** *** Minima and maxima *)

Lemma foldl_zmin_spec (l : list Z) : forall a,
  foldl Z.min a l <= a /\ Forall (fun z => foldl Z.min a l <= z) l /\
  (foldl Z.min a l = a \/ foldl Z.min a l ∈ l).
Proof.
  induction l as [|x l IH]; intros a; simpl.
  - split; [lia|]. split; [constructor|by left].
  - destruct (IH (Z.min a x)) as (H1 & H2 & H3).
    split; [lia|]. split; [constructor; [lia|done]|].
    destruct H3 as [H3|H3]; [|right; by right].
    destruct (Z.min_spec a x) as [[_ He]|[_ He]].
    + left. lia.
    + right. rewrite H3, He. left.
Qed.

Lemma foldl_zmax_spec (l : list Z) : forall a,
  a <= foldl Z.max a l /\ Forall (fun z => z <= foldl Z.max a l) l /\
  (foldl Z.max a l = a \/ foldl Z.max a l ∈ l).
Proof.
  induction l as [|x l IH]; intros a; simpl.
  - split; [lia|]. split; [constructor|by left].
  - destruct (IH (Z.max a x)) as (H1 & H2 & H3).
    split; [lia|]. split; [constructor; [lia|done]|].
    destruct H3 as [H3|H3]; [|right; by right].
    destruct (Z.max_spec a x) as [[_ He]|[_ He]].
    + right. rewrite H3, He. left.
    + left. lia.
Qed.

Lemma zmin_list_spec (l : list Z) :
  l <> [] -> exists m, zmin_list l = Ok m /\ Forall (fun z => m <= z) l /\ m ∈ l.
Proof.
  destruct l as [|a l]; [done|]. intros _. exists (foldl Z.min a l).
  destruct (foldl_zmin_spec l a) as (H1 & H2 & H3).
  split; [done|]. split; [by constructor|].
  destruct H3 as [->|H3]; [left|by right].
Qed.

Lemma zmax_list_spec (l : list Z) :
  l <> [] -> exists m, zmax_list l = Ok m /\ Forall (fun z => z <= m) l /\ m ∈ l.
Proof.
  destruct l as [|a l]; [done|]. intros _. exists (foldl Z.max a l).
  destruct (foldl_zmax_spec l a) as (H1 & H2 & H3).
  split; [done|]. split; [by constructor|].
  destruct H3 as [->|H3]; [left|by right].
Qed.

Lemma foldl_fmin_spec (lo hi : Z) (l : list fnum) : forall a,
  lo <= a <= hi -> Forall (fin_in lo hi) l ->
  exists m, foldl fmin2 (Fin a) l = Fin m /\ lo <= m <= a /\
            Forall (fun v => exists z, v = Fin z /\ m <= z) l.
Proof.
  induction l as [|x l IH]; intros a Ha Hl; simpl.
  - exists a. split; [done|]. split; [lia|constructor].
  - apply Forall_cons in Hl as [(z & -> & Hz) Hl]. simpl.
    destruct (IH (Z.min a z) ltac:(lia) Hl) as (m & Hm & Hb & Hall).
    exists m. split; [done|]. split; [lia|].
    constructor; [exists z; split; [done|lia]|done].
Qed.

Lemma foldl_fmax_spec (lo hi : Z) (l : list fnum) : forall a,
  lo <= a <= hi -> Forall (fin_in lo hi) l ->
  exists m, foldl fmax2 (Fin a) l = Fin m /\ a <= m <= hi /\
            Forall (fun v => exists z, v = Fin z /\ z <= m) l.
Proof.
  induction l as [|x l IH]; intros a Ha Hl; simpl.
  - exists a. split; [done|]. split; [lia|constructor].
  - apply Forall_cons in Hl as [(z & -> & Hz) Hl]. simpl.
    destruct (IH (Z.max a z) ltac:(lia) Hl) as (m & Hm & Hb & Hall).
    exists m. split; [done|]. split; [lia|].
    constructor; [exists z; split; [done|lia]|done].
Qed.

Lemma fmin_list_spec (lo hi : Z) (l : list fnum) :
  l <> [] -> Forall (fin_in lo hi) l ->
  exists m, fmin_list l = Ok (Fin m) /\ lo <= m <= hi /\
            Forall (fun v => exists z, v = Fin z /\ m <= z) l.
Proof.
  destruct l as [|a l]; [done|]. intros _ Hl.
  apply Forall_cons in Hl as [(z & -> & Hz) Hl].
  destruct (foldl_fmin_spec lo hi l z Hz Hl) as (m & Hm & Hb & Hall).
  exists m. split; [by simpl; rewrite Hm|]. split; [lia|].
  constructor; [exists z; split; [done|lia]|done].
Qed.

Lemma fmax_list_spec (lo hi : Z) (l : list fnum) :
  l <> [] -> Forall (fin_in lo hi) l ->
  exists m, fmax_list l = Ok (Fin m) /\ lo <= m <= hi /\
            Forall (fun v => exists z, v = Fin z /\ z <= m) l.
Proof.
  destruct l as [|a l]; [done|]. intros _ Hl.
  apply Forall_cons in Hl as [(z & -> & Hz) Hl].
  destruct (foldl_fmax_spec lo hi l z Hz Hl) as (m & Hm & Hb & Hall).
  exists m. split; [by simpl; rewrite Hm|]. split; [lia|].
  constructor; [exists z; split; [done|lia]|done].
Qed.

(** NaN anywhere makes the minimum and the maximum NaN. *)
Lemma foldl_fmin_NaN (l : list fnum) : foldl fmin2 NaN l = NaN.
Proof. induction l as [|x l IH]; [done|]. simpl. exact IH. Qed.

Lemma foldl_fmax_NaN (l : list fnum) : foldl fmax2 NaN l = NaN.
Proof. induction l as [|x l IH]; [done|]. simpl. exact IH. Qed.

Lemma foldl_fmin_has_NaN (l : list fnum) : forall a,
  NaN ∈ l -> foldl fmin2 a l = NaN.
Proof.
  induction l as [|x l IH]; intros a Hin; [by apply elem_of_nil in Hin|].
  apply elem_of_cons in Hin as [<-|Hin]; simpl.
  - destruct a; apply foldl_fmin_NaN.
  - by apply IH.
Qed.

Lemma fmin_list_NaN (l : list fnum) : NaN ∈ l -> fmin_list l = Ok NaN.
Proof.
  destruct l as [|a l]; intros Hin; [by apply elem_of_nil in Hin|].
  simpl. f_equal. apply elem_of_cons in Hin as [<-|Hin];
    [apply foldl_fmin_NaN|by apply foldl_fmin_has_NaN].
Qed.

(** *** Quantization *)

Lemma quantize_pos (p : positive) (a : Z) :
  quantize (inject_Z (Zpos p) / inject_Z (img_size - 3))%Q a = Fin (a * 221 / Zpos p).
Proof.
  unfold quantize, img_size. simpl.
  unfold Qfloor, Qdiv, Qmult, Qinv, inject_Z. simpl.
  rewrite !Pos.mul_1_r. destruct a; simpl; rewrite ?Pos.mul_1_r; done.
Qed.

Lemma quantize_zero (a : Z) :
  quantize (inject_Z 0 / inject_Z (img_size - 3))%Q a = NaN.
Proof. reflexivity. Qed.

Lemma quantize_bounds (r a : Z) :
  0 < r -> 0 <= a <= r ->
  fin_in 0 221 (quantize (inject_Z r / inject_Z (img_size - 3))%Q a).
Proof.
  intros Hr Ha. destruct r as [|p|p]; try lia.
  rewrite quantize_pos. eexists. split; [done|]. split.
  - apply Z.div_pos; lia.
  - apply Z.div_le_upper_bound; lia.
Qed.

Section Proj.
Variable nan_int : Z.

Lemma recenter_clip_bounds (lo hi v : Z) :
  -1 <= lo -> lo <= v <= hi -> hi <= 224 ->
  fin_in 0 223
    (clip (fadd (Fin v) (img_size / 2 - to_int nan_int (fhalf (fadd2 (Fin hi) (Fin lo))) - 1))).
Proof.
  intros Hlo Hv Hhi. unfold clip, fadd, fhalf, fadd2, to_int, flt, fgt, img_size, b2z.
  change (224 / 2) with 112.
  pose proof (Z.div_mod (hi + lo) 2 ltac:(lia)) as Hd.
  pose proof (Z.mod_pos_bound (hi + lo) 2 ltac:(lia)) as Hm.
  set (c := (hi + lo) / 2) in *.
  destruct (Z.ltb_spec (v + (112 - c - 1)) 0), (Z.ltb_spec 223 (v + (112 - c - 1)));
    eexists; (split; [reflexivity|lia]).
Qed.

Lemma axis_ok (vals : list fnum) :
  vals <> [] -> Forall (fin_in (-1) 224) vals ->
  exists hi lo,
    fmax_list vals = Ok (Fin hi) /\ fmin_list vals = Ok (Fin lo) /\
    Forall (fun v => fin_in 0 223
              (clip (fadd v (img_size / 2
                             - to_int nan_int (fhalf (fadd2 (Fin hi) (Fin lo))) - 1)))) vals.
Proof.
  intros Hne Hall.
  destruct (fmax_list_spec (-1) 224 vals Hne Hall) as (hi & Hhi & Hbhi & Hahi).
  destruct (fmin_list_spec (-1) 224 vals Hne Hall) as (lo & Hlo & Hblo & Halo).
  exists hi, lo. split; [done|]. split; [done|].
  apply Forall_forall. intros v Hv.
  destruct (proj1 (Forall_forall _ _) Hahi v Hv) as (z & Hzv & Hz1).
  destruct (proj1 (Forall_forall _ _) Halo v Hv) as (z' & Hzv' & Hz2).
  subst v. injection Hzv' as <-.
  apply recenter_clip_bounds; lia.
Qed.


Lemma img_offset_bounds :
  Forall (fun o : Z * Z => (-2 <= o.1 <= 2) /\ (-2 <= o.2 <= 2)) img_offset.
Proof. unfold img_offset. repeat constructor; simpl; lia. Qed.

Lemma densify_length (idx_xy : list (fnum * fnum)) :
  length (densify idx_xy) = (25 * length idx_xy)%nat.
Proof.
  unfold densify. induction idx_xy as [|i l IH]; [done|].
  rewrite fmap_cons, concat_cons, length_app, IH, length_fmap.
  change (length img_offset) with 25%nat. simpl. lia.
Qed.

Lemma densify_bounds (idx_xy : list (fnum * fnum)) :
  Forall (fun i => fin_in 0 221 i.1 /\ fin_in 0 221 i.2) idx_xy ->
  Forall (fun i => fin_in (-1) 224 i.1 /\ fin_in (-1) 224 i.2) (densify idx_xy).
Proof.
  intros H. unfold densify. apply Forall_concat, Forall_fmap.
  eapply Forall_impl; [exact H|]. intros [x y] [(a & Ea & Ha) (b & Eb & Hb)].
  cbn [fst snd] in Ea, Eb. subst x y. cbn [fst snd].
  apply Forall_fmap. eapply Forall_impl; [exact img_offset_bounds|].
  intros [ox oy] [Hx Hy]. simpl in *.
  split; eexists; (split; [reflexivity|lia]).
Qed.

Lemma xy_extent_inv (cloud : list point) (r : Z) :
  xy_extent cloud = Ok r ->
  cloud <> [] /\
  exists xmax ymax xmin ymin,
    zmax_list (px <$> cloud) = Ok xmax /\ zmax_list (py <$> cloud) = Ok ymax /\
    zmin_list (px <$> cloud) = Ok xmin /\ zmin_list (py <$> cloud) = Ok ymin /\
    r = Z.max (xmax - xmin) (ymax - ymin) /\
    Forall (fun p => xmin <= px p <= xmax /\ ymin <= py p <= ymax) cloud.
Proof.
  intros H. destruct cloud as [|p0 cloud]; [discriminate|]. split; [done|].
  set (cl := p0 :: cloud) in *.
  assert (px <$> cl <> []) as Hx by done. assert (py <$> cl <> []) as Hy by done.
  destruct (zmax_list_spec _ Hx) as (xmax & Exmax & Hxmax & _).
  destruct (zmax_list_spec _ Hy) as (ymax & Eymax & Hymax & _).
  destruct (zmin_list_spec _ Hx) as (xmin & Exmin & Hxmin & _).
  destruct (zmin_list_spec _ Hy) as (ymin & Eymin & Hymin & _).
  exists xmax, ymax, xmin, ymin. repeat (split; [done|]).
  unfold xy_extent in H. rewrite Exmax, Eymax, Exmin, Eymin in H. simpl in H.
  split; [congruence|].
  apply Forall_forall. intros p Hp.
  pose proof (proj1 (Forall_forall _ _) Hxmax (px p) (list_elem_of_fmap_2 px _ _ Hp)).
  pose proof (proj1 (Forall_forall _ _) Hxmin (px p) (list_elem_of_fmap_2 px _ _ Hp)).
  pose proof (proj1 (Forall_forall _ _) Hymax (py p) (list_elem_of_fmap_2 py _ _ Hp)).
  pose proof (proj1 (Forall_forall _ _) Hymin (py p) (list_elem_of_fmap_2 py _ _ Hp)).
  simpl in *. lia.
Qed.

Lemma project_cloud_ok (cloud : list point) (r : Z) :
  xy_extent cloud = Ok r -> 0 < r ->
  exists c,
    project_cloud nan_int cloud = Ok c /\
    Forall (fun i => fin_in 0 223 i.1 /\ fin_in 0 223 i.2) (cp_index c) /\
    length (cp_index c) = (25 * length cloud)%nat /\
    cp_f_dense c = concat ((fun p => replicate 25 (replicate 3 (pz p))) <$> cloud) /\
    cp_grid_size c = (inject_Z r / inject_Z (img_size - 3))%Q.
Proof.
  intros Hext Hr.
  destruct (xy_extent_inv cloud r Hext)
    as (Hne & xmax & ymax & xmin & ymin & Exmax & Eymax & Exmin & Eymin & -> & Hall).
  unfold project_cloud. rewrite Exmax, Eymax, Exmin, Eymin. cbn [rbind].
  set (grid := (inject_Z (Z.max (xmax - xmin) (ymax - ymin)) / inject_Z (img_size - 3))%Q).
  set (idx_xy := (fun p => (quantize grid (px p - xmin), quantize grid (py p - ymin)))
                   <$> cloud).
  assert (Forall (fun i => fin_in 0 221 i.1 /\ fin_in 0 221 i.2) idx_xy) as Hq.
  { apply Forall_fmap. eapply Forall_impl; [exact Hall|]. intros p [Hx Hy]. simpl.
    split; apply quantize_bounds; lia. }
  pose proof (densify_bounds idx_xy Hq) as Hd.
  assert (densify idx_xy <> []) as Hdne.
  { intros He. pose proof (densify_length idx_xy) as Hl. rewrite He in Hl.
    unfold idx_xy in Hl. rewrite length_fmap in Hl. destruct cloud; [done|simpl in Hl; lia]. }
  destruct (axis_ok (fst <$> densify idx_xy)) as (xhi & xlo & Exhi & Exlo & Hxs).
  { by destruct (densify idx_xy). }
  { apply Forall_fmap. eapply Forall_impl; [exact Hd|]. by intros ? [? _]. }
  destruct (axis_ok (snd <$> densify idx_xy)) as (yhi & ylo & Eyhi & Eylo & Hys).
  { by destruct (densify idx_xy). }
  { apply Forall_fmap. eapply Forall_impl; [exact Hd|]. by intros ? [_ ?]. }
  rewrite Exhi, Eyhi, Exlo, Eylo. cbn [rbind].
  eexists. split; [reflexivity|]. cbn [cp_index cp_f_dense cp_grid_size].
  split; [|split; [|done]].
  - rewrite <- list_fmap_compose. apply Forall_fmap.
    apply (proj1 (Forall_fmap _ _ _)) in Hxs. apply (proj1 (Forall_fmap _ _ _)) in Hys.
    apply Forall_forall. intros i Hi.
    pose proof (proj1 (Forall_forall _ _) Hxs i Hi) as Hx.
    pose proof (proj1 (Forall_forall _ _) Hys i Hi) as Hy.
    split; [exact Hx|exact Hy].
  - rewrite !length_fmap, densify_length. unfold idx_xy. by rewrite length_fmap.
Qed.

(** *** The assertion *)

Lemma elem_of_concat_2 {A} (x : A) (l : list A) (ls : list (list A)) :
  x ∈ l -> l ∈ ls -> x ∈ concat ls.
Proof.
  intros Hx Hl. induction ls as [|l' ls IH]; [by apply elem_of_nil in Hl|].
  rewrite concat_cons. apply elem_of_app.
  apply elem_of_cons in Hl as [<-|Hl]; [by left|right; by apply IH].
Qed.

Lemma bounds_assertion_ok (projs : list cloud_proj) :
  projs <> [] ->
  Forall (fun c => cp_index c <> [] /\
            Forall (fun i => fin_in 0 223 i.1 /\ fin_in 0 223 i.2) (cp_index c)) projs ->
  bounds_assertion projs = Ok tt.
Proof.
  intros Hne Hall. unfold bounds_assertion.
  set (all := concat _).
  assert (Forall (fin_in 0 223) all) as Hin.
  { apply Forall_concat, Forall_fmap. eapply Forall_impl; [exact Hall|].
    intros c [_ Hc]. simpl. apply Forall_concat, Forall_fmap.
    eapply Forall_impl; [exact Hc|]. intros i [Hx Hy]. simpl. by repeat constructor. }
  assert (all <> []) as Hane.
  { destruct projs as [|c projs]; [done|]. apply Forall_cons in Hall as [[Hc _] _].
    unfold all. rewrite fmap_cons, concat_cons.
    destruct (cp_index c) as [|i l]; [done|]. done. }
  destruct (fmin_list_spec 0 223 all Hane Hin) as (lo & -> & Hlo & _).
  destruct (fmax_list_spec 0 223 all Hane Hin) as (hi & -> & Hhi & _).
  cbn [rbind]. unfold fge, fle, img_size.
  destruct (Z.leb_spec 0 lo); [|lia]. destruct (Z.leb_spec hi (224 - 1)); [|lia]. done.
Qed.

Lemma bounds_assertion_NaN (projs : list cloud_proj) (c : cloud_proj) (i : fnum * fnum) :
  c ∈ projs -> i ∈ cp_index c -> i.1 = NaN ->
  bounds_assertion projs = Err AssertionError.
Proof.
  intros Hc Hi Hn. unfold bounds_assertion.
  set (all := concat _).
  assert (NaN ∈ all) as Hin.
  { unfold all.
    apply (elem_of_concat_2 _ (concat ((fun i : fnum * fnum => [i.1; i.2]) <$> cp_index c)));
      [|eapply list_elem_of_fmap_2'; [exact Hc|reflexivity]].
    apply (elem_of_concat_2 _ [i.1; i.2]);
      [rewrite Hn; left|eapply list_elem_of_fmap_2'; [exact Hi|reflexivity]]. }
  rewrite (fmin_list_NaN all Hin). cbn [rbind].
  destruct all as [|a l]; [by apply elem_of_nil in Hin|]. done.
Qed.

(** *** Scatter, padding and reshape *)

Lemma flat_sum_absent (entries : list (Z * list Z)) (row : Z) :
  Forall (fun k => k.1 <> row) entries -> flat_sum entries row = 0.
Proof.
  induction 1 as [|k l Hk _ IH]; [done|]. simpl. by rewrite decide_False.
Qed.

Lemma flat_sum_cons (i : Z) (v : list Z) (l : list (Z * list Z)) (row : Z) :
  flat_sum ((i, v) :: l) row
  = if decide (i = row) then nth 0 v 0 + flat_sum l row else flat_sum l row.
Proof. reflexivity. Qed.

Lemma scatter_foldl (n : nat) (entries : list (Z * list Z)) :
  forall (out : list (list Z)) (acc : nat -> Z),
  Forall (fun k => 0 <= k.1 /\ exists z, k.2 = replicate 3 z) entries ->
  length out = n ->
  (forall c, (c < n)%nat -> out !! c = Some (replicate 3 (acc c))) ->
  length (foldl scatter_add_row out entries) = n /\
  forall c, (c < n)%nat ->
    foldl scatter_add_row out entries !! c
    = Some (replicate 3 (acc c + flat_sum entries (Z.of_nat c))).
Proof.
  induction entries as [|[i v] l IH]; intros out acc Hall Hlen Hout.
  - simpl. split; [done|]. intros c Hc. rewrite Z.add_0_r. by apply Hout.
  - apply Forall_cons in Hall as [[Hi (z & Hv)] Hall]. simpl in Hi, Hv. subst v.
    cbn [foldl].
    destruct (IH (scatter_add_row out (i, replicate 3 z))
                (fun c => if decide (i = Z.of_nat c) then z + acc c else acc c) Hall)
      as [Hl Hr].
    + unfold scatter_add_row. by rewrite length_alter.
    + intros c Hc. unfold scatter_add_row. cbn [fst snd].
      destruct (decide (i = Z.of_nat c)) as [->|Hne].
      * rewrite Nat2Z.id, list_lookup_alter_eq, (Hout c Hc). done.
      * rewrite list_lookup_alter_ne by lia. by apply Hout.
    + split; [done|]. intros c Hc. etrans; [exact (Hr c Hc)|]. do 2 f_equal.
      rewrite flat_sum_cons. destruct (decide (i = Z.of_nat c)); simpl; lia.
Qed.

Lemma scatter_sum_spec (n : nat) (src : list (list Z)) (index : list Z) :
  Forall (fun i => 0 <= i) index ->
  Forall (fun v => exists z, v = replicate 3 z) src ->
  length (scatter_sum n src index) = n /\
  forall c, (c < n)%nat ->
    scatter_sum n src index !! c = Some (replicate 3 (flat_sum (zip index src) (Z.of_nat c))).
Proof.
  intros Hi Hs. unfold scatter_sum.
  destruct (scatter_foldl n (zip index src) (replicate n (replicate 3 0)) (fun _ => 0))
    as [Hl Hr].
  - clear -Hi Hs. revert src Hs. induction Hi as [|i l Hi0 _ IH]; intros src Hs; [constructor|].
    destruct Hs as [|v src Hv Hs]; [constructor|]. simpl. constructor; [done|by apply IH].
  - by rewrite length_replicate.
  - intros c Hc. by apply lookup_replicate_2.
  - split; [done|]. intros c Hc. by rewrite (Hr c Hc).
Qed.

Lemma chunks_spec {A} (cols : nat) : forall (rows : nat) (l : list A),
  length l = (rows * cols)%nat ->
  length (chunks rows cols l) = rows /\
  forall i, (i < rows)%nat ->
    exists row, chunks rows cols l !! i = Some row /\ length row = cols /\
                forall j, (j < cols)%nat -> row !! j = l !! (i * cols + j)%nat.
Proof.
  induction rows as [|rows IH]; intros l Hl.
  - split; [done|]. intros i Hi. lia.
  - destruct (IH (drop cols l)) as [Hlen Hrows].
    { rewrite length_drop, Hl. lia. }
    split; [simpl; by rewrite Hlen|].
    intros [|i] Hi; simpl.
    + exists (take cols l). split; [done|]. split; [rewrite length_take, Hl; lia|].
      intros j Hj. by rewrite lookup_take_lt.
    + destruct (Hrows i ltac:(lia)) as (row & Hrow & Hlr & Hj).
      exists row. split; [done|]. split; [done|].
      intros j Hjc. rewrite (Hj j Hjc), lookup_drop. f_equal. lia.
Qed.

Lemma new_idx_fin (i : fnum * fnum) :
  fin_in 0 223 i.1 -> fin_in 0 223 i.2 ->
  exists x y, i = (Fin x, Fin y) /\ new_idx nan_int i = x * 224 + y /\
              0 <= x <= 223 /\ 0 <= y <= 223.
Proof.
  destruct i as [a b]. intros (x & Hx & Hbx) (y & Hy & Hby). simpl in Hx, Hy. subst.
  exists x, y. done.
Qed.

Lemma flat_sum_cell (index : list (fnum * fnum)) : forall (src : list (list Z)) (i j : Z),
  Forall (fun k => fin_in 0 223 k.1 /\ fin_in 0 223 k.2) index ->
  0 <= i <= 223 -> 0 <= j <= 223 ->
  flat_sum (zip (new_idx nan_int <$> index) src) (i * 224 + j) = cell_sum index src i j.
Proof.
  induction index as [|k index IH]; intros src i j Hall Hi Hj; [done|].
  apply Forall_cons in Hall as [[Hk1 Hk2] Hall].
  destruct src as [|v src]; [done|].
  destruct (new_idx_fin k Hk1 Hk2) as (x & y & -> & Hn & Hx & Hy).
  rewrite fmap_cons. cbn [zip zip_with]. rewrite flat_sum_cons, Hn.
  unfold cell_sum. cbn [zip zip_with foldr fst snd].
  fold (cell_sum index src i j). rewrite <- (IH src i j Hall Hi Hj).
  destruct (decide (x * 224 + y = i * 224 + j)) as [He|Hne],
           (decide ((Fin x, Fin y) = (Fin i, Fin j))) as [He'|Hne']; try done.
  - exfalso. apply Hne'. repeat f_equal; lia.
  - exfalso. apply Hne. injection He' as -> ->. done.
Qed.

Lemma foldr_zmax_bound (hi : Z) (l : list Z) :
  Forall (fun i => 0 <= i <= hi) l -> 0 <= hi ->
  0 <= foldr Z.max 0 l <= hi /\ Forall (fun i => i <= foldr Z.max 0 l) l.
Proof.
  intros H Hhi. induction H as [|i l Hi _ [IH1 IH2]]; simpl.
  - split; [lia|constructor].
  - split; [lia|]. constructor; [lia|].
    eapply Forall_impl; [exact IH2|]. intros; simpl in *; lia.
Qed.


Lemma f_dense_rows (cloud : list point) :
  Forall (fun v : list Z => exists z, v = replicate 3 z)
    (concat ((fun p => replicate 25 (replicate 3 (pz p))) <$> cloud)).
Proof.
  apply Forall_concat, Forall_fmap, Forall_forall. intros p _.
  apply (Forall_replicate (fun v : list Z => exists z, v = replicate 3 z)). by exists (pz p).
Qed.

(** The raster of one sample: scatter into [n] rows, pad, reshape. *)
Lemma sample_raster (n : nat) (cloud : list point) (c : cloud_proj) :
  good_proj nan_int cloud c -> (n <= 224 * 224)%nat ->
  Forall (fun i => new_idx nan_int i < Z.of_nat n) (cp_index c) ->
  exists r,
    pad_reshape (scatter_sum n (cp_f_dense c) (new_idx nan_int <$> cp_index c)) = Ok r /\
    length r = 224%nat /\
    forall i j, (i < 224)%nat -> (j < 224)%nat ->
      exists row, r !! i = Some row /\ length row = 224%nat /\
        row !! j = Some (replicate 3 (cell_sum (cp_index c) (cp_f_dense c)
                                        (Z.of_nat i) (Z.of_nat j))).
Proof.
  intros (_ & Hfin & _ & Hsrc & _) Hn Hlt.
  assert (Forall (fun i => 0 <= i) (new_idx nan_int <$> cp_index c)) as Hnn.
  { apply Forall_fmap. eapply Forall_impl; [exact Hfin|]. intros k [H1 H2]. simpl.
    destruct (new_idx_fin k H1 H2) as (x & y & _ & -> & ? & ?). lia. }
  assert (Forall (fun v : list Z => exists z, v = replicate 3 z) (cp_f_dense c)) as Hrows
    by (rewrite Hsrc; apply f_dense_rows).
  destruct (scatter_sum_spec n (cp_f_dense c) _ Hnn Hrows) as [Hlen Hlook].
  set (out := scatter_sum n (cp_f_dense c) (new_idx nan_int <$> cp_index c)) in *.
  unfold pad_reshape. change (Z.to_nat (img_size * img_size)) with (224 * 224)%nat.
  change (Z.to_nat img_size) with 224%nat.
  set (padded := if (length out <? 224 * 224)%nat
                 then out ++ replicate (224 * 224 - length out) (replicate 3 0) else out).
  assert (length padded = (224 * 224)%nat) as Hlp.
  { unfold padded. destruct (Nat.ltb_spec (length out) (224 * 224)).
    - rewrite length_app, length_replicate. lia.
    - lia. }
  assert (forall k, (k < 224 * 224)%nat ->
            padded !! k = Some (replicate 3 (flat_sum (zip (new_idx nan_int <$> cp_index c)
                                                         (cp_f_dense c)) (Z.of_nat k)))) as Hpl.
  { intros k Hk. destruct (decide (k < n)%nat) as [Hkn|Hkn].
    - unfold padded. destruct (Nat.ltb_spec (length out) (224 * 224));
        [rewrite lookup_app_l by lia|]; by apply Hlook.
    - rewrite flat_sum_absent.
      + unfold padded. destruct (Nat.ltb_spec (length out) (224 * 224)); [|lia].
        rewrite lookup_app_r by lia. apply lookup_replicate_2. lia.
      + clear -Hlt Hkn. revert Hlt. generalize (cp_f_dense c).
        induction (cp_index c) as [|i l IH]; intros src Hlt; [constructor|].
        apply Forall_cons in Hlt as [Hi Hlt].
        destruct src as [|v src]; [constructor|]. rewrite fmap_cons. cbn [zip zip_with].
        constructor; [simpl; lia|by apply IH]. }
  rewrite decide_True by done.
  destruct (chunks_spec 224 224 padded Hlp) as [Hcl Hrows'].
  eexists. split; [reflexivity|]. split; [done|].
  intros i j Hi Hj. destruct (Hrows' i Hi) as (row & Hrow & Hlr & Hj').
  exists row. split; [done|]. split; [done|].
  rewrite (Hj' j Hj), Hpl by nia.
  replace (Z.of_nat (i * 224 + j)) with (Z.of_nat i * 224 + Z.of_nat j) by lia.
  by rewrite flat_sum_cell by (done || lia).
Qed.

Lemma project_all (pc : list (list point)) :
  Forall (fun cloud => exists r, xy_extent cloud = Ok r /\ 0 < r) pc ->
  exists projs,
    res_mapM (project_cloud nan_int) pc = Ok projs /\
    Forall2 (good_proj nan_int) pc projs.
Proof.
  induction 1 as [|cloud pc (r & Hr & Hpos) _ (projs & Hm & Hall)].
  - exists []. split; [done|constructor].
  - destruct (project_cloud_ok cloud r Hr Hpos) as (c & Hc & Hfin & Hlen & Hsrc & _).
    exists (c :: projs). simpl. rewrite Hc, Hm. split; [done|].
    constructor; [|done]. repeat split; try done.
    intros ->. discriminate.
Qed.

(** The raster of one sample as the properties below read it. *)
Lemma rasters (n : nat) (pc : list (list point)) (projs : list cloud_proj) :
  Forall2 (good_proj nan_int) pc projs -> (n <= 224 * 224)%nat ->
  Forall (fun c => Forall (fun i => new_idx nan_int i < Z.of_nat n) (cp_index c)) projs ->
  exists res,
    res_mapM pad_reshape
      ((fun c => scatter_sum n (cp_f_dense c) (new_idx nan_int <$> cp_index c)) <$> projs)
    = Ok res /\
    Forall2 (fun c r =>
               length r = 224%nat /\
               forall i j, (i < 224)%nat -> (j < 224)%nat ->
                 exists row, r !! i = Some row /\ length row = 224%nat /\
                   row !! j = Some (replicate 3 (cell_sum (cp_index c) (cp_f_dense c)
                                                   (Z.of_nat i) (Z.of_nat j))))
            projs res.
Proof.
  intros Hgood Hn. induction Hgood as [|cloud c pc projs Hc _ IH]; intros Hlt.
  - exists []. split; [done|constructor].
  - apply Forall_cons in Hlt as [Hltc Hlt].
    destruct (sample_raster n cloud c Hc Hn Hltc) as (r & Hr & Hlr & Hlook).
    destruct (IH Hlt) as (res & Hres & Hall).
    exists (r :: res). rewrite fmap_cons. cbn [res_mapM]. rewrite Hr, Hres.
    split; [done|]. by constructor.
Qed.

Lemma zip_with_fmap_diag {A B C} (f : A -> B -> C) (g : A -> B) (l : list A) :
  zip_with f l (g <$> l) = (fun a => f a (g a)) <$> l.
Proof. induction l as [|a l IH]; [done|]. simpl. f_equal. exact IH. Qed.

Lemma proj2img_res_spec (pc : list (list point)) :
  pc <> [] ->
  Forall (fun cloud => exists r, xy_extent cloud = Ok r /\ 0 < r) pc ->
  exists res projs,
    proj2img_res nan_int pc = Ok (res, projs) /\
    Forall2 (good_proj nan_int) pc projs /\
    Forall2 (fun c r =>
               length r = 224%nat /\
               forall i j, (i < 224)%nat -> (j < 224)%nat ->
                 exists row, r !! i = Some row /\ length row = 224%nat /\
                   row !! j = Some (replicate 3 (cell_sum (cp_index c) (cp_f_dense c)
                                                   (Z.of_nat i) (Z.of_nat j))))
            projs res.
Proof.
  intros Hne Hext.
  destruct (project_all pc Hext) as (projs & Hm & Hgood).
  assert (projs <> []) as Hpne.
  { intros ->. apply Forall2_length in Hgood. destruct pc; [done|discriminate]. }
  assert (Forall (fun c => cp_index c <> [] /\
            Forall (fun i => fin_in 0 223 i.1 /\ fin_in 0 223 i.2) (cp_index c)) projs) as Hin.
  { clear -Hgood. induction Hgood as [|cloud c pc projs (_ & Hf & Hl & _ & Hc) _ IH];
      constructor; [|done].
    split; [|done]. intros He. rewrite He in Hl. simpl in Hl. destruct cloud; [done|simpl in Hl; lia]. }
  unfold proj2img_res. rewrite Hm. cbn [rbind]. rewrite (bounds_assertion_ok projs Hpne Hin).
  cbn [rbind].
  set (idxs := (fun c => new_idx nan_int <$> cp_index c) <$> projs).
  assert (Forall (fun i => 0 <= i <= 223 * 224 + 223) (concat idxs)) as Hb.
  { apply Forall_concat, Forall_fmap. eapply Forall_impl; [exact Hin|].
    intros c [_ Hc]. simpl. apply Forall_fmap. eapply Forall_impl; [exact Hc|].
    intros k [H1 H2]. simpl. destruct (new_idx_fin k H1 H2) as (x & y & _ & -> & ? & ?). lia. }
  destruct (foldr_zmax_bound _ _ Hb ltac:(lia)) as [Hmax Hle].
  set (n := Z.to_nat (1 + foldr Z.max 0 (concat idxs))).
  unfold idxs.
  rewrite (zip_with_fmap_diag (fun c idx => scatter_sum n (cp_f_dense c) idx)
             (fun c => new_idx nan_int <$> cp_index c) projs).
  fold idxs.
  destruct (rasters n pc projs Hgood) as (res & Hres & Hall).
  { unfold n. lia. }
  { apply Forall_forall. intros c Hc. apply Forall_forall. intros i Hi.
    assert (new_idx nan_int i ∈ concat idxs) as Hmem.
    { apply (elem_of_concat_2 _ (new_idx nan_int <$> cp_index c)).
      - by apply list_elem_of_fmap_2.
      - unfold idxs. eapply list_elem_of_fmap_2'; [exact Hc|reflexivity]. }
    pose proof (proj1 (Forall_forall _ _) Hle _ Hmem) as Hi'. cbv beta in Hi'.
    unfold n. lia. }
  exists res, projs. fold n. rewrite Hres. cbn [rbind]. done.
Qed.
End Proj.

Section Image.
Variable nan_int : Z.
Context {V : Type}.
Variable sigmoid : Z -> V.
Variable normalize : nat -> V -> V.

Lemma cell_sum_none (index : list (fnum * fnum)) : forall (src : list (list Z)) (i j : Z),
  Forall (fun k => k <> (Fin i, Fin j)) index -> cell_sum index src i j = 0.
Proof.
  induction index as [|k l IH]; intros src i j Hnone; [done|].
  apply Forall_cons in Hnone as [Hk Hnone]. destruct src as [|v src]; [done|].
  unfold cell_sum. cbn [zip zip_with foldr fst snd]. rewrite decide_False by done.
  exact (IH src i j Hnone).
Qed.

Lemma sample_ok_shape (S : nat -> nat -> Z) (r : list (list (list Z))) :
  sample_ok S r ->
  Forall (fun row => length row = 224%nat /\ Forall (fun px : list Z => length px = 3%nat) row) r.
Proof.
  intros [Hl Hlook]. apply Forall_lookup. intros i row Hi.
  assert (i < 224)%nat as Hi' by (rewrite <- Hl; eapply lookup_lt_Some; eauto).
  destruct (Hlook i 0%nat Hi' ltac:(lia)) as (row' & Hrow' & Hlr & _).
  rewrite Hi in Hrow'. injection Hrow' as <-. split; [done|].
  apply Forall_lookup. intros j px Hj.
  assert (j < 224)%nat as Hj' by (rewrite <- Hlr; eapply lookup_lt_Some; eauto).
  destruct (Hlook i j Hi' Hj') as (row' & Hrow' & _ & Hpx).
  rewrite Hi in Hrow'. injection Hrow' as <-. rewrite Hj in Hpx. injection Hpx as ->.
  done.
Qed.

Lemma sample_image (S : nat -> nat -> Z) (r : list (list (list Z))) :
  sample_ok S r ->
  let img := imap (fun c (plane : list (list Z)) =>
                     (fun row : list Z => (fun v => normalize c (sigmoid v)) <$> row) <$> plane)
                  (permute_chw r) in
  length img = 3%nat /\
  Forall (fun plane => length plane = 224%nat /\
            Forall (fun row : list V => length row = 224%nat) plane) img /\
  forall ch i j, (ch < 3)%nat -> (i < 224)%nat -> (j < 224)%nat ->
    exists plane row, img !! ch = Some plane /\ plane !! i = Some row /\
                      row !! j = Some (normalize ch (sigmoid (S i j))).
Proof.
  intros Hok img. pose proof (sample_ok_shape S r Hok) as Hshape.
  destruct Hok as [Hl Hlook].
  assert (forall ch, (ch < 3)%nat ->
            img !! ch = Some ((fun row : list Z => (fun v => normalize ch (sigmoid v)) <$> row)
                              <$> ((fun row : list (list Z) => (fun px => nth ch px 0) <$> row)
                                   <$> r))) as Himg.
  { intros ch Hch. unfold img, permute_chw.
    rewrite list_lookup_imap, list_lookup_fmap, lookup_seq_lt by done. done. }
  split; [unfold img, permute_chw; by rewrite length_imap, length_fmap, length_seq|].
  split.
  - apply Forall_lookup. intros ch plane Hp.
    assert (ch < 3)%nat as Hch.
    { apply lookup_lt_Some in Hp. unfold img, permute_chw in Hp.
      by rewrite length_imap, length_fmap, length_seq in Hp. }
    rewrite (Himg ch Hch) in Hp. injection Hp as <-.
    split; [by rewrite !length_fmap|].
    apply Forall_fmap, Forall_fmap. eapply Forall_impl; [exact Hshape|].
    intros row [Hlr _]. simpl. by rewrite !length_fmap.
  - intros ch i j Hch Hi Hj. destruct (Hlook i j Hi Hj) as (row & Hrow & Hlr & Hpx).
    eexists _, _. split; [exact (Himg ch Hch)|].
    rewrite !list_lookup_fmap, Hrow. split; [reflexivity|].
    rewrite !list_lookup_fmap, Hpx. simpl. do 3 f_equal.
    destruct ch as [|[|[|?]]]; (done || lia).
Qed.

End Image.

Section Degenerate.
Variable nan_int : Z.

Lemma fmax_list_nonempty (l : list fnum) : l <> [] -> exists m, fmax_list l = Ok m.
Proof. destruct l; [done|]. intros _. by eexists. Qed.

Lemma fmin_list_nonempty (l : list fnum) : l <> [] -> exists m, fmin_list l = Ok m.
Proof. destruct l; [done|]. intros _. by eexists. Qed.

(** A cloud without extent in x and y gets NaN indices: its cell size is
    0 and every quotient is 0 / 0. *)
Lemma project_cloud_degenerate (cloud : list point) :
  xy_extent cloud = Ok 0 ->
  exists c i, project_cloud nan_int cloud = Ok c /\ i ∈ cp_index c /\ i.1 = NaN.
Proof.
  intros Hext.
  destruct (xy_extent_inv cloud 0 Hext)
    as (Hne & xmax & ymax & xmin & ymin & Exmax & Eymax & Exmin & Eymin & Hr & _).
  unfold project_cloud. rewrite Exmax, Eymax, Exmin, Eymin. cbn [rbind]. rewrite <- Hr.
  destruct cloud as [|p cloud]; [done|]. rewrite fmap_cons.
  set (idx_tl := (fun p0 => (quantize (inject_Z 0 / inject_Z (img_size - 3)) (px p0 - xmin),
                             quantize (inject_Z 0 / inject_Z (img_size - 3)) (py p0 - ymin)))
                   <$> cloud).
  rewrite !quantize_zero.
  set (dense := densify ((NaN, NaN) :: idx_tl)).
  assert (exists tl, dense = (NaN, NaN) :: tl) as [tl Hd] by (by eexists).
  destruct (fmax_list_nonempty (fst <$> dense)) as [xhi ->]; [by rewrite Hd|].
  destruct (fmax_list_nonempty (snd <$> dense)) as [yhi ->]; [by rewrite Hd|].
  destruct (fmin_list_nonempty (fst <$> dense)) as [xlo ->]; [by rewrite Hd|].
  destruct (fmin_list_nonempty (snd <$> dense)) as [ylo ->]; [by rewrite Hd|].
  cbn [rbind]. eexists _, (NaN, NaN). split; [reflexivity|]. split; [|done].
  cbn [cp_index]. rewrite Hd, !fmap_cons. left.
Qed.

Lemma project_cloud_nonempty (cloud : list point) :
  cloud <> [] -> exists c, project_cloud nan_int cloud = Ok c.
Proof.
  intros Hne.
  assert (px <$> cloud <> []) as Hx by (by destruct cloud).
  assert (py <$> cloud <> []) as Hy by (by destruct cloud).
  destruct (zmax_list_spec _ Hx) as (xmax & Exmax & _).
  destruct (zmax_list_spec _ Hy) as (ymax & Eymax & _).
  destruct (zmin_list_spec _ Hx) as (xmin & Exmin & _).
  destruct (zmin_list_spec _ Hy) as (ymin & Eymin & _).
  unfold project_cloud. rewrite Exmax, Eymax, Exmin, Eymin. cbn [rbind].
  set (dense := densify _).
  assert (dense <> []) as Hd.
  { unfold dense. intros He. pose proof (densify_length
      ((fun p => (quantize (inject_Z (Z.max (xmax - xmin) (ymax - ymin)) / inject_Z (img_size - 3))
                    (px p - xmin),
                  quantize (inject_Z (Z.max (xmax - xmin) (ymax - ymin)) / inject_Z (img_size - 3))
                    (py p - ymin))) <$> cloud)) as Hl.
    rewrite He, length_fmap in Hl. destruct cloud; [done|simpl in Hl; lia]. }
  destruct (fmax_list_nonempty (fst <$> dense)) as [xhi ->]; [by destruct dense|].
  destruct (fmax_list_nonempty (snd <$> dense)) as [yhi ->]; [by destruct dense|].
  destruct (fmin_list_nonempty (fst <$> dense)) as [xlo ->]; [by destruct dense|].
  destruct (fmin_list_nonempty (snd <$> dense)) as [ylo ->]; [by destruct dense|].
  cbn [rbind]. by eexists.
Qed.

(** Whenever every cloud of the batch has a point and one of them has no
    extent in x and y, the assertion of [proj2img] fails. *)
Lemma degenerate_assertion (pc : list (list point)) :
  Forall (fun cloud => cloud <> []) pc ->
  Exists (fun cloud => xy_extent cloud = Ok 0) pc ->
  proj2img_res nan_int pc = Err AssertionError.
Proof.
  intros Hne Hex.
  assert (exists projs, res_mapM (project_cloud nan_int) pc = Ok projs) as [projs Hm].
  { apply ResultFacts.res_mapM_ok. eapply Forall_impl; [exact Hne|].
    intros cloud Hc. destruct (project_cloud_nonempty cloud Hc) as [c ?]. by exists c. }
  unfold proj2img_res. rewrite Hm. cbn [rbind].
  apply Exists_exists in Hex as (cloud & Hin & Hdeg).
  destruct (project_cloud_degenerate cloud Hdeg) as (c & i & Hc & Hi & Hn).
  assert (c ∈ projs) as Hcp.
  { apply ResultFacts.res_mapM_Forall2 in Hm. apply list_elem_of_lookup in Hin as [b Hb].
    destruct (Forall2_lookup_l _ _ _ _ _ Hm Hb) as (c' & Hc' & Hok).
    rewrite Hc in Hok. injection Hok as <-. by eapply list_elem_of_lookup_2. }
  by rewrite (bounds_assertion_NaN projs c i Hcp Hi Hn).
Qed.
End Degenerate.

Section Failing.
Variable nan_int : Z.
Context {V : Type}.
Variable sigmoid : Z -> V.
Variable normalize : nat -> V -> V.

Lemma foldl_zmax_replicate (n : nat) (a : Z) : foldl Z.max a (replicate n a) = a.
Proof. induction n as [|n IH]; [done|]. simpl. by rewrite Z.max_id. Qed.

Lemma foldl_zmin_replicate (n : nat) (a : Z) : foldl Z.min a (replicate n a) = a.
Proof. induction n as [|n IH]; [done|]. simpl. by rewrite Z.min_id. Qed.

Lemma xy_extent_identical (p : point) (n : nat) : xy_extent (replicate (S n) p) = Ok 0.
Proof.
  unfold xy_extent. rewrite !fmap_replicate. simpl.
  rewrite !foldl_zmax_replicate, !foldl_zmin_replicate. simpl. f_equal. lia.
Qed.

Lemma proj2img_degenerate (pc : list (list point)) :
  Forall (fun cloud => cloud <> []) pc ->
  Exists (fun cloud => xy_extent cloud = Ok 0) pc ->
  proj2img nan_int sigmoid normalize pc = Err AssertionError.
Proof.
  intros Hne Hex. unfold proj2img. by rewrite (degenerate_assertion nan_int pc Hne Hex).
Qed.

(** C7, at the failing input: for a batch of one cloud of one point the
    cell size is 0, every index is NaN, neither test of the clipping step
    holds for NaN, and the assertion on the bounds fails, whatever integer
    the conversion of NaN gives. *)
Theorem proj2img_assertion_fails_single_point :
  proj2img nan_int sigmoid normalize [[(1, 1, 1)]] = Err AssertionError /\
  (forall c, project_cloud nan_int [(1, 1, 1)] = Ok c ->
     cp_index c = replicate 25 (NaN, NaN)) /\
  clip NaN = NaN.
Proof.
  split; [|split].
  - apply proj2img_degenerate.
    + repeat constructor. discriminate.
    + left. reflexivity.
  - intros c [= <-]. reflexivity.
  - reflexivity.
Qed.

(** C6, at the failing input: for a cloud whose points are all the same
    [proj2img] returns no image at all; the NaN of the quotient 0 / 0
    reaches the assertion, which raises. *)
Theorem proj2img_identical_points_no_image (p : point) (n : nat) :
  proj2img nan_int sigmoid normalize [replicate (S n) p] = Err AssertionError.
Proof.
  apply proj2img_degenerate.
  - repeat constructor. discriminate.
  - left. apply xy_extent_identical.
Qed.
End Failing.


End ProjectionFacts.

(** *** The projection: conservation, empty input, independence of the
    samples, position and size of the cloud *)

Module ProjectionMoreFacts.
Import Projection.

Lemma sample_ok_eq (S : nat -> nat -> Z) (r : list (list (list Z))) :
  sample_ok S r -> r = raster_of S.
Proof.
  intros [Hl Hlook]. unfold raster_of. apply list_eq. intros i.
  rewrite list_lookup_fmap.
  destruct (decide (i < 224)%nat) as [Hi|Hi].
  - rewrite lookup_seq_lt by done. cbn [fmap option_fmap option_map Nat.add].
    destruct (Hlook i 0%nat Hi ltac:(lia)) as (row & Hrow & Hlr & _).
    rewrite Hrow. f_equal. apply list_eq. intros j.
    rewrite list_lookup_fmap.
    destruct (decide (j < 224)%nat) as [Hj|Hj].
    + rewrite lookup_seq_lt by done. cbn [fmap option_fmap option_map Nat.add].
      destruct (Hlook i j Hi Hj) as (row' & Hrow' & _ & Hpx).
      rewrite Hrow in Hrow'. by injection Hrow' as <-.
    + rewrite lookup_seq_ge by lia. cbn [fmap option_fmap option_map].
      apply lookup_ge_None. lia.
  - rewrite lookup_seq_ge by lia. cbn [fmap option_fmap option_map].
    apply lookup_ge_None. lia.
Qed.

Lemma zsum_app (a b : list Z) : zsum (a ++ b) = zsum a + zsum b.
Proof. unfold zsum. induction a as [|x a IH]; simpl; lia. Qed.

Lemma zsum_fmap_add {A} (f g : A -> Z) (l : list A) :
  zsum ((fun a => f a + g a) <$> l) = zsum (f <$> l) + zsum (g <$> l).
Proof. unfold zsum. induction l as [|x l IH]; [done|]. rewrite !fmap_cons. cbn [foldr]. lia. Qed.

Lemma zsum_fmap_zero {A} (l : list A) : zsum ((fun _ => 0) <$> l) = 0.
Proof. unfold zsum. induction l as [|x l IH]; [done|]. rewrite !fmap_cons. cbn [foldr]. lia. Qed.

Lemma zsum_fmap_ext {A} (f g : A -> Z) (l : list A) :
  (forall a, a ∈ l -> f a = g a) -> zsum (f <$> l) = zsum (g <$> l).
Proof.
  intros H. f_equal. apply list_fmap_ext. intros i a Ha. apply H.
  by eapply list_elem_of_lookup_2.
Qed.

(** A sum over 0 .. n-1 of a value placed at one position. *)
Lemma zsum_indicator (n : nat) (x v : Z) :
  zsum ((fun i : nat => if decide (x = Z.of_nat i) then v else 0) <$> seq 0 n)
  = if decide (0 <= x < Z.of_nat n) then v else 0.
Proof.
  induction n as [|n IH]; [by rewrite decide_False by lia|].
  rewrite seq_S, fmap_app, zsum_app, IH. simpl.
  destruct (decide (x = Z.of_nat n)) as [->|Hne].
  - rewrite decide_False by lia. rewrite decide_True by lia. lia.
  - destruct (decide (0 <= x < Z.of_nat n)).
    + rewrite decide_True by lia. lia.
    + rewrite decide_False by lia. lia.
Qed.

Local Abbreviation grid_sum S :=
  (zsum ((fun i : nat => zsum ((fun j : nat => S i j) <$> seq 0 224)) <$> seq 0 224)).

Lemma raster_total_of (S : nat -> nat -> Z) (ch : nat) :
  (ch < 3)%nat -> raster_total ch (raster_of S) = grid_sum S.
Proof.
  intros Hch. unfold raster_total, raster_of.
  rewrite <- list_fmap_compose. f_equal. apply list_fmap_ext. intros _ i _.
  unfold compose. rewrite <- list_fmap_compose. f_equal.
  apply list_fmap_ext. intros _ j _. unfold compose.
  destruct ch as [|[|[|?]]]; (done || lia).
Qed.

(** The cells of the raster together hold every densified point once. *)
Lemma grid_cell_sum (index : list (fnum * fnum)) : forall f_dense : list (list Z),
  Forall (fun i => fin_in 0 223 i.1 /\ fin_in 0 223 i.2) index ->
  length index = length f_dense ->
  grid_sum (fun i j => cell_sum index f_dense (Z.of_nat i) (Z.of_nat j))
  = zsum ((fun v : list Z => nth 0 v 0) <$> f_dense).
Proof.
  induction index as [|k index IH]; intros [|v f_dense] Hall Hl;
    [|discriminate Hl|discriminate Hl|].
  - unfold cell_sum. simpl zip. cbn [foldr].
    rewrite (zsum_fmap_ext _ (fun _ => 0)); [apply zsum_fmap_zero|].
    intros i _. apply zsum_fmap_zero.
  - apply Forall_cons in Hall as [[(x & Hx & Hxr) (y & Hy & Hyr)] Hall].
    injection Hl as Hl. specialize (IH f_dense Hall Hl).
    destruct k as [k1 k2]. simpl in Hx, Hy. subst k1 k2.
    rewrite fmap_cons. change (zsum (?a :: ?l)) with (a + zsum l). rewrite <- IH.
    rewrite (zsum_fmap_ext _
      (fun i : nat => (if decide (x = Z.of_nat i) then nth 0 v 0 else 0)
                      + zsum ((fun j : nat => cell_sum index f_dense (Z.of_nat i) (Z.of_nat j))
                                <$> seq 0 224))).
    { rewrite zsum_fmap_add, zsum_indicator. rewrite decide_True by lia. done. }
    intros i _.
    rewrite (zsum_fmap_ext _
      (fun j : nat => (if decide (x = Z.of_nat i)
                       then (if decide (y = Z.of_nat j) then nth 0 v 0 else 0) else 0)
                      + cell_sum index f_dense (Z.of_nat i) (Z.of_nat j))).
    { rewrite zsum_fmap_add. f_equal.
      destruct (decide (x = Z.of_nat i)).
      - rewrite zsum_indicator. by rewrite decide_True by lia.
      - apply zsum_fmap_zero. }
    intros j _. unfold cell_sum. cbn [zip zip_with foldr fst snd].
    destruct (decide (x = Z.of_nat i)) as [->|Hne].
    + destruct (decide (y = Z.of_nat j)) as [->|Hne].
      * by rewrite decide_True.
      * rewrite decide_False by congruence. lia.
    + rewrite decide_False by congruence. lia.
Qed.

Lemma zsum_f_dense (cloud : list point) :
  zsum ((fun v : list Z => nth 0 v 0)
          <$> concat ((fun p => replicate 25 (replicate 3 (pz p))) <$> cloud))
  = 25 * zsum (pz <$> cloud).
Proof.
  induction cloud as [|p cloud IH]; [done|].
  rewrite !fmap_cons. cbn [concat]. rewrite fmap_app, zsum_app, IH.
  change (zsum (?a :: ?l)) with (a + zsum l).
  assert (zsum ((fun v : list Z => nth 0 v 0) <$> replicate 25 (replicate 3 (pz p)))
          = 25 * pz p) as ->; [|lia].
  unfold zsum. simpl. lia.
Qed.

Section Proj.
Variable nan_int : Z.

(** The raster of a projected cloud sums to 25 times the depths. *)
Lemma good_proj_total (cloud : list point) (c : cloud_proj) (ch : nat) :
  good_proj nan_int cloud c -> (ch < 3)%nat ->
  raster_total ch
    (raster_of (fun i j => cell_sum (cp_index c) (cp_f_dense c) (Z.of_nat i) (Z.of_nat j)))
  = 25 * zsum (pz <$> cloud).
Proof.
  intros (_ & Hfin & Hlen & Hsrc & _) Hch.
  rewrite raster_total_of by done. rewrite grid_cell_sum.
  - rewrite Hsrc. apply zsum_f_dense.
  - done.
  - rewrite Hlen, Hsrc. clear. induction cloud as [|p cloud IH]; [done|].
    rewrite fmap_cons. cbn [concat]. rewrite length_app, length_replicate, <- IH.
    simpl. lia.
Qed.


End Proj.

Section Image.
Variable nan_int : Z.
Context {V : Type}.
Variable sigmoid : Z -> V.
Variable normalize : nat -> V -> V.

Lemma res_mapM_empty_cloud (pc : list (list point)) :
  [] ∈ pc -> ~ is_Ok (res_mapM (project_cloud nan_int) pc).
Proof.
  induction pc as [|cloud pc IH]; intros Hin [projs H].
  - by apply elem_of_nil in Hin.
  - cbn [res_mapM] in H.
    destruct (project_cloud nan_int cloud) as [c|e] eqn:Hc; cbn [rbind] in H; [|done].
    destruct (res_mapM (project_cloud nan_int) pc) as [cs|e] eqn:Hcs; cbn [rbind] in H; [|done].
    apply elem_of_cons in Hin as [<-|Hin].
    + unfold project_cloud in Hc. simpl in Hc. done.
    + apply IH; [done|]. by eexists.
Qed.

(** X11. [proj2img] never returns on an empty batch or on a batch with a
    cloud of no point: the extent of an empty cloud and the bounds of no
    index at all are extrema over nothing. *)
Theorem proj2img_empty_input (pc : list (list point)) :
  pc = [] \/ [] ∈ pc -> ~ is_Ok (proj2img nan_int sigmoid normalize pc).
Proof.
  intros Hpc [out H]. unfold proj2img in H.
  destruct (proj2img_res nan_int pc) as [[res projs]|e] eqn:Hres; cbn [rbind] in H; [|done].
  clear H. unfold proj2img_res in Hres.
  destruct (res_mapM (project_cloud nan_int) pc) as [cs|e] eqn:Hcs; cbn [rbind] in Hres;
    [|done].
  destruct Hpc as [->|Hin].
  - cbn [res_mapM] in Hcs. injection Hcs as <-. done.
  - apply (res_mapM_empty_cloud pc Hin). by eexists.
Qed.

End Image.


Lemma proj2img_empty_input_witness :
  ~ is_Ok (proj2img (-2147483648) (fun z => z) (fun _ v => v) [[(0, 0, 5); (10, 4, 7)]; []]).
Proof.
  apply (proj2img_empty_input (-2147483648) (fun z => z) (fun _ v => v)).
  right. apply elem_of_cons. right. apply elem_of_cons. by left.
Defined.


(** *** Clouds moved or scaled in the plane of the projection *)

Section Transport.
Variable nan_int : Z.
Variable g : list point -> list point.
Variable h : cloud_proj -> cloud_proj.
Hypothesis Hproject : forall cloud,
  project_cloud nan_int (g cloud)
  = match project_cloud nan_int cloud with Ok c => Ok (h c) | Err e => Err e end.
Hypothesis Hindex : forall c, cp_index (h c) = cp_index c.
Hypothesis Hdense : forall c, cp_f_dense (h c) = cp_f_dense c.

Lemma res_mapM_transport (pc : list (list point)) :
  res_mapM (project_cloud nan_int) (g <$> pc)
  = match res_mapM (project_cloud nan_int) pc with
    | Ok projs => Ok (h <$> projs)
    | Err e => Err e
    end.
Proof.
  induction pc as [|cloud pc IH]; [done|].
  rewrite fmap_cons. cbn [res_mapM]. rewrite Hproject, IH.
  destruct (project_cloud nan_int cloud) as [c|]; [|done]. cbn [rbind].
  by destruct (res_mapM (project_cloud nan_int) pc).
Qed.

(** A change of the clouds that leaves the clipped indices and the
    features of every cloud as they were leaves the rasters as they were. *)
Lemma proj2img_res_transport (pc : list (list point)) :
  proj2img_res nan_int (g <$> pc)
  = match proj2img_res nan_int pc with
    | Ok (res, projs) => Ok (res, h <$> projs)
    | Err e => Err e
    end.
Proof.
  unfold proj2img_res. rewrite res_mapM_transport.
  destruct (res_mapM (project_cloud nan_int) pc) as [projs|]; [|done]. cbn [rbind].
  assert (bounds_assertion (h <$> projs) = bounds_assertion projs) as ->.
  { assert ((fun c => concat ((fun i : fnum * fnum => [i.1; i.2]) <$> cp_index c))
              <$> (h <$> projs)
            = (fun c => concat ((fun i : fnum * fnum => [i.1; i.2]) <$> cp_index c))
              <$> projs) as Hall.
    { rewrite <- list_fmap_compose. apply list_fmap_ext. intros _ c _. unfold compose.
      by rewrite Hindex. }
    unfold bounds_assertion. by rewrite Hall. }
  destruct (bounds_assertion projs); [|done]. cbn [rbind].
  assert ((fun c => new_idx nan_int <$> cp_index c) <$> (h <$> projs)
          = (fun c => new_idx nan_int <$> cp_index c) <$> projs) as ->.
  { rewrite <- list_fmap_compose. apply list_fmap_ext. intros _ c _. unfold compose.
    by rewrite Hindex. }
  set (idxs := (fun c => new_idx nan_int <$> cp_index c) <$> projs).
  set (n := Z.to_nat (1 + foldr Z.max 0 (concat idxs))).
  assert (zip_with (fun c idx => scatter_sum n (cp_f_dense c) idx) (h <$> projs) idxs
          = zip_with (fun c idx => scatter_sum n (cp_f_dense c) idx) projs idxs) as ->.
  { rewrite zip_with_fmap_l. apply zip_with_ext; [|done..]. intros c idx.
    by rewrite Hdense. }
  by destruct (res_mapM pad_reshape _).
Qed.
End Transport.

Lemma foldl_zmax_shift (d : Z) (r : list Z) : forall a,
  foldl Z.max (a + d) ((fun z => z + d) <$> r) = foldl Z.max a r + d.
Proof.
  induction r as [|b r IH]; intros a; [done|].
  rewrite fmap_cons. cbn [foldl]. rewrite Z.add_max_distr_r. apply IH.
Qed.

Lemma foldl_zmin_shift (d : Z) (r : list Z) : forall a,
  foldl Z.min (a + d) ((fun z => z + d) <$> r) = foldl Z.min a r + d.
Proof.
  induction r as [|b r IH]; intros a; [done|].
  rewrite fmap_cons. cbn [foldl]. rewrite Z.add_min_distr_r. apply IH.
Qed.

Lemma zmax_list_shift (d : Z) (l : list Z) :
  zmax_list ((fun z => z + d) <$> l)
  = match zmax_list l with Ok m => Ok (m + d) | Err e => Err e end.
Proof.
  destruct l as [|a r]; [done|]. unfold zmax_list. rewrite fmap_cons.
  by rewrite foldl_zmax_shift.
Qed.

Lemma zmin_list_shift (d : Z) (l : list Z) :
  zmin_list ((fun z => z + d) <$> l)
  = match zmin_list l with Ok m => Ok (m + d) | Err e => Err e end.
Proof.
  destruct l as [|a r]; [done|]. unfold zmin_list. rewrite fmap_cons.
  by rewrite foldl_zmin_shift.
Qed.

Section Translate.
Variable nan_int : Z.
Variables dx dy : Z.

Lemma project_cloud_translate (cloud : list point) :
  project_cloud nan_int (translate_xy dx dy cloud)
  = match project_cloud nan_int cloud with
    | Ok c => Ok (move_min dx dy c)
    | Err e => Err e
    end.
Proof.
  unfold project_cloud.
  assert (px <$> translate_xy dx dy cloud = (fun z => z + dx) <$> (px <$> cloud)) as ->.
  { unfold translate_xy. rewrite <- !list_fmap_compose. by apply list_fmap_ext. }
  assert (py <$> translate_xy dx dy cloud = (fun z => z + dy) <$> (py <$> cloud)) as ->.
  { unfold translate_xy. rewrite <- !list_fmap_compose. by apply list_fmap_ext. }
  rewrite !zmax_list_shift, !zmin_list_shift.
  destruct (zmax_list (px <$> cloud)) as [xmax|]; [|done].
  destruct (zmax_list (py <$> cloud)) as [ymax|]; [|done].
  destruct (zmin_list (px <$> cloud)) as [xmin|]; [|done].
  destruct (zmin_list (py <$> cloud)) as [ymin|]; [|done].
  cbn [rbind].
  replace (xmax + dx - (xmin + dx)) with (xmax - xmin) by lia.
  replace (ymax + dy - (ymin + dy)) with (ymax - ymin) by lia.
  set (grid := (inject_Z (Z.max (xmax - xmin) (ymax - ymin)) / inject_Z (img_size - 3))%Q).
  assert ((fun p => (quantize grid (px p - (xmin + dx)), quantize grid (py p - (ymin + dy))))
            <$> translate_xy dx dy cloud
          = (fun p => (quantize grid (px p - xmin), quantize grid (py p - ymin))) <$> cloud)
    as ->.
  { unfold translate_xy. rewrite <- list_fmap_compose. apply list_fmap_ext.
    intros _ p _. unfold compose, px, py. cbn [fst snd].
    f_equal; f_equal; lia. }
  assert ((fun p => replicate 25 (replicate 3 (pz p))) <$> translate_xy dx dy cloud
          = (fun p => replicate 25 (replicate 3 (pz p))) <$> cloud) as ->.
  { unfold translate_xy. rewrite <- list_fmap_compose. by apply list_fmap_ext. }
  set (dense := densify _).
  destruct (fmax_list (fst <$> dense)) as [xhi|]; [|done].
  destruct (fmax_list (snd <$> dense)) as [yhi|]; [|done].
  destruct (fmin_list (fst <$> dense)) as [xlo|]; [|done].
  destruct (fmin_list (snd <$> dense)) as [ylo|]; [|done].
  reflexivity.
Qed.



Context {V : Type}.
Variable sigmoid : Z -> V.
Variable normalize : nat -> V -> V.

(** X13. Moving every cloud of a batch by (dx, dy) in the plane of the
    projection changes nothing of what [proj2img] returns but the minima,
    which move by (dx, dy): the image, the cell sizes and the offsets are
    the same, and so is the exception when there is one.  (Arithmetic on
    coordinates is exact here.) *)
Theorem proj2img_translation_invariant (pc : list (list point)) :
  proj2img nan_int sigmoid normalize (translate_xy dx dy <$> pc)
  = match proj2img nan_int sigmoid normalize pc with
    | Ok (img, mins, grids, offs) =>
        Ok (img, (fun m : Z * Z => (m.1 + dx, m.2 + dy)) <$> mins, grids, offs)
    | Err e => Err e
    end.
Proof.
  unfold proj2img.
  rewrite (proj2img_res_transport nan_int (translate_xy dx dy) (move_min dx dy)
             project_cloud_translate ltac:(done) ltac:(done)).
  destruct (proj2img_res nan_int pc) as [[res projs]|]; [|done]. cbn [rbind].
  by rewrite <- !list_fmap_compose.
Qed.
End Translate.

Lemma foldl_zmax_scale (k : Z) (r : list Z) : 0 <= k -> forall a,
  foldl Z.max (k * a) ((fun z => k * z) <$> r) = k * foldl Z.max a r.
Proof.
  intros Hk. induction r as [|b r IH]; intros a; [done|].
  rewrite fmap_cons. cbn [foldl]. rewrite Z.mul_max_distr_nonneg_l by done. apply IH.
Qed.

Lemma foldl_zmin_scale (k : Z) (r : list Z) : 0 <= k -> forall a,
  foldl Z.min (k * a) ((fun z => k * z) <$> r) = k * foldl Z.min a r.
Proof.
  intros Hk. induction r as [|b r IH]; intros a; [done|].
  rewrite fmap_cons. cbn [foldl]. rewrite Z.mul_min_distr_nonneg_l by done. apply IH.
Qed.

Lemma zmax_list_scale (k : Z) (l : list Z) : 0 <= k ->
  zmax_list ((fun z => k * z) <$> l)
  = match zmax_list l with Ok m => Ok (k * m) | Err e => Err e end.
Proof.
  intros Hk. destruct l as [|a r]; [done|]. unfold zmax_list. rewrite fmap_cons.
  by rewrite foldl_zmax_scale.
Qed.

Lemma zmin_list_scale (k : Z) (l : list Z) : 0 <= k ->
  zmin_list ((fun z => k * z) <$> l)
  = match zmin_list l with Ok m => Ok (k * m) | Err e => Err e end.
Proof.
  intros Hk. destruct l as [|a r]; [done|]. unfold zmin_list. rewrite fmap_cons.
  by rewrite foldl_zmin_scale.
Qed.

(** The cell index of a coordinate does not change when the coordinate
    and the cell size are multiplied by the same positive number. *)
Lemma quantize_scale (k : Z) (g : Q) (a : Z) :
  0 < k -> quantize (inject_Z k * g) (k * a) = quantize g a.
Proof.
  intros Hk. unfold quantize.
  destruct (Qeq_bool g 0) eqn:Hg.
  - apply Qeq_bool_iff in Hg.
    assert (inject_Z k * g == 0)%Q as Hz by (rewrite Hg; ring).
    by rewrite (Qeq_eq_bool _ _ Hz).
  - assert (~ (g == 0)%Q) as Hg' by (intros H; by rewrite (Qeq_eq_bool _ _ H) in Hg).
    assert (~ (inject_Z k == 0)%Q) as Hk'.
    { unfold Qeq, inject_Z. simpl. lia. }
    destruct (Qeq_bool (inject_Z k * g) 0) eqn:Hkg.
    + apply Qeq_bool_iff in Hkg. apply Qmult_integral in Hkg as [?|?]; done.
    + f_equal. apply Qfloor_comp. rewrite inject_Z_mult. by field.
Qed.

Section Scale.
Variable nan_int : Z.
Variable k : Z.
Hypothesis Hk : 0 < k.

Lemma project_cloud_scale (cloud : list point) :
  project_cloud nan_int (scale_xy k cloud)
  = match project_cloud nan_int cloud with
    | Ok c => Ok (scale_proj k c)
    | Err e => Err e
    end.
Proof.
  unfold project_cloud.
  assert (px <$> scale_xy k cloud = (fun z => k * z) <$> (px <$> cloud)) as ->.
  { unfold scale_xy. rewrite <- !list_fmap_compose. by apply list_fmap_ext. }
  assert (py <$> scale_xy k cloud = (fun z => k * z) <$> (py <$> cloud)) as ->.
  { unfold scale_xy. rewrite <- !list_fmap_compose. by apply list_fmap_ext. }
  rewrite !zmax_list_scale, !zmin_list_scale by lia.
  destruct (zmax_list (px <$> cloud)) as [xmax|]; [|done].
  destruct (zmax_list (py <$> cloud)) as [ymax|]; [|done].
  destruct (zmin_list (px <$> cloud)) as [xmin|]; [|done].
  destruct (zmin_list (py <$> cloud)) as [ymin|]; [|done].
  cbn [rbind].
  set (grid := (inject_Z (Z.max (xmax - xmin) (ymax - ymin)) / inject_Z (img_size - 3))%Q).
  assert ((inject_Z (Z.max (k * xmax - k * xmin) (k * ymax - k * ymin))
             / inject_Z (img_size - 3))%Q = (inject_Z k * grid)%Q) as ->.
  { replace (k * xmax - k * xmin) with (k * (xmax - xmin)) by lia.
    replace (k * ymax - k * ymin) with (k * (ymax - ymin)) by lia.
    rewrite Z.mul_max_distr_nonneg_l by lia. unfold grid.
    generalize (Z.max (xmax - xmin) (ymax - ymin)). intros r.
    unfold Qdiv, Qmult, Qinv, inject_Z. cbn. f_equal. lia. }
  assert ((fun p => (quantize (inject_Z k * grid) (px p - k * xmin),
                     quantize (inject_Z k * grid) (py p - k * ymin)))
            <$> scale_xy k cloud
          = (fun p => (quantize grid (px p - xmin), quantize grid (py p - ymin))) <$> cloud)
    as ->.
  { unfold scale_xy. rewrite <- list_fmap_compose. apply list_fmap_ext.
    intros _ p _. unfold compose, px, py. cbn [fst snd].
    replace (k * p.1.1 - k * xmin) with (k * (p.1.1 - xmin)) by lia.
    replace (k * p.1.2 - k * ymin) with (k * (p.1.2 - ymin)) by lia.
    by rewrite !quantize_scale. }
  assert ((fun p => replicate 25 (replicate 3 (pz p))) <$> scale_xy k cloud
          = (fun p => replicate 25 (replicate 3 (pz p))) <$> cloud) as ->.
  { unfold scale_xy. rewrite <- list_fmap_compose. by apply list_fmap_ext. }
  set (dense := densify _).
  destruct (fmax_list (fst <$> dense)) as [xhi|]; [|done].
  destruct (fmax_list (snd <$> dense)) as [yhi|]; [|done].
  destruct (fmin_list (fst <$> dense)) as [xlo|]; [|done].
  destruct (fmin_list (snd <$> dense)) as [ylo|]; [|done].
  reflexivity.
Qed.


Context {V : Type}.
Variable sigmoid : Z -> V.
Variable normalize : nat -> V -> V.

End Scale.


End ProjectionMoreFacts.

(** *** MaskTransformer.forward: the visible tokens *)

Module MaskedEncoderFacts.
Import PointEncoder EncoderEval Transformer TransformerStack Selection MaskedEncoder.

Lemma select_row_Forall2 {A B} (R : A -> B -> Prop) (row : list A) (trow : list B) :
  Forall2 R row trow ->
  forall mrow : list bool, Forall2 R (select_row row mrow) (select_row trow mrow).
Proof.
  unfold select_row.
  induction 1 as [|a b row trow Hab _ IH]; intros mrow; [constructor|].
  destruct mrow as [|m mrow]; [constructor|].
  cbn [zip zip_with]. rewrite !filter_cons. cbn [snd].
  destruct m.
  - rewrite !decide_True by done. rewrite !fmap_cons. constructor; [done|apply IH].
  - rewrite !decide_False by done. apply IH.
Qed.

Lemma Forall2_functional {A B} (R : A -> B -> Prop) :
  (forall a b b', R a b -> R a b' -> b = b') ->
  forall l t t', Forall2 R l t -> Forall2 R l t' -> t = t'.
Proof.
  intros HR l t t' H. revert t'.
  induction H as [|a b l t Hab _ IH]; intros t' H'.
  - by apply Forall2_nil_inv_l in H'.
  - apply Forall2_cons_inv_l in H' as (b' & t'' & Hab' & H' & ->).
    f_equal; [by eapply HR|by apply IH].
Qed.

(** The visible rows of two tensors related entry by entry. *)
Lemma visible_rows_Forall2 {A B} (R : A -> B -> Prop) (t : list (list A))
    (u : list (list B)) (mask : list (list bool)) :
  Forall2 (Forall2 R) t u ->
  Forall2 (Forall2 R)
    (zip_with (fun row mrow => select_row row (negb <$> mrow)) t mask)
    (zip_with (fun row mrow => select_row row (negb <$> mrow)) u mask).
Proof.
  intros H. revert mask.
  induction H as [|row trow t u Hrow _ IH]; intros mask; [constructor|].
  destruct mask as [|mrow mask]; [constructor|].
  cbn [zip_with]. constructor; [by apply select_row_Forall2|apply IH].
Qed.

Lemma Forall2_of_Forall {A B} (P : A -> Prop) (Q : B -> Prop) (l : list A) (l' : list B) :
  length l = length l' -> Forall P l -> Forall Q l' ->
  Forall2 (fun a b => P a /\ Q b) l l'.
Proof.
  intros Hl HP HQ. apply Forall2_same_length_lookup. split; [done|].
  intros i a b Ha Hb. split.
  - exact (proj1 (Forall_lookup _ _) HP i a Ha).
  - exact (proj1 (Forall_lookup _ _) HQ i b Hb).
Qed.

Section Forward.
Context {T : Type}.
Variables (tzero : T) (tadd tmul tmax : T -> T -> T).
Variable softmax : list T -> list T.
Variable first_conv : conv_block (T := T) point.
Variable second_conv : conv_block (T := T) (feat (T := T)).
Variable blocks : list (block_params (T := T)).
Variable get_pos_embed : list (list point) -> list (list (token (T := T))).
Variable pos_embed : token (T := T) -> token (T := T).
Variable norm : token (T := T) -> token (T := T).
Variable mask_pos_token : token (T := T).
Hypothesis Hfirst : eval_mode first_conv.
Hypothesis Hsecond : eval_mode second_conv.
Hypothesis Hblocks : Forall keeps_batch blocks.
Hypothesis Hpos : forall c, length (get_pos_embed c) = length c.

Local Abbreviation MaskTransformer_encode :=
  (MaskTransformer_encode tzero tadd tmul tmax softmax first_conv second_conv blocks
     get_pos_embed pos_embed norm mask_pos_token).
Local Abbreviation visible row mrow := (select_row row (negb <$> mrow)).

(** What [MaskTransformer.forward] returns for the visible tokens, from
    the visible groups and the visible centers alone. *)
Lemma MaskTransformer_encode_visible (mask : list (list bool))
    (neighborhood : list (list (list point))) (center : list (list point)) (G k : nat) :
  mask <> [] ->
  Forall (fun mrow => length mrow = G /\ Mask.count_true mrow = k) mask ->
  length neighborhood = length mask ->
  Forall (fun groups => length groups = G /\ Forall (fun grp => grp <> []) groups)
         neighborhood ->
  length center = length mask ->
  Forall (fun cs => length cs = G) center ->
  exists x_vis_in x_mask,
    Forall2 (Forall2 (fun grp f => Encoder_group tmax first_conv second_conv grp = Ok f))
      (zip_with (fun row mrow => visible row mrow) neighborhood mask) x_vis_in /\
    MaskTransformer_encode mask neighborhood center
    = Ok (per_token norm
            (TransformerEncoder_forward_self tzero tadd tmul softmax blocks x_vis_in
               (per_token pos_embed
                  (get_pos_embed (zip_with (fun row mrow => visible row mrow) center mask)))),
          x_mask).
Proof.
  intros Hne Hmask Hln Hnb Hlc Hc.
  assert (neighborhood <> []) as Hnne by (intros ->; by destruct mask).
  assert (center <> []) as Hcne by (intros ->; by destruct mask).
  destruct (EncoderEvalFacts.Encoder_forward_tokens tmax first_conv second_conv Hfirst Hsecond
              neighborhood G Hnne Hnb) as (tokens & Henc & Hrel).
  assert (length tokens = length mask) as Hlt
    by (rewrite <- Hln; symmetry; by eapply Forall2_length).
  assert (tokens <> []) as Htne by (intros ->; by destruct mask).
  assert (Forall (fun row : list (feat (T := T)) => length row = G) tokens) as Htok.
  { apply Forall_lookup. intros b row Hb.
    destruct (Forall2_lookup_r _ _ _ _ _ Hrel Hb) as (groups & Hg & Hgr).
    rewrite <- (Forall2_length _ _ _ Hgr).
    by destruct (proj1 (Forall_lookup _ _) Hnb b groups Hg). }
  assert (Forall2 (fun (row : list (feat (T := T))) (mrow : list bool) =>
             length row = G /\ length mrow = G /\ Mask.count_true mrow = k) tokens mask)
    as Htm by (by apply Forall2_of_Forall).
  assert (Forall2 (fun (row : list point) (mrow : list bool) =>
             length row = G /\ length mrow = G /\ Mask.count_true mrow = k) center mask)
    as Hcm by (by apply Forall2_of_Forall).
  unfold MaskedEncoder.MaskTransformer_encode. rewrite Henc. cbn [rbind].
  rewrite (SelectionFacts.split_by_mask_rows tokens mask G k Htne Htm). cbn [rbind].
  pose proof (SelectionFacts.select_not_reshape center mask G k Hcne Hcm) as Hvc.
  destruct (mask_select center (Shapes.mask_not mask)) as [t|]; cbn [rbind] in Hvc |- *;
    [|done].
  rewrite Hlc, <- Hlt in Hvc. rewrite Hvc. cbn [rbind].
  set (x_vis := zip_with (fun row mrow => visible row mrow) tokens mask).
  set (x_mask := zip_with select_row tokens mask).
  set (pos := per_token pos_embed
                (get_pos_embed (zip_with (fun row mrow => visible row mrow) center mask))).
  assert (length x_vis = length mask) as Hlv by (unfold x_vis; rewrite length_zip_with; lia).
  assert (length x_mask = length mask) as Hlm by (unfold x_mask; rewrite length_zip_with; lia).
  assert (length pos = length mask) as Hlp.
  { unfold pos, per_token. rewrite length_fmap, Hpos, length_zip_with. lia. }
  destruct (TransformerStackFacts.encoder_joint_returns tzero tadd tmul softmax blocks
              x_vis pos x_mask
              (replicate (length tokens) (replicate (Grouping.size1 x_mask) mask_pos_token))
              Hblocks) as (x_mask' & Hj & _).
  { unfold token, feat in *. lia. }
  { unfold token, feat in *. lia. }
  { rewrite length_replicate. unfold token, feat in *. lia. }
  rewrite Hj. cbn [rbind].
  exists x_vis. eexists. split; [|reflexivity].
  by apply visible_rows_Forall2.
Qed.


End Forward.


End MaskedEncoderFacts.

(** *** The keys of a checkpoint *)

Module CheckpointFacts.
Import Checkpoint.
Local Open Scope string_scope.

Example load_keys_example :
  load_keys [("module.MAE_encoder.blocks.0.weight", 1); ("module.MAE_decoder.norm.bias", 2);
             ("base_model.cls_token", 3); ("cls_pos", 4)]
  = Some [("MAE_decoder.norm.bias", 2); ("cls_pos", 4); ("blocks.0.weight", 1); ("cls_token", 3)].
Proof. reflexivity. Qed.

Example replace_examples :
  replace_module <$> ["mmodule.module.x"; "modulemodule..x"; "module.module."; "submodule.w";
                      "modul"; "module"; "module."; "amodule.bmodule.c"; "MAE_encoderX.w"]
  = ["mx"; "module.x"; ""; "subw"; "modul"; "module"; ""; "abc"; "MAE_encoderX.w"].
Proof. reflexivity. Qed.

Example load_collisions :
  load_keys [("MAE_encoder", 1); ("MAE_encoder.MAE_encoder.x", 2); ("MAE_encoder.x", 3); ("x", 4)]
    = Some [("x", 2); ("", 1)] /\
  load_keys [("MAE_encoder.x", 1); ("MAE_encoder.MAE_encoder.x", 2)]
    = Some [("x", 1); ("MAE_encoder.x", 2)] /\
  load_keys [("MAE_encoder_a", 1)] = Some [("a", 1)].
Proof. repeat split. Qed.

Section Dict.
Context {V : Type}.
Implicit Types (d : dict (V := V)) (k : string) (v : V).

Lemma dict_get_set_eq k v d : dict_get k (dict_set k v d) = Some v.
Proof.
  induction d as [|[k' v'] d IH]; simpl.
  - by rewrite String.eqb_refl.
  - destruct (String.eqb_spec k k') as [->|Hne]; simpl.
    + by rewrite String.eqb_refl.
    + destruct (String.eqb_spec k k'); [done|]. exact IH.
Qed.

Lemma dict_get_set_ne k k' v d : k <> k' -> dict_get k' (dict_set k v d) = dict_get k' d.
Proof.
  intros Hne. induction d as [|[k0 v0] d IH]; simpl.
  - destruct (String.eqb_spec k' k); [congruence|done].
  - destruct (String.eqb_spec k k0) as [->|Hk]; simpl.
    + destruct (String.eqb_spec k' k0); [congruence|done].
    + destruct (String.eqb_spec k' k0); [done|]. exact IH.
Qed.

Lemma dict_get_remove_eq k d : dict_get k (dict_remove k d) = None.
Proof.
  induction d as [|[k0 v0] d IH]; simpl; [done|].
  destruct (String.eqb_spec k k0) as [->|Hk]; simpl; [done|].
  destruct (String.eqb_spec k k0); [done|]. exact IH.
Qed.

Lemma dict_get_remove_ne k k' d : k <> k' -> dict_get k' (dict_remove k d) = dict_get k' d.
Proof.
  intros Hne. induction d as [|[k0 v0] d IH]; simpl; [done|].
  destruct (String.eqb_spec k k0) as [->|Hk]; simpl.
  - destruct (String.eqb_spec k' k0); [congruence|]. exact IH.
  - destruct (String.eqb_spec k' k0); [done|]. exact IH.
Qed.

Lemma dict_get_keys k d : is_Some (dict_get k d) <-> k ∈ fst <$> d.
Proof.
  induction d as [|[k0 v0] d IH]; cbn [dict_get].
  - split; [by intros [? ?]|]. intros H. by apply elem_of_nil in H.
  - rewrite fmap_cons, elem_of_cons. cbn [fst].
    destruct (String.eqb_spec k k0) as [->|Hk].
    + split; [by left|by eexists].
    + rewrite IH. split; [by right|]. by intros [?|?].
Qed.

Lemma dict_set_keys k v d :
  fst <$> dict_set k v d
  = if bool_decide (k ∈ fst <$> d) then fst <$> d else ((fst <$> d) ++ [k])%list.
Proof.
  induction d as [|[k0 v0] d IH]; cbn [dict_set].
  - rewrite bool_decide_eq_false_2; [done|]. apply not_elem_of_nil.
  - destruct (String.eqb_spec k k0) as [->|Hk]; rewrite !fmap_cons; cbn [fst].
    + rewrite bool_decide_eq_true_2; [done|]. by left.
    + rewrite IH. destruct (bool_decide (k ∈ fst <$> d)) eqn:Hin.
      * apply bool_decide_eq_true_1 in Hin. rewrite bool_decide_eq_true_2; [done|]. by right.
      * apply bool_decide_eq_false_1 in Hin. rewrite bool_decide_eq_false_2; [done|].
        intros [?|?]%elem_of_cons; done.
Qed.

Lemma dict_set_NoDup k v d : NoDup (fst <$> d) -> NoDup (fst <$> dict_set k v d).
Proof.
  intros Hnd. rewrite dict_set_keys.
  destruct (bool_decide (k ∈ fst <$> d)) eqn:Hin; [done|].
  apply bool_decide_eq_false_1 in Hin.
  apply NoDup_app. split; [done|]. split; [|apply NoDup_singleton].
  intros x Hx Hx'. apply list_elem_of_singleton in Hx' as ->. done.
Qed.

Lemma strip_module_NoDup (items : list (string * V)) : NoDup (fst <$> strip_module items).
Proof.
  unfold strip_module.
  assert (forall d : dict (V := V), NoDup (fst <$> d) ->
            NoDup (fst <$> foldl (fun d kv => dict_set (replace_module kv.1) kv.2 d) d items))
    as H; [|apply H; constructor].
  induction items as [|[k v] items IH]; intros d Hd; [done|].
  cbn [foldl]. apply IH. by apply dict_set_NoDup.
Qed.

(** One step of the loop on a key of the dict. *)
Lemma rename_key_spec d k v :
  dict_get k d = Some v ->
  rename_key d k
  = Some (if bool_decide (final_name k = k) then
            (if String.prefix "MAE_encoder" k || String.prefix "base_model" k
             then dict_remove k (dict_set k v d) else d)
          else dict_remove k (dict_set (final_name k) v d)).
Proof.
  intros Hk. unfold rename_key, final_name, dict_del.
  destruct (String.prefix "MAE_encoder" k).
  { rewrite Hk. cbn [orb].
    destruct (bool_decide _) eqn:Hb.
    - apply bool_decide_eq_true_1 in Hb. rewrite Hb. by rewrite dict_get_set_eq.
    - apply bool_decide_eq_false_1 in Hb. by rewrite dict_get_set_ne, Hk. }
  destruct (String.prefix "base_model" k).
  { rewrite Hk. cbn [orb].
    destruct (bool_decide _) eqn:Hb.
    - apply bool_decide_eq_true_1 in Hb. rewrite Hb. by rewrite dict_get_set_eq.
    - apply bool_decide_eq_false_1 in Hb. by rewrite dict_get_set_ne, Hk. }
  cbn [orb]. by rewrite bool_decide_eq_true_2.
Qed.

Lemma rename_key_keeps d d' k k' :
  is_Some (dict_get k d) -> rename_key d k = Some d' -> k' <> k ->
  is_Some (dict_get k' d) -> is_Some (dict_get k' d').
Proof.
  intros [v Hk] Hd' Hne Hk'. rewrite (rename_key_spec d k v Hk) in Hd'.
  injection Hd' as <-.
  assert (forall n, is_Some (dict_get k' (dict_remove k (dict_set n v d)))) as Hrm.
  { intros n. rewrite dict_get_remove_ne by done.
    destruct (String.eqb_spec n k') as [->|Hn].
    - rewrite dict_get_set_eq. by eexists.
    - by rewrite dict_get_set_ne. }
  destruct (bool_decide _); [|apply Hrm].
  destruct (_ || _); [apply Hrm|done].
Qed.

Lemma rename_loop_returns (keys : list string) : forall d,
  NoDup keys -> (forall k, k ∈ keys -> is_Some (dict_get k d)) ->
  is_Some (rename_loop d keys).
Proof.
  induction keys as [|k rest IH]; intros d Hnd Hin; [by eexists|].
  apply list.NoDup_cons in Hnd as [Hk Hnd].
  destruct (Hin k ltac:(left)) as [v Hv].
  cbn [rename_loop]. pose proof (rename_key_spec d k v Hv) as Hstep.
  destruct (rename_key d k) as [d'|] eqn:Hd'; [|done].
  apply IH; [done|]. intros k' Hk'.
  eapply (rename_key_keeps d d' k k'); [by eexists|done| |].
  - intros ->. done.
  - apply Hin. by right.
Qed.

(** X18. The renaming of the keys of a checkpoint never raises KeyError:
    whatever the keys, every key the loop reads or deletes is in the dict
    when it does. *)
Theorem load_keys_never_raises (items : list (string * V)) : is_Some (load_keys items).
Proof.
  unfold load_keys. apply rename_loop_returns.
  - apply strip_module_NoDup.
  - intros k Hk. by apply dict_get_keys.
Qed.


Lemma str_drop_length (n : nat) : forall s, String.length (str_drop n s) = (String.length s - n)%nat.
Proof.
  induction n as [|n IH]; intros s; simpl; [lia|].
  destruct s as [|c s]; simpl; [done|]. apply IH.
Qed.

Lemma prefix_length (p : string) : forall s,
  String.prefix p s = true -> (String.length p <= String.length s)%nat.
Proof.
  induction p as [|c p IH]; intros s H; simpl; [lia|].
  destruct s as [|c' s]; simpl in H; [done|].
  destruct (Ascii.ascii_dec c c'); [|done]. specialize (IH s H). simpl. lia.
Qed.

(** A key with one of the two prefixes gets a shorter name. *)
Lemma final_name_renamed k :
  String.prefix "MAE_encoder" k || String.prefix "base_model" k = true -> final_name k <> k.
Proof.
  intros H Heq. apply (f_equal String.length) in Heq. unfold final_name in Heq.
  destruct (String.prefix "MAE_encoder" k) eqn:H1.
  - apply prefix_length in H1. rewrite str_drop_length in Heq. simpl in *. lia.
  - destruct (String.prefix "base_model" k) eqn:H2; [|done].
    apply prefix_length in H2. rewrite str_drop_length in Heq. simpl in *. lia.
Qed.

Lemma final_name_kept k :
  String.prefix "MAE_encoder" k || String.prefix "base_model" k = false -> final_name k = k.
Proof.
  unfold final_name. intros H. apply orb_false_elim in H as [-> ->]. done.
Qed.

Lemma rename_key_step d k v :
  dict_get k d = Some v ->
  rename_key d k
  = Some (if bool_decide (final_name k = k) then d
          else dict_remove k (dict_set (final_name k) v d)).
Proof.
  intros Hk. rewrite (rename_key_spec d k v Hk). f_equal.
  destruct (bool_decide (final_name k = k)) eqn:Hb; [|done].
  apply bool_decide_eq_true_1 in Hb.
  destruct (String.prefix "MAE_encoder" k || String.prefix "base_model" k) eqn:Hp; [|done].
  by apply final_name_renamed in Hp.
Qed.

Section Loop.
Variable base : dict (V := V).
Variable K : list string.
Hypothesis Hnd : NoDup K.
Hypothesis Hbase : forall k, k ∈ K -> is_Some (dict_get k base).
Hypothesis Hinj : forall k k', k ∈ K -> k' ∈ K -> final_name k = final_name k' -> k = k'.
Hypothesis Hfresh : forall k, k ∈ K -> final_name k <> k -> final_name k ∉ K.

Lemma rename_loop_visited (R : list string) : forall (P : list string) d,
  K = app P R -> visited base P R d ->
  exists d', rename_loop d R = Some d' /\ visited base K [] d'.
Proof.
  induction R as [|k R IH]; intros P d HK (Ha & Hb & Hc).
  - exists d. split; [done|]. rewrite app_nil_r in HK. subst P. done.
  - assert (k ∈ K) as HkK by (rewrite HK; apply elem_of_app; right; left).
    assert (forall k', k' ∈ P -> k' ∈ K) as HPK
      by (intros k' ?; rewrite HK; apply elem_of_app; by left).
    assert (forall k', k' ∈ R -> k' ∈ K) as HRK
      by (intros k' ?; rewrite HK; apply elem_of_app; right; by right).
    assert ((k ∉ P) /\ (k ∉ R)) as [HkP HkR].
    { rewrite HK in Hnd. apply NoDup_app in Hnd as (_ & Hdis & HndR).
      apply list.NoDup_cons in HndR as [? _]. split; [|done].
      intros HP. apply (Hdis k HP). left. }
    destruct (Hbase k HkK) as [v Hv].
    assert (dict_get k d = Some v) as Hkd by (rewrite Hb; [done|left]).
    cbn [rename_loop]. rewrite (rename_key_step d k v Hkd).
    apply (IH (app P [k])); [by rewrite <- app_assoc|].
    destruct (bool_decide (final_name k = k)) eqn:Hren.
    + apply bool_decide_eq_true_1 in Hren. split; [|split].
      * intros k' Hk'. apply elem_of_app in Hk' as [Hk'|Hk']; [by apply Ha|].
        apply list_elem_of_singleton in Hk'. subst k'.
        rewrite Hren. apply Hb. left.
      * intros k' Hk'. apply Hb. by right.
      * intros key Hkey. destruct (Hc key Hkey) as [HP|HR].
        -- left. rewrite fmap_app. apply elem_of_app. by left.
        -- apply elem_of_cons in HR as [Heq|HR]; [subst key|by right].
           left. rewrite fmap_app. apply elem_of_app. right.
           change (final_name <$> [k]) with [final_name k]. rewrite Hren.
           by apply list_elem_of_singleton.
    + apply bool_decide_eq_false_1 in Hren.
      pose proof (Hfresh k HkK Hren) as Hn.
      split; [|split].
      * intros k' Hk'. apply elem_of_app in Hk' as [Hk'|Hk'];
           [|apply list_elem_of_singleton in Hk'; subst k'].
        -- assert (final_name k' <> k) as H1.
           { destruct (decide (final_name k' = k')) as [->|Hr]; [by intros ->|].
             intros Heq. apply (Hfresh k' (HPK k' Hk') Hr). by rewrite Heq. }
           assert (final_name k <> final_name k') as H2.
           { intros Heq. apply Hinj in Heq; [|done|by apply HPK]. by subst k'. }
           rewrite dict_get_remove_ne, dict_get_set_ne by done. by apply Ha.
        -- rewrite dict_get_remove_ne by done. by rewrite dict_get_set_eq.
      * intros k' Hk'.
        assert (k <> k') as H1 by (by intros ->).
        assert (final_name k <> k') as H2 by (intros Heq; apply Hn; rewrite Heq; by apply HRK).
        rewrite dict_get_remove_ne, dict_get_set_ne by done. apply Hb. by right.
      * intros key Hkey.
        destruct (decide (key = k)) as [->|Hne].
        { rewrite dict_get_remove_eq in Hkey. by destruct Hkey. }
        rewrite dict_get_remove_ne in Hkey by done.
        destruct (decide (key = final_name k)) as [->|Hne'].
        { left. rewrite fmap_app. apply elem_of_app. right.
          change (final_name <$> [k]) with [final_name k]. by apply list_elem_of_singleton. }
        rewrite dict_get_set_ne in Hkey by done.
        destruct (Hc key Hkey) as [HP|HR];
          [|apply elem_of_cons in HR as [Heq|HR]; [done|by right]].
        left. rewrite fmap_app. apply elem_of_app. by left.
Qed.
End Loop.

(** X19. When the keys of the checkpoint, with every "module." removed,
    get different final names, and no renamed key takes the name of
    another key of the checkpoint, the dict given to [load_state_dict]
    holds every value of the checkpoint under its final name, and nothing
    else: the rest of a key that starts with MAE_encoder or base_model
    after the first 12 or 11 characters, the key itself otherwise. *)
Theorem load_keys_renames (items : list (string * V)) :
  let base := strip_module items in
  let K := fst <$> base in
  (forall k k', k ∈ K -> k' ∈ K -> final_name k = final_name k' -> k = k') ->
  (forall k, k ∈ K -> final_name k <> k -> final_name k ∉ K) ->
  exists d,
    load_keys items = Some d /\
    (forall k, k ∈ K -> dict_get (final_name k) d = dict_get k base) /\
    (forall key, is_Some (dict_get key d) -> key ∈ final_name <$> K).
Proof.
  intros base K Hinj Hfresh.
  destruct (rename_loop_visited base K (strip_module_NoDup items)
              ltac:(intros k Hk; by apply dict_get_keys) Hinj Hfresh K [] base)
    as (d & Hd & Ha & _ & Hc).
  - done.
  - split; [|split].
    + intros k Hk. by apply elem_of_nil in Hk.
    + done.
    + intros key Hkey. right. by apply dict_get_keys.
  - exists d. split; [exact Hd|]. split; [exact Ha|].
    intros key Hkey. destruct (Hc key Hkey) as [?|Hnil]; [done|].
    by apply elem_of_nil in Hnil.
Qed.

End Dict.

(** The two conditions on the keys can be checked by evaluation. *)
Lemma final_names_distinct_check (K : list string) :
  bool_decide (Forall (fun k => Forall (fun k' => final_name k = final_name k' -> k = k') K) K)
  = true ->
  forall k k', k ∈ K -> k' ∈ K -> final_name k = final_name k' -> k = k'.
Proof.
  intros H k k' Hk Hk'. apply bool_decide_eq_true_1 in H.
  exact (proj1 (Forall_forall _ _) (proj1 (Forall_forall _ _) H k Hk) k' Hk').
Qed.

Lemma final_names_fresh_check (K : list string) :
  bool_decide (Forall (fun k => final_name k <> k -> final_name k ∉ K) K) = true ->
  forall k, k ∈ K -> final_name k <> k -> final_name k ∉ K.
Proof.
  intros H k Hk. apply bool_decide_eq_true_1 in H.
  exact (proj1 (Forall_forall _ _) H k Hk).
Qed.

Lemma load_keys_renames_witness :
  let items := [("module.MAE_encoder.blocks.0.weight", 1); ("module.MAE_decoder.norm.bias", 2);
                ("base_model.cls_token", 3); ("cls_pos", 4)] in
  let base := strip_module items in
  let K := fst <$> base in
  exists d,
    load_keys items = Some d /\
    (forall k, k ∈ K -> dict_get (final_name k) d = dict_get k base) /\
    (forall key, is_Some (dict_get key d) -> key ∈ final_name <$> K).
Proof.
  intros items base K.
  apply (load_keys_renames items).
  - apply final_names_distinct_check. vm_compute. reflexivity.
  - apply final_names_fresh_check. vm_compute. reflexivity.
Defined.

End CheckpointFacts.

(** *** The visualisation branch of the forward pass *)

Module VisualisationFacts.
Import Shapes Visualisation.

Lemma reshape_flat (n c : nat) (sh : shape) :
  numel sh = (n * c)%nat -> (0 < c)%nat -> reshape sh [None; Some c] = Ok [n; c].
Proof.
  intros Hn Hc. unfold reshape. rewrite Hn.
  assert (known_size [None; Some c] = c) as -> by (simpl; lia).
  assert (length (filter (fun d : option nat => d = None) [None; Some c]) = 1%nat) as -> by done.
  rewrite Nat.Div0.mod_mul, Nat.div_mul by lia.
  destruct (Nat.ltb_spec 0 c); [|lia]. done.
Qed.

Lemma broadcast_center (n g : nat) : broadcast [n; g; 3%nat] [n; 1%nat; 3%nat] = Ok [n; g; 3%nat].
Proof.
  unfold broadcast.
  change (reverse [n; g; 3%nat]) with [3%nat; g; n].
  change (reverse [n; 1%nat; 3%nat]) with [3%nat; 1%nat; n].
  cbn [broadcast_rev rbind]. rewrite (decide_True (P := n = n)) by done. cbn [rbind].
  destruct (decide (g = 1%nat)) as [->|Hg]; reflexivity.
Qed.

Lemma py_int_ratio_lt (r : Q) (G : nat) :
  (0 < r)%Q -> (r < 1)%Q -> (0 < G)%nat -> py_int (r * inject_Z (Z.of_nat G)) < Z.of_nat G.
Proof.
  destruct r as [n d]. unfold Qlt, py_int. simpl. intros Hn Hd HG.
  rewrite Z.mul_1_r in Hn. rewrite Z.mul_1_r in Hd. rewrite Pos.mul_1_r.
  assert (0 <= n * Z.of_nat G) by nia.
  rewrite Z.quot_div_nonneg by lia.
  apply Z.div_lt_upper_bound; nia.
Qed.

Section Forward.
Context {RNG : Type}.
Variable randint : RNG -> Z -> Z -> Z * RNG.
Variable shuffle : RNG -> list Z -> list Z * RNG.
Variable argsort : list Z -> list nat.
Hypothesis Hrng : Mask.rng_spec randint shuffle.
Hypothesis Hsort : Mask.argsort_spec argsort.

End Forward.


End VisualisationFacts.

(** *** The blocks token by token, and the order of the tokens *)

Module TokenViewFacts.
Import Transformer TransformerStack TokenView.

Lemma fmap_seq_lookup {A B} (X : list A) (f : nat -> B) (g : A -> B) :
  (forall i x, X !! i = Some x -> f i = g x) ->
  f <$> seq 0 (length X) = g <$> X.
Proof.
  intros H. apply list_eq. intros i. rewrite !list_lookup_fmap.
  destruct (X !! i) as [x|] eqn:Hx.
  - rewrite lookup_seq_lt by (eapply lookup_lt_Some; eauto).
    cbn [fmap option_fmap option_map Nat.add]. f_equal. by apply H.
  - rewrite lookup_seq_ge; [done|]. by apply lookup_ge_None.
Qed.

Lemma zip_with_fmap_same {A B C D} (f : B -> C -> D) (g1 : A -> B) (g2 : A -> C) (X : list A) :
  zip_with f (g1 <$> X) (g2 <$> X) = (fun x => f (g1 x) (g2 x)) <$> X.
Proof. induction X as [|x X IH]; [done|]. rewrite !fmap_cons. cbn [zip_with]. by rewrite IH. Qed.

Lemma zip_with_id_fmap {A B C} (f : A -> B -> C) (g : A -> B) (X : list A) :
  zip_with f X (g <$> X) = (fun x => f x (g x)) <$> X.
Proof. induction X as [|x X IH]; [done|]. rewrite !fmap_cons. cbn [zip_with]. by rewrite IH. Qed.

Section View.
Context {T : Type}.
Variables (tzero : T) (tadd tmul : T -> T -> T).
Variable softmax : list T -> list T.

Local Abbreviation attention_self_sample := (attention_self_sample tzero tadd tmul softmax).
Local Abbreviation Block_forward_self := (Block_forward_self tzero tadd tmul softmax).
Local Abbreviation head_out := (head_out tzero tadd tmul softmax).
Local Abbreviation attention_token := (attention_token tzero tadd tmul softmax).
Local Abbreviation block_token := (block_token tzero tadd tmul softmax).
Local Abbreviation block_sample := (block_sample tzero tadd tmul softmax).
Local Abbreviation encoder_sample := (encoder_sample tzero tadd tmul softmax).

(** The attention, token by token. *)
Lemma head_slice_slice (P : block_params (T := T)) (which h : nat) (X : list token) :
  head_slice P which h (qkv P <$> X) = slice P which h <$> X.
Proof. unfold head_slice. by rewrite <- list_fmap_compose. Qed.

Lemma attend_by_token (P : block_params (T := T)) (h : nat) (X : list token) :
  (forall a, attn_drop P a = a) ->
  attend tzero tadd tmul softmax P (head_slice P 0 h (qkv P <$> X))
    (head_slice P 1 h (qkv P <$> X)) (head_slice P 2 h (qkv P <$> X))
  = (fun x => head_out P h x X) <$> X.
Proof.
  intros Hdrop. unfold attend. rewrite Hdrop, !head_slice_slice.
  rewrite <- !list_fmap_compose. apply list_fmap_ext. intros _ x _.
  unfold compose, TokenView.head_out. by rewrite <- list_fmap_compose.
Qed.

(** The attention, token by token. *)
Lemma attention_by_token (P : block_params (T := T)) (X : list token) :
  (forall a, attn_drop P a = a) ->
  attention_self_sample P X = (fun x => attention_token P x X) <$> X.
Proof.
  intros Hdrop. unfold Transformer.attention_self_sample, project. cbv zeta.
  unfold merge_heads.
  rewrite (fmap_seq_lookup X _
             (fun x => concat ((fun h => head_out P h x X) <$> seq 0 (num_heads P)))).
  { by rewrite <- !list_fmap_compose. }
  intros i x Hx. f_equal. rewrite <- list_fmap_compose.
  apply list_fmap_ext. intros _ h _. unfold compose.
  rewrite (attend_by_token P h X Hdrop).
  apply nth_lookup_Some. by rewrite list_lookup_fmap, Hx.
Qed.

(** A block on one sample, token by token. *)
Lemma block_sample_eq (P : block_params (T := T)) (X : list token) :
  (forall a, attn_drop P a = a) ->
  zip_with (zip_with tadd)
    (zip_with (zip_with tadd) X (attention_self_sample P (norm1 P <$> X)))
    (mlp P <$> (norm2 P <$>
       zip_with (zip_with tadd) X (attention_self_sample P (norm1 P <$> X))))
  = block_sample P X.
Proof.
  intros Hdrop. rewrite (attention_by_token P _ Hdrop).
  assert (zip_with (zip_with tadd) X
            ((fun x => attention_token P x (norm1 P <$> X)) <$> (norm1 P <$> X))
          = (fun x => zip_with tadd x (attention_token P (norm1 P x) (norm1 P <$> X))) <$> X)
    as ->.
  { rewrite <- list_fmap_compose. apply zip_with_id_fmap. }
  rewrite <- !list_fmap_compose. rewrite zip_with_fmap_same.
  unfold TokenView.block_sample. apply list_fmap_ext. intros _ t _. reflexivity.
Qed.

Lemma Block_by_sample (P : block_params (T := T)) (x : list (list token)) :
  inactive P -> Block_forward_self P x = block_sample P <$> x.
Proof.
  intros [Hdrop Hpath]. unfold Transformer.Block_forward_self. rewrite !Hpath.
  unfold tensor_add, per_token, Transformer.Attention_forward_self.
  induction x as [|X x IH]; [done|].
  rewrite !fmap_cons. cbn [zip_with]. rewrite !fmap_cons. cbn [zip_with].
  f_equal; [|exact IH]. by apply block_sample_eq.
Qed.


Lemma zip_with_fst_same {A B} (x : list A) (pos : list B) :
  length x = length pos -> zip_with (fun a _ => a) x pos = x.
Proof.
  revert pos. induction x as [|a x IH]; intros [|b pos] H; try done.
  cbn [zip_with]. f_equal. apply IH. by injection H.
Qed.

Lemma zip_with_fmap_zip {A B C D} (f : C -> B -> D) (g : A -> B -> C) (x : list A)
    (pos : list B) :
  zip_with f (zip_with g x pos) pos = zip_with (fun a b => f (g a b) b) x pos.
Proof.
  revert pos. induction x as [|a x IH]; intros [|b pos]; try done.
  cbn [zip_with]. by rewrite IH.
Qed.

(** The stack of blocks, sample by sample. *)
Lemma encoder_by_sample (blocks : list (block_params (T := T))) :
  Forall inactive blocks ->
  forall x pos : list (list token), length x = length pos ->
  TransformerEncoder_forward_self tzero tadd tmul softmax blocks x pos
  = zip_with (encoder_sample blocks) x pos.
Proof.
  induction 1 as [|P blocks HP _ IH]; intros x pos Hl.
  - cbn [TransformerStack.TransformerEncoder_forward_self TokenView.encoder_sample].
    by rewrite zip_with_fst_same.
  - cbn [TransformerStack.TransformerEncoder_forward_self TokenView.encoder_sample].
    rewrite (Block_by_sample P _ HP). unfold tensor_add.
    rewrite IH by (rewrite length_fmap, length_zip_with; unfold token in *; lia).
    clear. revert pos. induction x as [|X x IH]; intros [|Pos pos]; try done.
    cbn [zip_with]. rewrite fmap_cons. cbn [zip_with]. f_equal. apply IH.
Qed.

Section Symmetry.
Variable stat : list T -> T -> T.
Hypothesis Hsoft : softmax_symmetric softmax stat.
Hypothesis Hadd_comm : forall a b, tadd a b = tadd b a.
Hypothesis Hadd_assoc : forall a b c, tadd a (tadd b c) = tadd (tadd a b) c.

Lemma vadd_swap (a1 a2 b : list T) :
  zip_with tadd a1 (zip_with tadd a2 b) = zip_with tadd a2 (zip_with tadd a1 b).
Proof.
  revert a2 b. induction a1 as [|x a1 IH]; intros [|y a2] [|z b]; try done.
  cbn [zip_with]. rewrite IH. f_equal.
  by rewrite Hadd_assoc, (Hadd_comm x y), <- Hadd_assoc.
Qed.

(** The order of the tokens of a sequence does not change what a head
    returns for one of them. *)
Lemma head_out_perm (P : block_params (T := T)) (h : nat) (x : token) (X X' : list token) :
  X ≡ₚ X' -> head_out P h x X = head_out P h x X'.
Proof.
  intros HX. destruct Hsoft as [Hstat Hperm].
  unfold TokenView.head_out, weighted_sum. rewrite !Hstat.
  set (s := fun xj => tmul (dot tzero tadd tmul (slice P 0 h x) (slice P 1 h xj)) (scale P)).
  assert (stat (s <$> X') = stat (s <$> X)) as -> by (apply Hperm; by rewrite HX).
  rewrite <- !list_fmap_compose, !zip_with_fmap_same.
  apply (foldr_permutation_proper eq); [solve_proper|apply vadd_swap|].
  by apply fmap_Permutation.
Qed.

Lemma attention_token_perm (P : block_params (T := T)) (x : token) (X X' : list token) :
  X ≡ₚ X' -> attention_token P x X = attention_token P x X'.
Proof.
  intros HX. unfold TokenView.attention_token. do 3 f_equal.
  apply list_fmap_ext. intros _ h _. by apply head_out_perm.
Qed.

Lemma block_token_perm (P : block_params (T := T)) (x : token) (X X' : list token) :
  X ≡ₚ X' -> block_token P x X = block_token P x X'.
Proof.
  intros HX. unfold TokenView.block_token.
  by rewrite (attention_token_perm P (norm1 P x) (norm1 P <$> X) (norm1 P <$> X'))
    by (by apply fmap_Permutation).
Qed.

(** Through the stack, the output for a token is a function of the token
    and its position, the same function for every order of the pairs. *)
Lemma encoder_sample_perm (blocks : list (block_params (T := T))) :
  forall (Z Z' : list (list T * list T)) (F : list T * list T -> list T),
  Z ≡ₚ Z' ->
  exists F' : list T * list T -> list T,
    encoder_sample blocks (F <$> Z) (snd <$> Z) = F' <$> Z /\
    encoder_sample blocks (F <$> Z') (snd <$> Z') = F' <$> Z'.
Proof.
  induction blocks as [|P blocks IH]; intros Z Z' F HZ.
  - exists F. done.
  - cbn [TokenView.encoder_sample]. rewrite !zip_with_fmap_same.
    set (add := fun z : list T * list T => zip_with tadd (F z) z.2).
    unfold TokenView.block_sample. rewrite <- !list_fmap_compose.
    destruct (IH Z Z' (fun z => block_token P (add z) (add <$> Z)) HZ) as (F' & H1 & H2).
    exists F'. split; [exact H1|]. rewrite <- H2. f_equal.
    apply list_fmap_ext. intros _ z _. unfold compose.
    apply block_token_perm. by apply fmap_Permutation.
Qed.

Lemma encoder_sample_length (blocks : list (block_params (T := T))) :
  forall X Pos : list token, length X = length Pos ->
  length (encoder_sample blocks X Pos) = length X.
Proof.
  induction blocks as [|P blocks IH]; intros X Pos Hl; [done|].
  cbn [TokenView.encoder_sample]. unfold TokenView.block_sample.
  rewrite IH; rewrite length_fmap, length_zip_with; unfold token in *; lia.
Qed.
End Symmetry.

End View.
End TokenViewFacts.

(** *** PointTransformer.forward: the order of the groups *)

Module ClassifierFacts.
Import PointEncoder EncoderEval Transformer TransformerStack TokenView Classifier.

Lemma res_mapM_fmap {A B C} (f : B -> result C) (g : A -> B) (l : list A) :
  res_mapM f (g <$> l) = res_mapM (fun a => f (g a)) l.
Proof. induction l as [|a l IH]; [done|]. rewrite fmap_cons. cbn [res_mapM]. by rewrite IH. Qed.

Lemma res_mapM_Forall2_eq {A A' B} (f : A -> result B) (g : A' -> result B)
    (l : list A) (l' : list A') :
  Forall2 (fun a b => f a = g b) l l' -> res_mapM f l = res_mapM g l'.
Proof. induction 1 as [|a b l l' Hab _ IH]; [done|]. cbn [res_mapM]. by rewrite Hab, IH. Qed.

Lemma Forall2_fmap_eq {A B} (R : A -> B -> Prop) (f : A -> B) (l : list A) (t : list B) :
  (forall a b, R a b -> b = f a) -> Forall2 R l t -> t = f <$> l.
Proof.
  intros HR. induction 1 as [|a b l t Hab _ IH]; [done|].
  rewrite fmap_cons. f_equal; [by apply HR|exact IH].
Qed.

(** The maximum over vectors of one width has this width, and so has the
    embedding of a group when the second stack of layers returns it. *)
Lemma max_pool_width {T} (tmax : T -> T -> T) (w : nat) (l : list (feat (T := T)))
    (m : feat (T := T)) :
  Forall (fun v : feat => length v = w) l -> max_pool tmax l = Ok m -> length m = w.
Proof.
  unfold max_pool. intros Hl.
  assert (forall a, foldr (max_acc tmax) None l = Some a -> length a = w) as Hfold.
  { induction Hl as [|v l Hv _ IH]; [intros a Ha; discriminate Ha|].
    intros a Ha. cbn [foldr] in Ha. unfold max_acc at 1 in Ha.
    destruct (foldr (max_acc tmax) None l) as [a'|]; injection Ha as <-; [|exact Hv].
    unfold vmax. rewrite length_zip_with, (IH a' eq_refl). unfold feat in *. lia. }
  destruct (foldr (max_acc tmax) None l) as [a|]; intros H; [|discriminate H].
  injection H as <-. by apply Hfold.
Qed.

Lemma Encoder_group_width {T} (tmax : T -> T -> T) (first_conv : conv_block (T := T) point)
    (second_conv : conv_block (T := T) (feat (T := T))) (w : nat) (grp : list point)
    (f : feat (T := T)) :
  (forall v, length (pointwise second_conv v) = w) ->
  Encoder_group tmax first_conv second_conv grp = Ok f -> length f = w.
Proof.
  intros Hw. unfold Encoder_group.
  destruct (max_pool tmax (pointwise first_conv <$> grp)) as [g|]; [|intros H; discriminate H].
  cbn [rbind]. apply max_pool_width. apply Forall_fmap, Forall_true. intros v. apply Hw.
Qed.

(** A first token of the width of the others in front of every sample. *)
Lemma cat_tokens_cls {T} (c : token (T := T)) (b : list (list (token (T := T)))) :
  Forall (Forall (fun t : token => length t = length c)) b ->
  cat_tokens (replicate (length b) [c]) b = Ok ((fun s => c :: s) <$> b).
Proof.
  intros Hb. unfold cat_tokens. rewrite decide_True.
  - f_equal. clear Hb. induction b as [|s b IH]; [done|].
    cbn [length replicate zip_with]. rewrite fmap_cons. by rewrite IH.
  - split; [by rewrite length_replicate|].
    destruct b as [|s b]; [constructor|].
    cbn [length replicate app concat hd]. constructor; [done|].
    apply Forall_concat, Forall_app. split; [|exact Hb].
    apply Forall_replicate. by constructor.
Qed.

Section Forward.
Context {T : Type}.
Variables (tzero : T) (tadd tmul tmax : T -> T -> T).
Variable softmax : list T -> list T.
Variable first_conv : conv_block (T := T) point.
Variable second_conv : conv_block (T := T) (feat (T := T)).
Variable blocks : list (block_params (T := T)).
Variable get_pos_embed : list (list point) -> list (list (token (T := T))).
Variable pos_embed : token (T := T) -> token (T := T).
Variable norm : token (T := T) -> token (T := T).
Variables cls_token cls_pos : token (T := T).
Variable cls_head_finetune : list (list T) -> list (list T).
(** The embedding of one center by [get_pos_embed]. *)
Variable center_embed : point -> token (T := T).
Variable stat : list T -> T -> T.
Hypothesis Hfirst : eval_mode first_conv.
Hypothesis Hsecond : eval_mode second_conv.
Hypothesis Hblocks : Forall inactive blocks.
Hypothesis Hsoft : softmax_symmetric softmax stat.
Hypothesis Hadd_comm : forall a b, tadd a b = tadd b a.
Hypothesis Hadd_assoc : forall a b c, tadd a (tadd b c) = tadd (tadd a b) c.
Hypothesis Hmax_comm : forall a b, tmax a b = tmax b a.
Hypothesis Hmax_assoc : forall a b c, tmax a (tmax b c) = tmax (tmax a b) c.
Hypothesis Hpos : forall c,
  get_pos_embed c = (fun cs : list point => center_embed <$> cs) <$> c.
(** The widths fit: the Encoder returns, and [pos_embed] returns, tokens of
    the width of [cls_token] and [cls_pos]. *)
Hypothesis Hwidth : forall grp f,
  Encoder_group tmax first_conv second_conv grp = Ok f -> length f = length cls_token.
Hypothesis Hwidth_pos : forall p, length (pos_embed (center_embed p)) = length cls_pos.

Local Abbreviation PointTransformer_classify :=
  (PointTransformer_classify tzero tadd tmul tmax softmax first_conv second_conv blocks
     get_pos_embed pos_embed norm cls_token cls_pos cls_head_finetune).
Local Abbreviation tok :=
  (fun grp : list point =>
     match Encoder_group tmax first_conv second_conv grp with Ok f => f | Err _ => [] end).
Local Abbreviation pe := (fun p : point => pos_embed (center_embed p)).
Local Abbreviation sample_features :=
  (fun (groups : list (list point)) (centers : list point) =>
     cls_and_max tmax
       (norm <$> encoder_sample tzero tadd tmul softmax blocks
                   (cls_token :: (tok <$> groups)) (cls_pos :: (pe <$> centers)))).

Lemma encoder_spec_eval : encoder_spec tmax first_conv second_conv.
Proof.
  constructor; [exact Hmax_comm|exact Hmax_assoc|..]; intros l l' _; [apply Hfirst|apply Hsecond].
Qed.

(** The classifier, sample by sample. *)
Lemma classify_by_sample (neighborhood : list (list (list point)))
    (center : list (list point)) (G : nat) :
  neighborhood <> [] ->
  Forall (fun groups => length groups = G /\ Forall (fun grp => grp <> []) groups)
         neighborhood ->
  length center = length neighborhood ->
  PointTransformer_classify neighborhood center
  = (do concat_f <- res_mapM (fun s : list (list point) * list point =>
                               sample_features s.1 s.2) (zip neighborhood center);
     Ok (cls_head_finetune concat_f)).
Proof.
  intros Hne Hnb Hlc.
  destruct (EncoderEvalFacts.Encoder_forward_tokens tmax first_conv second_conv Hfirst Hsecond
              neighborhood G Hne Hnb) as (tokens & Henc & Hrel).
  assert (tokens = (fun groups : list (list point) => tok <$> groups) <$> neighborhood) as ->.
  { eapply Forall2_fmap_eq; [|exact Hrel]. intros groups row Hrow. cbv beta.
    eapply Forall2_fmap_eq; [|exact Hrow]. intros grp f Hf. cbv beta. by rewrite Hf. }
  unfold Classifier.PointTransformer_classify. rewrite Henc. cbn [rbind].
  rewrite cat_tokens_cls.
  2:{ apply Forall_fmap. eapply Forall_impl; [exact Hnb|]. intros groups [_ Hg].
      unfold compose. apply Forall_fmap. eapply Forall_impl; [exact Hg|].
      intros grp Hgrp. unfold compose.
      destruct (proj2 (EncoderEvalFacts.Encoder_group_ok tmax first_conv second_conv grp)
                  Hgrp) as [f Hf].
      rewrite Hf. by apply (Hwidth grp). }
  cbn [rbind].
  assert (length ((fun groups : list (list point) => tok <$> groups) <$> neighborhood)
          = length (per_token pos_embed (get_pos_embed center))) as ->
    by (unfold per_token; rewrite Hpos, !length_fmap; lia).
  rewrite cat_tokens_cls.
  2:{ unfold per_token. rewrite Hpos, <- list_fmap_compose.
      apply Forall_fmap, Forall_true. intros s. unfold compose.
      rewrite <- list_fmap_compose. apply Forall_fmap, Forall_true. intros p. apply Hwidth_pos. }
  cbn [rbind].
  rewrite TokenViewFacts.encoder_by_sample; [|exact Hblocks|].
  2:{ unfold per_token. rewrite Hpos, !length_fmap. lia. }
  assert (neighborhood = fst <$> zip neighborhood center) as Hn
    by (symmetry; apply fst_zip; lia).
  assert (center = snd <$> zip neighborhood center) as Hc
    by (symmetry; apply snd_zip; lia).
  set (samples := zip neighborhood center) in *.
  assert ((fun s : list token => cls_token :: s)
            <$> ((fun groups : list (list point) => tok <$> groups) <$> neighborhood)
          = (fun s : list (list point) * list point => cls_token :: (tok <$> s.1))
              <$> samples) as ->.
  { rewrite Hn at 1. by rewrite <- !list_fmap_compose. }
  assert ((fun s : list token => cls_pos :: s)
            <$> per_token pos_embed (get_pos_embed center)
          = (fun s : list (list point) * list point => cls_pos :: (pe <$> s.2))
              <$> samples) as ->.
  { rewrite Hpos. unfold per_token. rewrite Hc at 1. rewrite <- !list_fmap_compose.
    apply list_fmap_ext. intros _ s _. unfold compose.
    by rewrite <- list_fmap_compose. }
  rewrite TokenViewFacts.zip_with_fmap_same. unfold per_token.
  rewrite <- list_fmap_compose, res_mapM_fmap. done.
Qed.

(** The features of a sample do not depend on the order of its groups. *)
Lemma sample_features_perm (groups groups' : list (list point)) (centers centers' : list point) :
  length groups = length centers -> length groups' = length centers' ->
  zip groups centers ≡ₚ zip groups' centers' ->
  sample_features groups centers = sample_features groups' centers'.
Proof.
  intros Hl Hl' Hperm.
  set (pair := fun gc : list point * point => (tok gc.1, pe gc.2)).
  set (Z := (cls_token, cls_pos) :: (pair <$> zip groups centers)).
  set (Z' := (cls_token, cls_pos) :: (pair <$> zip groups' centers')).
  assert (Z ≡ₚ Z') as HZ by (unfold Z, Z'; by rewrite Hperm).
  assert (forall (gs : list (list point)) (cs : list point), length gs = length cs ->
            cls_token :: (tok <$> gs) = fst <$> ((cls_token, cls_pos) :: (pair <$> zip gs cs)) /\
            cls_pos :: (pe <$> cs) = snd <$> ((cls_token, cls_pos) :: (pair <$> zip gs cs)))
    as Hzip.
  { intros gs cs H. rewrite !fmap_cons. cbn [fst snd]. rewrite <- !list_fmap_compose.
    split; f_equal.
    - rewrite <- (fst_zip gs cs) at 1 by lia. by rewrite <- list_fmap_compose.
    - rewrite <- (snd_zip gs cs) at 1 by lia. by rewrite <- list_fmap_compose. }
  destruct (Hzip groups centers Hl) as [-> ->].
  destruct (Hzip groups' centers' Hl') as [-> ->].
  fold Z Z'.
  destruct (TokenViewFacts.encoder_sample_perm tzero tadd tmul softmax stat Hsoft
              Hadd_comm Hadd_assoc blocks Z Z' fst HZ) as (F & HF & HF').
  etrans; [exact (f_equal (fun v => cls_and_max tmax (norm <$> v)) HF)|].
  etrans; [|symmetry; exact (f_equal (fun v => cls_and_max tmax (norm <$> v)) HF')].
  unfold Z, Z'. rewrite !fmap_cons. cbn [cls_and_max].
  rewrite <- !list_fmap_compose.
  rewrite (PointEncoderFacts.max_pool_perm tmax first_conv second_conv encoder_spec_eval
             ((norm ∘ F ∘ pair) <$> zip groups centers)
             ((norm ∘ F ∘ pair) <$> zip groups' centers')); [done|].
  by apply fmap_Permutation.
Qed.

(** With at least one group the features of a sample exist. *)
Lemma sample_features_ok (groups : list (list point)) (centers : list point) :
  groups <> [] -> length groups = length centers ->
  is_Ok (sample_features groups centers).
Proof.
  intros Hne Hl. cbv beta.
  pose proof (TokenViewFacts.encoder_sample_length tzero tadd tmul softmax blocks
                (cls_token :: (tok <$> groups)) (cls_pos :: (pe <$> centers))) as Hlen.
  cbn [length] in Hlen. rewrite !length_fmap in Hlen. specialize (Hlen (f_equal S Hl)).
  destruct (encoder_sample tzero tadd tmul softmax blocks
              (cls_token :: (tok <$> groups)) (cls_pos :: (pe <$> centers)))
    as [|t0 [|t1 rest]] eqn:E.
  - discriminate Hlen.
  - destruct groups; [done|discriminate Hlen].
  - rewrite !fmap_cons. cbn [cls_and_max].
    destruct (EncoderEvalFacts.max_pool_cons tmax (norm t1) (norm <$> rest)) as [m Hm].
    exists (norm t0 ++ m).
    exact (f_equal (fun r => do m <- r; Ok (norm t0 ++ m)) Hm).
Qed.

(** X21 (PointTransformer.forward). Outside training (the normalisations
    of the Encoder in evaluation mode, the dropout and drop-path of the
    blocks off), with exact arithmetic and a positional embedding that is
    computed center by center, the output of the classifier does not depend
    on the order in which the groups of each sample, with their centers, are
    listed: with at least one sample, [G >= 1] groups in every sample and no
    empty group, the forward pass from the groups on returns, and it returns
    the same logits for any reordering of the groups within the samples. *)
Theorem PointTransformer_group_order_invariant
    (samples samples' : list (list (list point * point))) (G : nat) :
  samples <> [] -> G <> 0%nat ->
  Forall (fun s : list (list point * point) =>
            length s = G /\ Forall (fun gc => gc.1 <> []) s) samples ->
  Forall2 Permutation samples samples' ->
  exists ret,
    PointTransformer_classify ((fun s : list (list point * point) => fst <$> s) <$> samples)
                              ((fun s : list (list point * point) => snd <$> s) <$> samples) = Ok ret /\
    PointTransformer_classify ((fun s : list (list point * point) => fst <$> s) <$> samples')
                              ((fun s : list (list point * point) => snd <$> s) <$> samples') = Ok ret.
Proof.
  intros Hne HG Hshape Hperm.
  assert (forall S : list (list (list point * point)),
            zip ((fun s : list (list point * point) => fst <$> s) <$> S) ((fun s : list (list point * point) => snd <$> s) <$> S)
            = (fun s : list (list point * point) => (fst <$> s, snd <$> s)) <$> S) as Hzip.
  { induction S as [|s S IH]; [done|]. rewrite !fmap_cons. cbn [zip zip_with]. by rewrite IH. }
  assert (forall S : list (list (list point * point)),
            S <> [] ->
            Forall (fun s : list (list point * point) =>
                      length s = G /\ Forall (fun gc => gc.1 <> []) s) S ->
            PointTransformer_classify ((fun s : list (list point * point) => fst <$> s) <$> S) ((fun s : list (list point * point) => snd <$> s) <$> S)
            = (do concat_f <- res_mapM (fun s : list (list point * point) =>
                                         sample_features (fst <$> s) (snd <$> s)) S;
               Ok (cls_head_finetune concat_f))) as Hcl.
  { intros S HS HF. rewrite (classify_by_sample _ _ G).
    - by rewrite Hzip, res_mapM_fmap.
    - by destruct S.
    - apply Forall_fmap. eapply Forall_impl; [exact HF|]. intros s [Hs Hg]. unfold compose.
      rewrite length_fmap. split; [exact Hs|]. apply Forall_fmap. exact Hg.
    - by rewrite !length_fmap. }
  assert (samples' <> []) as Hne'.
  { intros ->. apply Forall2_nil_inv_r in Hperm. done. }
  assert (Forall (fun s : list (list point * point) =>
                    length s = G /\ Forall (fun gc => gc.1 <> []) s) samples') as Hshape'.
  { clear Hne Hne' Hcl. induction Hperm as [|s s' S S' Hs _ IH]; [constructor|].
    apply Forall_cons in Hshape as [[Hlen Hg] Hrest]. constructor; [|by apply IH].
    split; [by rewrite <- Hs|by rewrite <- Hs]. }
  rewrite (Hcl samples Hne Hshape), (Hcl samples' Hne' Hshape').
  assert (res_mapM (fun s : list (list point * point) =>
                      sample_features (fst <$> s) (snd <$> s)) samples'
          = res_mapM (fun s : list (list point * point) =>
                      sample_features (fst <$> s) (snd <$> s)) samples) as ->.
  { symmetry. apply res_mapM_Forall2_eq. eapply Forall2_impl; [exact Hperm|].
    intros s s' Hs. cbv beta. apply sample_features_perm.
    - by rewrite !length_fmap.
    - by rewrite !length_fmap.
    - by rewrite !zip_fst_snd. }
  destruct (proj2 (EncoderEvalFacts.res_mapM_is_Ok
                     (fun s : list (list point * point) =>
                        sample_features (fst <$> s) (snd <$> s)) samples)) as [fs ->].
  { eapply Forall_impl; [exact Hshape|]. intros s [Hs _]. cbv beta.
    apply sample_features_ok; [|by rewrite !length_fmap].
    destruct s; [cbn in Hs; congruence|done]. }
  cbn [rbind]. by eexists.
Qed.

End Forward.
Lemma PointTransformer_group_order_invariant_witness :
  let blk : block_params (T := Z) :=
    {| num_heads := 1; dim := 2; scale := 2;
       qkv := fun t => t ++ ((fun v => v + 1) <$> t) ++ ((fun v => 2 * v) <$> t);
       attn_drop := fun a => a;
       proj := fun t => (fun v => v - 1) <$> t;
       proj_drop := fun t => t;
       norm1 := fun t => (fun v => v - hd 0 t) <$> t;
       norm2 := fun t => (fun v => v + 1) <$> t;
       mlp := fun t => (fun v => 3 * v) <$> t;
       drop_path := fun x => x |} in
  let softmax := fun l : list Z => (fun a => a * Z.of_nat (length l)) <$> l in
  let center_embed := fun p : point => [px p + pz p; py p] in
  let get_pos_embed := fun c : list (list point) =>
    (fun cs : list point => center_embed <$> cs) <$> c in
  let pos_embed := fun t : list Z => (fun v => 2 * v + 1) <$> t in
  let norm := fun t : list Z => (fun v => v - hd 0 t) <$> t in
  let head := fun f : list (list Z) => (fun r => [foldr Z.add 0 r]) <$> f in
  let g1 : list point * point := ([(1, 2, 3); (4, 0, 1)], (1, 2, 3)) in
  let g2 : list point * point := ([(1, 1, 1); (2, 2, 2)], (1, 1, 1)) in
  let g3 : list point * point := ([(0, 5, 2)], (0, 5, 2)) in
  let samples := [[g1; g2; g3]; [g2; g3; g1]] in
  let samples' := [[g3; g1; g2]; [g2; g3; g1]] in
  exists ret : list (list Z),
    PointTransformer_classify 0 Z.add Z.mul Z.max softmax eval_first_conv eval_second_conv
      [blk] get_pos_embed pos_embed norm [5; 7] [1; 2] head
      ((fun s : list (list point * point) => fst <$> s) <$> samples)
      ((fun s : list (list point * point) => snd <$> s) <$> samples) = Ok ret /\
    PointTransformer_classify 0 Z.add Z.mul Z.max softmax eval_first_conv eval_second_conv
      [blk] get_pos_embed pos_embed norm [5; 7] [1; 2] head
      ((fun s : list (list point * point) => fst <$> s) <$> samples')
      ((fun s : list (list point * point) => snd <$> s) <$> samples') = Ok ret.
Proof.
  intros blk softmax center_embed get_pos_embed pos_embed norm head g1 g2 g3 samples samples'.
  apply (PointTransformer_group_order_invariant
           0 Z.add Z.mul Z.max softmax eval_first_conv eval_second_conv [blk]
           get_pos_embed pos_embed norm [5; 7] [1; 2] head center_embed
           (fun l a => a * Z.of_nat (length l))
           EncoderEvalFacts.eval_first_conv_eval_mode
           EncoderEvalFacts.eval_second_conv_eval_mode) with (G := 3%nat).
  - constructor; [|constructor]. split; intros a; reflexivity.
  - split; [intros l; reflexivity|]. intros l l' H. cbv beta. by rewrite (Permutation_length H).
  - intros a b. lia.
  - intros a b c. lia.
  - intros a b. lia.
  - intros a b c. lia.
  - intros c. reflexivity.
  - intros grp f. apply Encoder_group_width. intros v. reflexivity.
  - intros p. reflexivity.
  - discriminate.
  - discriminate.
  - repeat constructor; discriminate.
  - constructor; [|constructor; [reflexivity|constructor]].
    symmetry. apply (Permutation_cons_append [g1; g2] g3).
Defined.

End ClassifierFacts.
